(** * GPX track simplifier: a shallow embedding of [1_gpx_simplifier.py]

    The development follows the class [GPXSimplifier]: the geometry
    helpers, the override-zone pre-pass, the stay segmenter, the stay
    simplifier, the moving-point selector and the loop of
    [simplify_gpx_improved] that wires them together.  Parsing and writing
    of GPX files are not part of the model: the functions below start from
    the list of point dictionaries built by [parse_gpx] and stop at the list
    handed to [create_simplified_gpx]. *)

From Stdlib Require Import ZArith QArith Qabs Lia.
From stdpp Require Import base list sorting gmap sets.

Local Open Scope Z_scope.

(** ** Python floats

    Latitudes, longitudes, distances and bearings are Python floats, and the
    source combines them with [math] and [numpy] routines.  The model takes
    that arithmetic as an interface: every definition and every general
    theorem below is stated for an arbitrary implementation of it. *)

Class PyFloat := {
  float : Type;
  flit : Q → float;                       (* a numeric literal, or an int used as a float *)
  fadd : float → float → float;
  fsub : float → float → float;
  fmul : float → float → float;
  fdiv : float → float → float;
  fpow : float → Z → float;               (* x ** n *)
  fabs : float → float;
  feqb : float → float → bool;            (* x == y *)
  fltb : float → float → bool;            (* x < y *)
  fleb : float → float → bool;            (* x <= y *)
  radians : float → float;
  degrees : float → float;                (* np.degrees *)
  sin : float → float;
  cos : float → float;
  asin : float → float;                   (* total here: the ValueError of math.asin *)
  sqrt : float → float;                   (* and math.sqrt outside their domain is not modelled *)
  arctan2 : float → float → float;        (* np.arctan2 *)
  fsum : list float → float;              (* the builtin sum *)
  float_inf : float                       (* float('inf') *)
}.

(** ** Outcomes of a call

    A call either returns, raises a Python exception, or (in the model
    only) exhausts the fuel given to a [while] loop. *)

Inductive exn := TypeError | IndexError.

Inductive result (A : Type) :=
  | Ok (a : A)
  | Raise (e : exn)
  | OutOfFuel.
Arguments Ok {A} a.
Arguments Raise {A} e.
Arguments OutOfFuel {A}.

Global Instance result_ret : MRet result := λ A a, Ok a.

Global Instance result_bind : MBind result := λ A B k r,
  match r with
  | Ok a => k a
  | Raise e => Raise e
  | OutOfFuel => OutOfFuel
  end.

Global Instance result_fmap : FMap result := λ A B f r,
  match r with
  | Ok a => Ok (f a)
  | Raise e => Raise e
  | OutOfFuel => OutOfFuel
  end.

(** Python sequence helpers: [len(l)], [l[i]] (negative indices count from
    the end, out of range raises [IndexError]) and [l[a:b]] for
    [0 <= a]. *)
Definition len {A} (l : list A) : Z := Z.of_nat (length l).

Definition item {A} (l : list A) (i : Z) : result A :=
  let i' := if i <? 0 then len l + i else i in
  if i' <? 0 then Raise IndexError
  else match l !! Z.to_nat i' with
       | Some x => Ok x
       | None => Raise IndexError
       end.

Definition slice {A} (l : list A) (a b : Z) : list A :=
  take (Z.to_nat b - Z.to_nat a) (drop (Z.to_nat a) l).

(** ** Dates and durations

    A [datetime] either carries a UTC offset (it is offset-aware: [tzinfo]
    is set) or does not (offset-naive); [parse_gpx] builds both kinds.  The
    model keeps that flag and the reading of the clock in microseconds
    counted from 1970-01-01T00:00:00: the wall-clock reading of a naive
    value, the UTC reading of an aware one.  Two values of the same kind are
    compared and subtracted through that reading; comparing or subtracting a
    naive and an aware value raises [TypeError]; [==] between them is
    false. *)
Record datetime := DateTime {
  aware : bool;
  micros : Z
}.

Global Instance datetime_eq_dec : EqDecision datetime.
Proof. solve_decision. Defined.

(** [datetime.min], an offset-naive value. *)
Definition datetime_min : datetime := DateTime false (-62135596800000000).

(** [a - b]: the [timedelta], in microseconds. *)
Definition datetime_sub (a b : datetime) : result Z :=
  if bool_decide (aware a = aware b) then Ok (micros a - micros b)
  else Raise TypeError.

(** The float [a / b] for two ints with [0 < b]: the binary64 number
    nearest to the quotient, ties to even.  The number is given as a pair
    [(m, e)] that stands for [m * 2^e]; for a quotient other than zero
    [2^52 <= |m| <= 2^53].  The quotients formed below are durations in
    seconds, whose size (at most 10^9 days, at least one microsecond) keeps
    them clear of overflow and of the subnormal range. *)
Definition round_half_even (a b : Z) : Z :=
  let q := a / b in
  let r := a mod b in
  if 2 * r <? b then q
  else if b <? 2 * r then q + 1
  else if Z.even q then q else q + 1.

Definition int_true_div (a b : Z) : Z * Z :=
  if a =? 0 then (0, 0)
  else
    let s := Z.sgn a in
    let a := Z.abs a in
    let k := Z.log2_up b in
    let e := Z.log2 (a * 2 ^ k / b) - k in       (* 2^e <= a / b < 2^(e+1) *)
    let shift := 52 - e in
    let m := if 0 <=? shift then round_half_even (a * 2 ^ shift) b
             else round_half_even a (b * 2 ^ (- shift)) in
    (s * m, - shift).

(** [timedelta.total_seconds()]: the microseconds divided by [10**6]. *)
Definition total_seconds (delta : Z) : Z * Z := int_true_div delta 1000000.

(** [x >= n] for a float [x = m * 2^e] and an int [n]; Python compares the
    two exactly. *)
Definition float_ge_int (x : Z * Z) (n : Z) : bool :=
  let '(m, e) := x in
  if 0 <=? e then n <=? m * 2 ^ e else n * 2 ^ (- e) <=? m.

Section Simplifier.
Context {PF : PyFloat}.

Local Notation "x +. y" := (fadd x y) (at level 50, left associativity).
Local Notation "x -. y" := (fsub x y) (at level 50, left associativity).
Local Notation "x *. y" := (fmul x y) (at level 40, left associativity).
Local Notation "x /. y" := (fdiv x y) (at level 40, left associativity).
Local Notation "x <=. y" := (fleb x y) (at level 70).
Local Notation "x <. y" := (fltb x y) (at level 70).
Local Notation "x ==. y" := (feqb x y) (at level 70).
Local Notation "# z" := (flit (inject_Z z)) (at level 9, z at level 9, format "# z").

(** ** Data model *)

(** One entry of the list built by [parse_gpx]: the dictionary with keys
    ['lat'], ['lon'], ['time'] and ['element'].  ['time'] is [None] or a
    [datetime].  ['element'] is the
    XML element the point was read from; it is compared by identity, so it
    is kept as a number naming the object.  [parse_gpx] builds one
    dictionary per element, which lets the same number stand for [id(p)]. *)
Record trackpoint := Point {
  lat : float;
  lon : float;
  time : option datetime;
  element : nat
}.

Definition id (p : trackpoint) : nat := element p.

(** Truth value of [p['time']]: a [datetime] is always true, [None] is false. *)
Definition has_time (p : trackpoint) : bool := bool_decide (is_Some (time p)).

(** [a == b] on two point dictionaries: all four entries are equal. *)
Definition point_eqb (a b : trackpoint) : bool :=
  (lat a ==. lat b) && (lon a ==. lon b)
  && bool_decide (time a = time b) && bool_decide (element a = element b).

(** [p in l]: some entry of [l] is [p] itself or equals it. *)
Definition py_in (p : trackpoint) (l : list trackpoint) : bool :=
  existsb (λ q, bool_decide (id q = id p) || point_eqb q p) l.

(** The attributes set by [__init__]. *)
Record bbox := BBox {
  min_lat : float;
  max_lat : float;
  min_lon : float;
  max_lon : float
}.

Record GPXSimplifier := {
  stay_radius : float;
  min_stay_time : Z;                     (* seconds *)
  max_stay_points : Z;
  moving_threshold : float;
  bupt_area : bbox;
  bupt_simplified_points_count : Z
}.

(** [GPXSimplifier(stay_radius, min_stay_time, max_stay_points, moving_threshold)] *)
Definition init (stay_radius : float) (min_stay_time max_stay_points : Z)
    (moving_threshold : float) : GPXSimplifier :=
  {| stay_radius := stay_radius;
     min_stay_time := min_stay_time;
     max_stay_points := max_stay_points;
     moving_threshold := moving_threshold;
     bupt_area := {| min_lat := flit 39.95822855; max_lat := flit 39.96502929;
                     min_lon := flit 116.35502636; max_lon := flit 116.36105597 |};
     bupt_simplified_points_count := 2 |}.

Variable self : GPXSimplifier.

Definition is_in_bupt_area (lat lon : float) : bool :=
  (min_lat (bupt_area self) <=. lat) && (lat <=. max_lat (bupt_area self))
  && (min_lon (bupt_area self) <=. lon) && (lon <=. max_lon (bupt_area self)).

(** ** Geometry *)

Definition haversine_distance (lat1 lon1 lat2 lon2 : float) : float :=
  let lat1 := radians lat1 in
  let lon1 := radians lon1 in
  let lat2 := radians lat2 in
  let lon2 := radians lon2 in
  let dlat := lat2 -. lat1 in
  let dlon := lon2 -. lon1 in
  let a := fpow (sin (dlat /. #2)) 2
           +. cos lat1 *. cos lat2 *. fpow (sin (dlon /. #2)) 2 in
  let c := #2 *. asin (sqrt a) in
  let r := #6371000 in
  c *. r.

Definition calculate_bearing (point1 point2 : trackpoint) : float :=
  if (lat point1 ==. lat point2) && (lon point1 ==. lon point2) then flit 0.0
  else
    let lat1 := radians (lat point1) in
    let lon1 := radians (lon point1) in
    let lat2 := radians (lat point2) in
    let lon2 := radians (lon point2) in
    let dlon := lon2 -. lon1 in
    let y := sin dlon *. cos lat2 in
    let x := cos lat1 *. sin lat2 -. sin lat1 *. cos lat2 *. cos dlon in
    let bearing := arctan2 y x in
    degrees bearing.

(** [sum(p[k] for p in l) / len(l)] for a coordinate [k]. *)
Definition mean (k : trackpoint → float) (l : list trackpoint) : float :=
  fsum (k <$> l) /. #(Z.of_nat (length l)).

(** ** Stay validity and stay simplification *)

Definition is_stay_area (area_points : list trackpoint) : result bool :=
  if len area_points <? 2 then Ok false
  else
    first ← item area_points 0;
    last ← item area_points (-1);
    match time first, time last with
    | Some t0, Some t1 =>
        delta ← datetime_sub t1 t0;
        let stay_duration := total_seconds delta in
        Ok (float_ge_int stay_duration (min_stay_time self))
    | _, _ => Ok (10 <=? len area_points)
    end.

(** The loop [for p in simplified: if id(p) not in seen_ids: ...]; returns
    [final_simplified] and [seen_ids]. *)
Definition dedup_ids (simplified : list trackpoint) : list trackpoint * gset nat :=
  foldl (λ '(final_simplified, seen_ids) p,
           if bool_decide (id p ∈ seen_ids) then (final_simplified, seen_ids)
           else (final_simplified ++ [p], {[id p]} ∪ seen_ids))
        ([], ∅) simplified.

Definition simplify_stay_area (area_points : list trackpoint) : result (list trackpoint) :=
  if len area_points <=? max_stay_points self then Ok area_points
  else if max_stay_points self =? 1 then
    let center_lat := mean lat area_points in
    let center_lon := mean lon area_points in
    first ← item area_points 0;
    let '(_, center_point) :=
      foldl (λ '(min_distance, center_point) point,
               let distance :=
                 haversine_distance (lat point) (lon point) center_lat center_lon in
               if distance <. min_distance then (distance, point)
               else (min_distance, center_point))
            (float_inf, first) area_points in
    Ok [center_point]
  else if max_stay_points self =? 2 then
    first ← item area_points 0;
    last ← item area_points (-1);
    Ok [first; last]
  else
    first ← item area_points 0;
    let simplified := [first] in
    simplified ←
      (if 2 <? max_stay_points self then
         let middle_count := Z.min (max_stay_points self - 2) 1 in
         if 0 <? middle_count then
           let middle_index := len area_points / 2 in
           middle ← item area_points middle_index;
           Ok (simplified ++ [middle])
         else Ok simplified
       else Ok simplified);
    last ← item area_points (-1);
    let simplified := simplified ++ [last] in
    Ok (dedup_ids simplified).1.

(** ** Stay segmenter *)

(** The lookahead loop [while k < len(points) and len(temp_moving) < 10].
    [Some (temp_moving, temp_point, k)] is the exit through [break] (a point
    came back within the radius), [None] the exit through the loop's [else]
    branch. *)
Fixpoint lookahead (fuel : nat) (points : list trackpoint) (center_lat center_lon : float)
    (temp_moving : list trackpoint) (k : Z) : result (option (list trackpoint * trackpoint * Z)) :=
  match fuel with
  | O => OutOfFuel
  | S fuel =>
      if (k <? len points) && (len temp_moving <? 10) then
        temp_point ← item points k;
        let temp_distance :=
          haversine_distance (lat temp_point) (lon temp_point) center_lat center_lon in
        if temp_distance <=. stay_radius self then Ok (Some (temp_moving, temp_point, k))
        else lookahead fuel points center_lat center_lon (temp_moving ++ [temp_point]) (k + 1)
      else Ok None
  end.

(** One pass through the body of [while j < len(points)], entered with
    [j < len(points)]: [Some] is the state the loop continues with, [None]
    is the [break] that closes the candidate. *)
Definition scan_body (points potential_stay_area : list trackpoint) (j : Z)
    : result (option (list trackpoint * Z)) :=
  next_point ← item points j;
  let center_lat := mean lat potential_stay_area in
  let center_lon := mean lon potential_stay_area in
  let distance :=
    haversine_distance (lat next_point) (lon next_point) center_lat center_lon in
  if distance <=. stay_radius self then Ok (Some (potential_stay_area ++ [next_point], j + 1))
  else
    r ← lookahead 11 points center_lat center_lon [] j;
    match r with
    | Some (temp_moving, temp_point, k) =>
        Ok (Some (potential_stay_area ++ temp_moving ++ [temp_point], k + 1))
    | None => Ok None
    end.

Fixpoint scan (fuel : nat) (points potential_stay_area : list trackpoint) (j : Z)
    : result (list trackpoint * Z) :=
  match fuel with
  | O => OutOfFuel
  | S fuel =>
      if j <? len points then
        r ← scan_body points potential_stay_area j;
        match r with
        | Some (potential_stay_area, j) => scan fuel points potential_stay_area j
        | None => Ok (potential_stay_area, j)
        end
      else Ok (potential_stay_area, j)
  end.

(** The loop [while i < len(points) - 1] of the invalid branch; returns the
    final [i]. *)
Fixpoint walk (fuel : nat) (points : list trackpoint) (i : Z) : result Z :=
  match fuel with
  | O => OutOfFuel
  | S fuel =>
      if i <? len points - 1 then
        current ← item points i;
        next_pt ← item points (i + 1);
        let distance :=
          haversine_distance (lat current) (lon current) (lat next_pt) (lon next_pt) in
        if distance <. #10 then Ok i
        else walk fuel points (i + 1)
      else Ok i
  end.

(** The invalid branch: the segment appended to [moving_segments], if any,
    and the index the outer loop resumes at. *)
Definition close_invalid (points : list trackpoint) (i : Z)
    : result (option (list trackpoint) * Z) :=
  let moving_start := i in
  i ← walk (S (length points)) points i;
  let emitted := if moving_start <? i then Some (slice points moving_start (i + 1))
                 else None in
  Ok (emitted, i + 1).

Fixpoint segment (fuel : nat) (points : list trackpoint) (i : Z)
    (stay_areas moving_segments : list (list trackpoint))
    : result (list (list trackpoint) * list (list trackpoint)) :=
  match fuel with
  | O => OutOfFuel
  | S fuel =>
      if i <? len points then
        current_point ← item points i;
        '(potential_stay_area, j) ← scan (S (length points)) points [current_point] (i + 1);
        valid ← is_stay_area potential_stay_area;
        if (valid : bool) then
          segment fuel points j (stay_areas ++ [potential_stay_area]) moving_segments
        else
          '(emitted, i) ← close_invalid points i;
          let moving_segments :=
            match emitted with
            | Some s => moving_segments ++ [s]
            | None => moving_segments
            end in
          segment fuel points i stay_areas moving_segments
      else Ok (stay_areas, moving_segments)
  end.

Definition identify_stay_areas_improved (points : list trackpoint)
    : result (list (list trackpoint) * list (list trackpoint)) :=
  match points with
  | [] => Ok ([], [])
  | _ => segment (S (length points)) points 0 [] []
  end.

(** ** Sorting

    [sorted] and [list.sort] are stable; so is insertion from the right. *)
Fixpoint insert_by (key : trackpoint → Z) (x : trackpoint) (l : list trackpoint) : list trackpoint :=
  match l with
  | [] => [x]
  | y :: l' => if key x <=? key y then x :: l else y :: insert_by key x l'
  end.

Definition sort_by (key : trackpoint → Z) (l : list trackpoint) : list trackpoint :=
  foldr (insert_by key) [] l.

(** The key [lambda p: p['time'] or datetime.min]: its reading of the
    clock, and whether it is offset-aware. *)
Definition time_or_min (p : trackpoint) : Z := micros (default datetime_min (time p)).

Definition key_aware (p : trackpoint) : bool := aware (default datetime_min (time p)).

(** The keys [p['time'] or datetime.min] of [l] are all offset-naive or all
    offset-aware. *)
Definition one_kind (l : list trackpoint) : bool :=
  match l with
  | [] => true
  | p :: l' => forallb (λ q, bool_decide (key_aware q = key_aware p)) l'
  end.

(** Sorting compares keys with [<].  Comparing [None] with anything, or an
    offset-naive with an offset-aware [datetime], raises [TypeError]; a sort
    of two or more keys compares every key with another one and cannot
    finish unless all of them are comparable, so it raises as soon as the
    keys are not all [datetime]s of one kind. *)

(** [sorted(l, key=lambda p: p['time'])] *)
Definition sorted_by_time (l : list trackpoint) : result (list trackpoint) :=
  if (len l <=? 1) || (forallb has_time l && one_kind l) then Ok (sort_by time_or_min l)
  else Raise TypeError.

(** [l.sort(key=lambda p: p['time'] or datetime.min)] *)
Definition sorted_by_time_or_min (l : list trackpoint) : result (list trackpoint) :=
  if (len l <=? 1) || one_kind l then Ok (sort_by time_or_min l)
  else Raise TypeError.

(** ** Override-zone pre-pass *)

Definition _simplify_bupt_cluster (bupt_cluster : list trackpoint) : result (list trackpoint) :=
  let count := bupt_simplified_points_count self in
  if bool_decide (bupt_cluster = []) then Ok []
  else if len bupt_cluster <=? count then Ok bupt_cluster
  else
    first ← item bupt_cluster 0;
    last ← item bupt_cluster (-1);
    let simplified := if 1 <=? count then [first] else [] in
    simplified ←
      (if 2 <=? count then
         if has_time first && has_time last then
           sorted_cluster ← sorted_by_time bupt_cluster;
           earliest ← item sorted_cluster 0;
           latest ← item sorted_cluster (-1);
           let simplified :=
             if negb (py_in earliest simplified) then simplified ++ [earliest]
             else simplified in
           let simplified :=
             if negb (py_in latest simplified) then simplified ++ [latest]
             else simplified in
           Ok simplified
         else
           Ok (if negb (py_in last simplified) then simplified ++ [last] else simplified)
       else Ok simplified);
    let simplified :=
      if 3 <=? count then
        let center_lat := mean lat bupt_cluster in
        let center_lon := mean lon bupt_cluster in
        let '(_, central_point) :=
          foldl (λ '(min_distance, central_point) point,
                   let distance :=
                     haversine_distance (lat point) (lon point) center_lat center_lon in
                   if (distance <. min_distance) && negb (py_in point simplified)
                   then (distance, Some point)
                   else (min_distance, central_point))
                (float_inf, None) bupt_cluster in
        match central_point with
        | Some c => simplified ++ [c]
        | None => simplified
        end
      else simplified in
    let '(final_simplified, seen_ids) := dedup_ids simplified in
    final_simplified ←
      (if len final_simplified <? count then
         let remaining_points :=
           filter (λ p, id p ∉ seen_ids) bupt_cluster in
         if bool_decide (remaining_points = []) then Ok final_simplified
         else
           remaining_points ← sorted_by_time_or_min remaining_points;
           Ok (final_simplified
                 ++ slice remaining_points 0 (count - len final_simplified))
       else Ok final_simplified);
    final_simplified ←
      match final_simplified with
      | p :: _ => if has_time p then sorted_by_time_or_min final_simplified
                  else Ok final_simplified
      | [] => Ok final_simplified
      end;
    Ok final_simplified.

(** The loop [for point in points] of the pre-pass, followed by the
    treatment of a cluster still open at the end of the track. *)
Fixpoint bupt_pass (points processed_points bupt_cluster : list trackpoint)
    : result (list trackpoint) :=
  match points with
  | [] =>
      if bool_decide (bupt_cluster = []) then Ok processed_points
      else
        simplified_bupt ← _simplify_bupt_cluster bupt_cluster;
        Ok (processed_points ++ simplified_bupt)
  | point :: points =>
      if is_in_bupt_area (lat point) (lon point) then
        bupt_pass points processed_points (bupt_cluster ++ [point])
      else if bool_decide (bupt_cluster = []) then
        bupt_pass points (processed_points ++ [point]) bupt_cluster
      else
        simplified_bupt ← _simplify_bupt_cluster bupt_cluster;
        bupt_pass points (processed_points ++ simplified_bupt ++ [point]) []
  end.

(** ** Moving-point selector *)

Definition is_turning_point (point : trackpoint) (all_points : list trackpoint)
    (point_index window : Z) : bool :=
  if (point_index <? 0) || (len all_points <=? point_index) then false
  else if (point_index <? window) || (len all_points - window <=? point_index) then true
  else
    match item all_points (point_index - window),
          item all_points (point_index + window) with
    | Ok prev_point, Ok next_point =>
        let bearing1 := calculate_bearing prev_point point in
        let bearing2 := calculate_bearing point next_point in
        let angle_diff := fabs (bearing1 -. bearing2) in
        let angle_diff := if #180 <. angle_diff then #360 -. angle_diff
                          else angle_diff in
        #30 <. angle_diff
    | _, _ => false                       (* except Exception: return False *)
    end.

(** [next((i for i, p in enumerate(all_points) if p is point), -1)] *)
Definition index_of (point : trackpoint) (all_points : list trackpoint) : Z :=
  match list_find (λ p, id p = id point) all_points with
  | Some (i, _) => Z.of_nat i
  | None => -1
  end.

Definition should_keep_moving_point (point : trackpoint)
    (all_points simplified_points : list trackpoint) : bool :=
  match last simplified_points with
  | None => true
  | Some last_point =>
      let distance :=
        haversine_distance (lat point) (lon point) (lat last_point) (lon last_point) in
      if moving_threshold self <=. distance then true
      else
        let point_index := index_of point all_points in
        is_turning_point point all_points point_index 5
  end.

(** ** The pipeline *)

(** [for area in stay_areas: if point in area and id(area[0]) not in
    processed_areas: ... break]: the area the loop stops at, if any. *)
Fixpoint pick_area (stay_areas : list (list trackpoint)) (point : trackpoint)
    (processed_areas : gset nat) : option (list trackpoint) :=
  match stay_areas with
  | [] => None
  | area :: stay_areas =>
      match area with
      | a0 :: _ =>
          if py_in point area && bool_decide (id a0 ∉ processed_areas) then Some area
          else pick_area stay_areas point processed_areas
      | [] => pick_area stay_areas point processed_areas
      end
  end.

(** State of the loop [for point in points]: [simplified_points],
    [processed_areas], and the areas handed to [simplify_stay_area] so far
    (one per line the loop prints). *)
Record loop_state := LoopState {
  simplified_points : list trackpoint;
  processed_areas : gset nat;
  simplified_calls : list (list trackpoint)
}.

Definition process_point (all_points : list trackpoint) (stay_areas : list (list trackpoint))
    (stay_points_set : gset nat) (st : loop_state) (point : trackpoint) : result loop_state :=
  if bool_decide (id point ∈ stay_points_set) then
    match pick_area stay_areas point (processed_areas st) with
    | Some area =>
        simplified_area ← simplify_stay_area area;
        a0 ← item area 0;
        Ok {| simplified_points := simplified_points st ++ simplified_area;
              processed_areas := {[id a0]} ∪ processed_areas st;
              simplified_calls := simplified_calls st ++ [area] |}
    | None => Ok st
    end
  else if should_keep_moving_point point all_points (simplified_points st) then
    Ok {| simplified_points := simplified_points st ++ [point];
          processed_areas := processed_areas st;
          simplified_calls := simplified_calls st |}
  else Ok st.

Fixpoint process_points (all_points : list trackpoint) (stay_areas : list (list trackpoint))
    (stay_points_set : gset nat) (st : loop_state) (points : list trackpoint)
    : result loop_state :=
  match points with
  | [] => Ok st
  | point :: points =>
      st ← process_point all_points stay_areas stay_points_set st point;
      process_points all_points stay_areas stay_points_set st points
  end.

(** [stay_points_set]: the identities of all points of all stay areas. *)
Definition stay_ids (stay_areas : list (list trackpoint)) : gset nat :=
  list_to_set (id <$> mjoin stay_areas).

(** Everything [simplify_gpx_improved] computes once the track is parsed:
    the zone-filtered sequence, the stay areas, the final state of the main
    loop (before the closing sort) and the list that is written out. *)
Record run := Run {
  filtered : list trackpoint;
  areas : list (list trackpoint);
  segments : list (list trackpoint);
  final_state : loop_state;
  output : list trackpoint
}.

Definition simplify_run (points : list trackpoint) : result run :=
  processed_points ← bupt_pass points [] [];
  let points := processed_points in
  '(stay_areas, moving_segments) ← identify_stay_areas_improved points;
  let stay_points_set := stay_ids stay_areas in
  st ← process_points points stay_areas stay_points_set
         {| simplified_points := []; processed_areas := ∅; simplified_calls := [] |}
         points;
  simplified_points ←
    match simplified_points st with
    | p :: _ => if has_time p then sorted_by_time_or_min (simplified_points st)
                else Ok (simplified_points st)
    | [] => Ok (simplified_points st)
    end;
  Ok {| filtered := points; areas := stay_areas; segments := moving_segments;
        final_state := st; output := simplified_points |}.

(** The points [simplify_gpx_improved] writes.  On an empty track the source
    prints an error and returns before writing; the remaining steps would
    produce the empty list. *)
Definition simplify_gpx_improved (points : list trackpoint) : result (list trackpoint) :=
  if bool_decide (points = []) then Ok []
  else r ← simplify_run points; Ok (output r).

End Simplifier.

(** ** An implementation of the float interface for running examples

    Exact rational arithmetic, with the transcendental routines replaced by
    their values for small angles ([sin x = x], [cos x = 1], [asin x = x]), a
    square root that is exact on squares of rationals, and an [arctan2] that
    is exact on the axes.  For two points on one meridian the haversine
    formula reduces to [r * |dlat|] and the bearing to [0] (northwards) or
    [180] (southwards), which is what these routines compute there; for
    coincident points the distance is [0].  The sample tracks below keep
    every point on one meridian, and the comparisons made on them have wide
    margins (points are coincident, or at least 11 meters apart where the
    threshold is 10, or degrees apart), so they come out the same in double
    precision. *)

Definition Qpi : Q := 3.141592653589793.

Definition Qsqrt (q : Q) : Q :=
  let q := Qred q in
  (Z.sqrt (Qnum q) # Pos.sqrt (Qden q)).

Definition Qarctan2 (y x : Q) : Q :=
  if Qeq_bool y 0 then (if Qle_bool 0 x then 0 else Qpi)
  else if Qeq_bool x 0 then (if Qle_bool 0 y then Qpi / 2 else - (Qpi / 2))
  else if Qle_bool 0 x then (if Qle_bool 0 y then Qpi / 4 else - (Qpi / 4))
  else (if Qle_bool 0 y then 3 * Qpi / 4 else - (3 * Qpi / 4)).

Definition Qfloat : PyFloat := {|
  float := Q;
  flit q := q;
  fadd x y := Qred (x + y);
  fsub x y := Qred (x - y);
  fmul x y := Qred (x * y);
  fdiv x y := Qred (x / y);
  fpow x n := Qred (x ^ n);
  fabs x := Qabs x;
  feqb := Qeq_bool;
  fltb x y := negb (Qle_bool y x);
  fleb := Qle_bool;
  radians x := Qred (x * Qpi / 180);
  degrees x := Qred (x * 180 / Qpi);
  sin x := x;
  cos x := 1;
  asin x := x;
  sqrt := Qsqrt;
  arctan2 := Qarctan2;
  fsum l := Qred (foldl Qplus 0 l);
  float_inf := 1000000000000000000000000000000
|}%Q.

(** ** The specification's notions

    The definitions of this section follow the words of the specification;
    the theorems compare them with the functions above. *)

Section Specification.
Context {PF : PyFloat}.
Variable self : GPXSimplifier.

(** Stay validity: at least two points and, when both endpoints carry a
    timestamp, a duration of at least [min_stay_time] seconds; otherwise at
    least ten points. *)
Definition valid_stay (area : list trackpoint) : Prop :=
  2 ≤ len area ∧
  ∃ first last, head area = Some first ∧ list.last area = Some last ∧
    match time first, time last with
    | Some t0, Some t1 => min_stay_time self * 1000000 ≤ micros t1 - micros t0
    | _, _ => 10 ≤ len area
    end.

(** The timestamps of a sequence are of one kind: all offset-naive or all
    offset-aware. *)
Definition same_kind (points : list trackpoint) : Prop :=
  ∀ p q t0 t1, p ∈ points → q ∈ points →
    time p = Some t0 → time q = Some t1 → aware t0 = aware t1.

(** A track is uniformly stamped when none of its points carries a
    timestamp, or all of them do and the timestamps are of one kind. *)
Definition uniformly_stamped (points : list trackpoint) : Prop :=
  (∀ p, p ∈ points → has_time p = false)
  ∨ ((∀ p, p ∈ points → has_time p = true) ∧ same_kind points).

(** The difference of two bearings wrapped into [0, 180]. *)
Definition wrapped_difference (bearing1 bearing2 : float) : float :=
  let d := fabs (fsub bearing1 bearing2) in
  if fltb (flit 180) d then fsub (flit 360) d else d.

(** Turning point at position [p] of [seq], with window [w]. *)
Definition turning_point (seq : list trackpoint) (p w : Z) : Prop :=
  p < w ∨ len seq - w ≤ p ∨
  ∃ before here after,
    seq !! Z.to_nat (p - w) = Some before ∧
    seq !! Z.to_nat p = Some here ∧
    seq !! Z.to_nat (p + w) = Some after ∧
    fltb (flit 30) (wrapped_difference (calculate_bearing before here)
                                       (calculate_bearing here after)) = true.

(** The adjacent pair at positions [m], [m + 1] is closer than 10 meters. *)
Definition close_pair (points : list trackpoint) (m : Z) : Prop :=
  ∃ a b, points !! Z.to_nat m = Some a ∧ points !! Z.to_nat (m + 1) = Some b ∧
    fltb (haversine_distance (lat a) (lon a) (lat b) (lon b)) (flit 10) = true.

(** [p] is the first position from [start] on whose adjacent pair is closer
    than 10 meters. *)
Definition first_close_pair (points : list trackpoint) (start p : Z) : Prop :=
  0 ≤ start ≤ p ∧ close_pair points p ∧
  ∀ m, start ≤ m < p → ¬ close_pair points m.

(** The point at position [m] lies within / farther than [stay_radius] of
    the position [(center_lat, center_lon)]. *)
Definition within_radius (center_lat center_lon : float) (q : trackpoint) : bool :=
  fleb (haversine_distance (lat q) (lon q) center_lat center_lon) (stay_radius self).

(** The sequence [points] is covered, in order, by the stay areas [areas]
    and by points outside every area: each area is a non-empty run of
    consecutive points, and the areas neither overlap nor change order. *)
Inductive tiling : list trackpoint → list (list trackpoint) → Prop :=
  | tiling_nil : tiling [] []
  | tiling_gap p points areas :
      tiling points areas → tiling (p :: points) areas
  | tiling_area area points areas :
      area ≠ [] → tiling points areas → tiling (area ++ points) (area :: areas).

(** Two counts used to bound the output of the main loop: the points of a
    sequence that are outside the stay set, and the total size of the areas
    the loop can still hand to the stay simplifier. *)
Definition moving_count (stay_points_set : gset nat) (points : list trackpoint) : nat :=
  length (filter (λ p, id p ∉ stay_points_set) points).

Definition is_pending (processed : gset nat) (area : list trackpoint) : bool :=
  match area with
  | a0 :: _ => bool_decide (id a0 ∉ processed)
  | [] => false
  end.

Definition pending (processed : gset nat) (areas : list (list trackpoint)) : nat :=
  sum_list (length <$> filter (λ a, is_pending processed a = true) areas).

End Specification.

(** ** Further notions used by the properties of the whole code *)

Section Structure.
Context {PF : PyFloat}.

(** A list of points is chronological when the sort keys
    [p['time'] or datetime.min] never decrease along it. *)
Definition chronological (l : list trackpoint) : Prop :=
  StronglySorted (λ a b, time_or_min a ≤ time_or_min b) l.

(** The sequence [points] is covered, in order, by the stay areas, by the
    moving segments and by points that are in neither: every area and every
    segment is a non-empty run of consecutive points, and no two of these
    runs overlap. *)
Inductive cover :
    list trackpoint → list (list trackpoint) → list (list trackpoint) → Prop :=
  | cover_nil : cover [] [] []
  | cover_gap p points areas segments :
      cover points areas segments → cover (p :: points) areas segments
  | cover_area area points areas segments :
      area ≠ [] → cover points areas segments →
      cover (area ++ points) (area :: areas) segments
  | cover_segment segment points areas segments :
      segment ≠ [] → cover points areas segments →
      cover (segment ++ points) areas (segment :: segments).

(** [l ++ [x]] unless [x in l]: the step
    [if x not in simplified: simplified.append(x)]. *)
Definition append_new (x : trackpoint) (l : list trackpoint) : list trackpoint :=
  if negb (py_in x l) then l ++ [x] else l.

End Structure.

(** ** Sample tracks

    Points on the meridian 116.358 E; [pt la t e] has latitude [la], the
    offset-naive timestamp [t] (in microseconds) or none, and identity
    [e]. *)

Definition pt (la : Q) (t : option Z) (e : nat) : @trackpoint Qfloat :=
  @Point Qfloat la 116.358%Q (DateTime false <$> t) e.

(** [GPXSimplifier()] with the defaults of [__init__]. *)
Definition default_simplifier : @GPXSimplifier Qfloat :=
  @init Qfloat 100%Q 600 2 200%Q.

(** Two samples at the same place, without timestamps. *)
Definition track_pause : list (@trackpoint Qfloat) :=
  [pt 0%Q None 0; pt 0%Q None 1].

(** Three samples inside the override zone whose first sample is not the
    earliest one. *)
Definition track_zone : list (@trackpoint Qfloat) :=
  [pt 39.96%Q (Some 10000000) 0; pt 39.96%Q (Some 5000000) 1; pt 39.96%Q (Some 20000000) 2].

(** Two far-apart samples followed by two samples at the same place. *)
Definition track_trip : list (@trackpoint Qfloat) :=
  [pt 0%Q None 0; pt 1%Q None 1; pt 2%Q None 2; pt 2%Q None 3].

(** A sample one degree away, after which the track is back at the start. *)
Definition track_excursion : list (@trackpoint Qfloat) :=
  [pt 0%Q None 0; pt 1%Q None 1; pt 0%Q None 2; pt 0%Q None 3].

(** A pause of 700 seconds followed by two samples further north. *)
Definition track_stay : list (@trackpoint Qfloat) :=
  [pt 0%Q (Some 0) 0; pt 0%Q (Some 300000000) 1; pt 0%Q (Some 700000000) 2;
   pt 1%Q (Some 800000000) 3; pt 2%Q (Some 900000000) 4].

(** Eleven samples going north, one degree apart. *)
Definition track_line : list (@trackpoint Qfloat) :=
  [pt 0%Q None 0; pt 1%Q None 1; pt 2%Q None 2; pt 3%Q None 3; pt 4%Q None 4;
   pt 5%Q None 5; pt 6%Q None 6; pt 7%Q None 7; pt 8%Q None 8; pt 9%Q None 9;
   pt 10%Q None 10].

(** A track that enters the override zone twice, the two visits separated
    by one sample just south of the zone; the first sample and one sample
    inside the zone have no timestamp. *)
Definition track_partial : list (@trackpoint Qfloat) :=
  [pt 39.9560%Q None 0; pt 39.9565%Q (Some 1000000) 1; pt 39.9570%Q (Some 2000000) 2;
   pt 39.9583%Q (Some 3000000) 3; pt 39.9584%Q None 4; pt 39.9582%Q (Some 5000000) 5;
   pt 39.9585%Q (Some 6000000) 6; pt 39.9586%Q (Some 7000000) 7;
   pt 39.9660%Q (Some 8000000) 8; pt 39.9670%Q (Some 9000000) 9;
   pt 39.9680%Q (Some 10000000) 10].

(** [pta la t e]: as [pt], with an offset-aware timestamp. *)
Definition pta (la : Q) (t : Z) (e : nat) : @trackpoint Qfloat :=
  @Point Qfloat la 116.358%Q (Some (DateTime true t)) e.

(** [GPXSimplifier(min_stay_time=20000000000)], about 634 years. *)
Definition patient_simplifier : @GPXSimplifier Qfloat :=
  @init Qfloat 100%Q 20000000000 2 200%Q.

(** Two samples at the same place, one microsecond less than
    20000000000 seconds apart. *)
Definition track_long_pause : list (@trackpoint Qfloat) :=
  [pt 0%Q (Some 0) 0; pt 0%Q (Some 19999999999999999) 1].

(** Two samples at the same place 700 seconds apart, the first stamped
    without a UTC offset and the second with one. *)
Definition track_mixed : list (@trackpoint Qfloat) :=
  [pt 0%Q (Some 0) 0; pta 0%Q 700000000 1].

(** Ten samples at the same place followed by two samples further north,
    all without timestamps. *)
Definition track_camp : list (@trackpoint Qfloat) :=
  [pt 0%Q None 0; pt 0%Q None 1; pt 0%Q None 2; pt 0%Q None 3; pt 0%Q None 4;
   pt 0%Q None 5; pt 0%Q None 6; pt 0%Q None 7; pt 0%Q None 8; pt 0%Q None 9;
   pt 1%Q None 10; pt 2%Q None 11].

(** Three samples inside the override zone; the middle one has no
    timestamp. *)
Definition track_zone_gap : list (@trackpoint Qfloat) :=
  [pt 39.96%Q (Some 10000000) 0; pt 39.96%Q None 1; pt 39.96%Q (Some 20000000) 2].

(** [GPXSimplifier(max_stay_points=3)]. *)
Definition three_point_simplifier : @GPXSimplifier Qfloat :=
  @init Qfloat 100%Q 600 3 200%Q.

(** A visit of the override zone: one sample south of it, four samples
    inside, one sample north of it. *)
Definition track_visit : list (@trackpoint Qfloat) :=
  [pt 39.95%Q (Some 0) 0; pt 39.96%Q (Some 1000000) 1; pt 39.961%Q (Some 2000000) 2;
   pt 39.962%Q (Some 3000000) 3; pt 39.963%Q (Some 4000000) 4;
   pt 39.97%Q (Some 5000000) 5].

(** * Properties *)

Lemma bind_Ok {A B} (a : A) (k : A → result B) : Ok a ≫= k = k a.
Proof. reflexivity. Qed.

Lemma bind_Ok_inv {A B} (r : result A) (k : A → result B) b :
  r ≫= k = Ok b → ∃ a, r = Ok a ∧ k a = Ok b.
Proof. destruct r; [eauto|done|done]. Qed.

(** ** Durations in seconds *)






Section Sequences.
Context {A : Type}.
Implicit Types (l : list A) (i a b : Z).

Lemma len_nonneg l : 0 ≤ len l.
Proof. unfold len. lia. Qed.

Lemma len_app l1 l2 : len (l1 ++ l2) = len l1 + len l2.
Proof. unfold len. rewrite length_app. lia. Qed.

Lemma item_nonneg l i :
  0 ≤ i → item l i = match l !! Z.to_nat i with Some x => Ok x | None => Raise IndexError end.
Proof.
  intros Hi. unfold item.
  destruct (Z.ltb_spec i 0) as [?|_]; [lia|].
  destruct (Z.ltb_spec i 0) as [?|_]; [lia|]. done.
Qed.

Lemma item_Ok_lookup l i x :
  0 ≤ i → item l i = Ok x ↔ l !! Z.to_nat i = Some x.
Proof.
  intros Hi. rewrite item_nonneg by done.
  destruct (l !! Z.to_nat i); split; intros; simplify_eq; done.
Qed.

Lemma item_in_range l i :
  0 ≤ i < len l → ∃ x, item l i = Ok x ∧ l !! Z.to_nat i = Some x.
Proof.
  intros [Hi Hlt]. rewrite item_nonneg by done.
  destruct (lookup_lt_is_Some_2 l (Z.to_nat i)) as [x Hx]; [unfold len in Hlt; lia|].
  rewrite Hx. eauto.
Qed.

Lemma item_head l : item l 0 = match head l with Some x => Ok x | None => Raise IndexError end.
Proof. rewrite item_nonneg by done. by destruct l. Qed.

Lemma item_last l : item l (-1) = match last l with Some x => Ok x | None => Raise IndexError end.
Proof.
  unfold item. simpl.
  destruct (Z.ltb_spec (len l + -1) 0) as [Hlt|Hge].
  - destruct l; [done|]. unfold len in Hlt. simpl in Hlt. lia.
  - rewrite last_lookup.
    replace (Z.to_nat (len l + -1)) with (pred (length l)) by (unfold len; lia).
    done.
Qed.

Lemma slice_length l a b :
  0 ≤ a ≤ b → b ≤ len l → length (slice l a b) = Z.to_nat (b - a).
Proof.
  intros ? ?. unfold slice, len in *. rewrite length_take, length_drop. lia.
Qed.

Lemma slice_snoc l a b x :
  0 ≤ a ≤ b → l !! Z.to_nat b = Some x → slice l a b ++ [x] = slice l a (b + 1).
Proof.
  intros Hab Hx. unfold slice.
  replace (Z.to_nat (b + 1) - Z.to_nat a)%nat with (S (Z.to_nat b - Z.to_nat a)) by lia.
  symmetry. apply take_S_r. rewrite lookup_drop. rewrite <- Hx. f_equal. lia.
Qed.

Lemma slice_empty l a : slice l a a = [].
Proof. unfold slice. by rewrite Nat.sub_diag. Qed.

Lemma slice_singleton l a x :
  0 ≤ a → l !! Z.to_nat a = Some x → slice l a (a + 1) = [x].
Proof.
  intros Ha Hx. rewrite <- (slice_snoc l a a x) by (done || lia).
  by rewrite slice_empty.
Qed.

Lemma slice_app l a b c :
  0 ≤ a ≤ b → b ≤ c → slice l a b ++ slice l b c = slice l a c.
Proof.
  intros Hab Hbc. unfold slice.
  replace (Z.to_nat c - Z.to_nat a)%nat
    with ((Z.to_nat b - Z.to_nat a) + (Z.to_nat c - Z.to_nat b))%nat by lia.
  rewrite <- take_take_drop. f_equal. f_equal. rewrite drop_drop. f_equal. lia.
Qed.

Lemma drop_slice l a b :
  0 ≤ a ≤ b → b ≤ len l → drop (Z.to_nat a) l = slice l a b ++ drop (Z.to_nat b) l.
Proof.
  intros Hab Hb. unfold slice.
  rewrite <- (take_drop (Z.to_nat b - Z.to_nat a) (drop (Z.to_nat a) l)) at 1.
  f_equal. rewrite drop_drop. f_equal. lia.
Qed.

End Sequences.

Lemma slice_sublist {A} (l : list A) a b : slice l a b `sublist_of` l.
Proof. unfold slice. etrans; [apply sublist_take|apply sublist_drop]. Qed.

Lemma slice_elem {A} (l : list A) a b x : x ∈ slice l a b → x ∈ l.
Proof. intros H. eapply elem_of_submseteq; [done|apply sublist_submseteq, slice_sublist]. Qed.

Section Properties.
Context {PF : PyFloat}.
Variable self : GPXSimplifier.
Implicit Types (points area l final cluster cand : list trackpoint).
Implicit Types (stay_areas areas past todo : list (list trackpoint)).

(** ** Geometry *)

(** The guard of [calculate_bearing]: two points whose latitudes and
    longitudes compare equal have bearing [0.0], whatever the trigonometric
    routines do. *)
Lemma calculate_bearing_coincident (point1 point2 : trackpoint) :
  feqb (lat point1) (lat point2) = true → feqb (lon point1) (lon point2) = true →
  calculate_bearing point1 point2 = flit 0.0.
Proof. intros Hlat Hlon. unfold calculate_bearing. by rewrite Hlat, Hlon. Qed.

(** ** Stay validity *)

Lemma is_stay_area_cases area :
  (len area < 2 ∧ is_stay_area self area = Ok false) ∨
  (2 ≤ len area ∧ ∃ first last,
     head area = Some first ∧ list.last area = Some last ∧
     is_stay_area self area =
       match time first, time last with
       | Some t0, Some t1 =>
           datetime_sub t1 t0 ≫= λ delta,
             Ok (float_ge_int (total_seconds delta) (min_stay_time self))
       | _, _ => Ok (10 <=? len area)
       end).
Proof.
  unfold is_stay_area. destruct (Z.ltb_spec (len area) 2) as [Hlt|Hge]; [by left|].
  right. split; [done|]. rewrite item_head, item_last.
  destruct area as [|first rest]; [unfold len in Hge; simpl in Hge; lia|].
  destruct (last_is_Some (first :: rest)) as [_ [lst Hlst]]; [done|].
  exists first, lst. rewrite Hlst. done.
Qed.

(** Subtracting an offset-naive from an offset-aware timestamp, or the
    other way round, raises [TypeError]. *)
Lemma is_stay_area_type_error area first last t0 t1 :
  2 ≤ len area → head area = Some first → list.last area = Some last →
  time first = Some t0 → time last = Some t1 → aware t0 ≠ aware t1 →
  is_stay_area self area = Raise TypeError.
Proof.
  intros Hlen Hf Hl Ht0 Ht1 Hkind.
  destruct (is_stay_area_cases area) as [[? _]|(_ & f & l & Hf' & Hl' & ->)]; [lia|].
  simplify_eq. rewrite Ht0, Ht1. unfold datetime_sub.
  rewrite bool_decide_eq_false_2; [done|]. congruence.
Qed.

Lemma is_stay_area_outcome area :
  (∃ valid, is_stay_area self area = Ok valid)
  ∨ (is_stay_area self area = Raise TypeError ∧ ¬ same_kind area).
Proof.
  destruct (is_stay_area_cases area) as [[_ ->]|(Hge & first & last & Hf & Hl & ->)];
    [by eauto|].
  destruct (time first) as [t0|] eqn:Ht0, (time last) as [t1|] eqn:Ht1; [|by eauto..].
  unfold datetime_sub. case_bool_decide as Hkind; [by eauto|].
  right. split; [done|]. intros Hsame. apply Hkind. symmetry.
  apply (Hsame first last t0 t1); [|by apply last_Some_elem_of|done..].
  by apply head_Some_elem_of.
Qed.


Lemma same_kind_subseteq l points :
  (∀ p, p ∈ l → p ∈ points) → same_kind points → same_kind l.
Proof. intros Hsub Hsame p q t0 t1 Hp Hq. apply Hsame; by apply Hsub. Qed.


(** ** Stay simplification *)

(** C6.  With [max_stay_points = 2], an area of at least two points is
    reduced to its first and its last point, in that order. *)
Theorem simplify_stay_area_two area :
  max_stay_points self = 2 → (2 ≤ length area)%nat →
  ∃ first last, head area = Some first ∧ list.last area = Some last ∧
    simplify_stay_area self area = Ok [first; last].
Proof.
  intros Hmax Hlen.
  destruct area as [|first rest]; [simpl in Hlen; lia|].
  destruct (last_is_Some (first :: rest)) as [_ Hl].
  destruct Hl as [lst Hlst]; [done|].
  exists first, lst. split; [done|]. split; [done|].
  unfold simplify_stay_area. rewrite Hmax.
  destruct (Z.leb_spec (len (first :: rest)) 2) as [Hle|Hgt].
  - (* exactly two points: the area is returned unchanged *)
    destruct rest as [|second [|third rest]]; unfold len in Hle; simpl in *; try lia.
    by simplify_eq.
  - rewrite item_head, item_last, Hlst. done.
Qed.

(** ** Turning points *)

(** C7.  A point at position [p] of the sequence is a turning point exactly
    when [p] is within the window [w = 5] of either end, or the wrapped
    difference of the bearings to the points five positions before and
    after it exceeds 30 degrees. *)
Theorem is_turning_point_spec points point p :
  0 ≤ p → points !! Z.to_nat p = Some point →
  is_turning_point point points p 5 = true ↔ turning_point points p 5.
Proof.
  intros Hp Hpoint.
  assert (p < len points) as Hlt.
  { apply lookup_lt_Some in Hpoint. unfold len. lia. }
  unfold is_turning_point, turning_point.
  destruct (Z.ltb_spec p 0) as [?|_]; [lia|].
  destruct (Z.leb_spec (len points) p) as [?|_]; [lia|]. simpl.
  destruct (Z.ltb_spec p 5) as [?|Hge]; simpl; [split; auto|].
  destruct (Z.leb_spec (len points - 5) p) as [?|Hin]; [split; auto|].
  destruct (item_in_range points (p - 5)) as (before & Hb & Hb'); [lia|].
  destruct (item_in_range points (p + 5)) as (after & Ha & Ha'); [lia|].
  rewrite Hb, Ha. unfold wrapped_difference. split.
  - intros H. right. right. exists before, point, after. done.
  - intros [?|[?|(b & h & a & Hb2 & Hh & Ha2 & H)]]; [lia|lia|].
    by simplify_eq.
Qed.

(** ** The segmenter: excursions *)

Lemma lookahead_spec fuel points center_lat center_lon j k :
  0 ≤ j ≤ k → k ≤ len points → k - j ≤ 10 → 10 - (k - j) < Z.of_nat fuel →
  (∃ k' returning,
      lookahead self fuel points center_lat center_lon (slice points j k) k
        = Ok (Some (slice points j k', returning, k')) ∧
      k ≤ k' < j + 10 ∧ points !! Z.to_nat k' = Some returning ∧
      within_radius self center_lat center_lon returning = true ∧
      ∀ m q, k ≤ m < k' → points !! Z.to_nat m = Some q →
             within_radius self center_lat center_lon q = false)
  ∨ (lookahead self fuel points center_lat center_lon (slice points j k) k = Ok None ∧
     ∀ m q, k ≤ m < j + 10 → points !! Z.to_nat m = Some q →
            within_radius self center_lat center_lon q = false).
Proof.
  revert k. induction fuel as [|fuel IH]; intros k Hjk Hk Hten Hfuel; [lia|].
  cbn [lookahead].
  assert (len (slice points j k) = k - j) as ->.
  { unfold len. rewrite slice_length by done. lia. }
  destruct (Z.ltb_spec k (len points)) as [Hlt|Hge]; simpl.
  2:{ right. split; [done|]. intros m q Hm Hq.
      apply lookup_lt_Some in Hq. unfold len in Hge. lia. }
  destruct (Z.ltb_spec (k - j) 10) as [Hroom|Hfull]; simpl.
  2:{ right. split; [done|]. intros m q Hm Hq. lia. }
  destruct (item_in_range points k) as (tp & Hitem & Htp); [lia|].
  rewrite Hitem, bind_Ok. cbv zeta.
  fold (within_radius self center_lat center_lon tp).
  destruct (within_radius self center_lat center_lon tp) eqn:Hw.
  - left. exists k, tp. repeat split; try done; lia.
  - rewrite (slice_snoc points j k tp) by (done || lia).
    destruct (IH (k + 1)) as [(k' & r & Hrun & Hk' & Hr & Hwr & Hfar)|[Hrun Hfar]];
      try lia.
    + left. exists k', r. repeat split; try done; try lia.
      intros m q Hm Hq. destruct (decide (m = k)) as [->|Hne].
      * by simplify_eq.
      * apply (Hfar m q); [lia|done].
    + right. split; [done|]. intros m q Hm Hq.
      destruct (decide (m = k)) as [->|Hne].
      * by simplify_eq.
      * apply (Hfar m q); [lia|done].
Qed.

Lemma scan_body_cases points cand j next_point :
  0 ≤ j → points !! Z.to_nat j = Some next_point →
  (within_radius self (mean lat cand) (mean lon cand) next_point = true ∧
   scan_body self points cand j = Ok (Some (cand ++ [next_point], j + 1)))
  ∨ (within_radius self (mean lat cand) (mean lon cand) next_point = false ∧
     ∃ k returning,
       j < k < j + 10 ∧ points !! Z.to_nat k = Some returning ∧
       within_radius self (mean lat cand) (mean lon cand) returning = true ∧
       (∀ m q, j ≤ m < k → points !! Z.to_nat m = Some q →
               within_radius self (mean lat cand) (mean lon cand) q = false) ∧
       scan_body self points cand j
         = Ok (Some (cand ++ slice points j k ++ [returning], k + 1)))
  ∨ (within_radius self (mean lat cand) (mean lon cand) next_point = false ∧
     (∀ m q, j ≤ m < j + 10 → points !! Z.to_nat m = Some q →
             within_radius self (mean lat cand) (mean lon cand) q = false) ∧
     scan_body self points cand j = Ok None).
Proof.
  intros Hj Hnext.
  assert (j < len points) as Hlt.
  { apply lookup_lt_Some in Hnext. unfold len. lia. }
  unfold scan_body. rewrite (proj2 (item_Ok_lookup points j next_point Hj) Hnext).
  rewrite bind_Ok. cbv zeta.
  fold (within_radius self (mean lat cand) (mean lon cand) next_point).
  destruct (within_radius self (mean lat cand) (mean lon cand) next_point) eqn:Hw.
  { left. done. }
  right.
  destruct (lookahead_spec 11 points (mean lat cand) (mean lon cand) j j)
    as [(k & r & Hrun & Hk & Hr & Hwr & Hfar)|[Hrun Hfar]]; try lia.
  - rewrite slice_empty in Hrun. rewrite Hrun, bind_Ok.
    left. split; [done|]. exists k, r.
    assert (k ≠ j) by (intros ->; simplify_eq; congruence).
    repeat split; try done; lia.
  - rewrite slice_empty in Hrun. rewrite Hrun, bind_Ok.
    right. done.
Qed.

(** C4.  When the next point lies farther than [stay_radius] from the
    candidate's current mean, the loop looks at the points from that one on,
    at most ten of them, each against that same mean.  If one of them is
    within the radius, the run before it and the returning point are
    appended to the candidate and the loop goes on with the index after the
    returning point; if none is, the loop ends with the candidate as it
    was. *)
Theorem excursion_lookahead fuel points cand j next_point :
  0 ≤ j → points !! Z.to_nat j = Some next_point →
  within_radius self (mean lat cand) (mean lon cand) next_point = false →
  (∃ k returning,
      j < k < j + 10 ∧ points !! Z.to_nat k = Some returning ∧
      within_radius self (mean lat cand) (mean lon cand) returning = true ∧
      (∀ m q, j ≤ m < k → points !! Z.to_nat m = Some q →
              within_radius self (mean lat cand) (mean lon cand) q = false) ∧
      scan self (S fuel) points cand j
        = scan self fuel points (cand ++ slice points j k ++ [returning]) (k + 1))
  ∨ ((∀ m q, j ≤ m < j + 10 → points !! Z.to_nat m = Some q →
             within_radius self (mean lat cand) (mean lon cand) q = false) ∧
     scan self (S fuel) points cand j = Ok (cand, j)).
Proof.
  intros Hj Hnext Hfar.
  assert (j < len points) as Hlt.
  { apply lookup_lt_Some in Hnext. unfold len. lia. }
  cbn [scan]. destruct (Z.ltb_spec j (len points)) as [_|?]; [|lia].
  destruct (scan_body_cases points cand j next_point Hj Hnext)
    as [[Hw _]|[(_ & k & r & Hk & Hr & Hwr & Hrun & Hbody)|(_ & Hall & Hbody)]].
  - congruence.
  - left. exists k, r. rewrite Hbody. done.
  - right. rewrite Hbody. done.
Qed.

Lemma scan_spec fuel points i j :
  0 ≤ i ≤ j → j ≤ len points → len points - j < Z.of_nat fuel →
  ∃ j', scan self fuel points (slice points i j) j = Ok (slice points i j', j') ∧
        j ≤ j' ≤ len points.
Proof.
  revert j. induction fuel as [|fuel IH]; intros j Hij Hj Hfuel; [lia|].
  cbn [scan]. destruct (Z.ltb_spec j (len points)) as [Hlt|Hge].
  2:{ exists j. split; [done|lia]. }
  destruct (item_in_range points j) as (np & _ & Hnp); [lia|].
  destruct (scan_body_cases points (slice points i j) j np)
    as [[_ Hbody]|[(_ & k & r & Hk & Hr & _ & _ & Hbody)|(_ & _ & Hbody)]];
    try done; try lia; rewrite Hbody, bind_Ok.
  - rewrite (slice_snoc points i j np) by (done || lia).
    destruct (IH (j + 1)) as (j' & Hrun & Hj'); try lia.
    exists j'. split; [done|lia].
  - assert (k < len points) by (apply lookup_lt_Some in Hr; unfold len; lia).
    rewrite (slice_snoc points j k r) by (done || lia).
    rewrite (slice_app points i j (k + 1)) by lia.
    destruct (IH (k + 1)) as (j' & Hrun & Hj'); try lia.
    exists j'. split; [done|lia].
  - exists j. split; [done|lia].
Qed.

(** ** The segmenter: invalid candidates *)

Lemma close_pair_test points m a b :
  0 ≤ m → points !! Z.to_nat m = Some a → points !! Z.to_nat (m + 1) = Some b →
  close_pair points m ↔
  fltb (haversine_distance (lat a) (lon a) (lat b) (lon b)) (flit 10) = true.
Proof.
  intros Hm Ha Hb. split.
  - intros (a' & b' & Ha' & Hb' & H). by simplify_eq.
  - intros H. exists a, b. done.
Qed.

Lemma close_pair_in_range points m : 0 ≤ m → close_pair points m → m < len points - 1.
Proof.
  intros Hm (a & b & _ & Hb & _). apply lookup_lt_Some in Hb. unfold len. lia.
Qed.

Lemma walk_first fuel points start p :
  first_close_pair points start p → p - start < Z.of_nat fuel →
  walk fuel points start = Ok p.
Proof.
  revert start. induction fuel as [|fuel IH]; intros start (Hsp & Hclose & Hfirst) Hfuel;
    [lia|].
  pose proof (close_pair_in_range points p ltac:(lia) Hclose) as Hp.
  cbn [walk]. destruct (Z.ltb_spec start (len points - 1)) as [_|?]; [|lia].
  destruct (item_in_range points start) as (a & Hia & Ha); [lia|].
  destruct (item_in_range points (start + 1)) as (b & Hib & Hb); [lia|].
  rewrite Hia, bind_Ok, Hib, bind_Ok. cbv zeta. unfold inject_Z.
  destruct (fltb _ _) eqn:Htest.
  - destruct (decide (start = p)) as [->|Hne]; [done|].
    destruct (Hfirst start); [lia|]. by apply (close_pair_test points start a b); [lia|..].
  - destruct (decide (start = p)) as [->|Hne].
    { apply (close_pair_test points p a b) in Hclose; [congruence|lia|done..]. }
    apply IH; [|lia]. split; [lia|]. split; [done|].
    intros m Hm. apply Hfirst. lia.
Qed.

Lemma walk_spec fuel points i :
  0 ≤ i < len points → len points - i ≤ Z.of_nat fuel →
  ∃ i', walk fuel points i = Ok i' ∧ i ≤ i' ≤ len points - 1.
Proof.
  revert i. induction fuel as [|fuel IH]; intros i Hi Hfuel; [lia|].
  cbn [walk]. destruct (Z.ltb_spec i (len points - 1)) as [Hlt|Hge].
  2:{ exists i. split; [done|lia]. }
  destruct (item_in_range points i) as (a & Hia & Ha); [lia|].
  destruct (item_in_range points (i + 1)) as (b & Hib & Hb); [lia|].
  rewrite Hia, bind_Ok, Hib, bind_Ok. cbv zeta.
  destruct (fltb _ _).
  - exists i. split; [done|lia].
  - destruct (IH (i + 1)) as (i' & Hw & Hi'); try lia.
    exists i'. split; [done|lia].
Qed.

Lemma close_invalid_spec points i :
  0 ≤ i < len points →
  ∃ emitted next, close_invalid points i = Ok (emitted, next) ∧
    i < next ≤ len points ∧
    ∀ s, emitted = Some s → (2 ≤ length s)%nat.
Proof.
  intros Hi. unfold close_invalid.
  destruct (walk_spec (S (length points)) points i) as (i' & Hw & Hi');
    [done|unfold len; lia|].
  rewrite Hw, bind_Ok. eexists _, _. split; [done|]. split; [lia|].
  intros s. destruct (Z.ltb_spec i i') as [Hlt|?]; [|done].
  intros [= <-]. rewrite slice_length; lia.
Qed.

Lemma close_invalid_first_pair points start p :
  first_close_pair points start p →
  close_invalid points start
    = Ok (if start <? p then Some (slice points start (p + 1)) else None, p + 1).
Proof.
  intros Hfirst. unfold close_invalid.
  pose proof Hfirst as (Hsp & Hclose & _).
  pose proof (close_pair_in_range points p ltac:(lia) Hclose) as Hp.
  rewrite (walk_first _ points start p Hfirst) by (unfold len in Hp; lia).
  by rewrite bind_Ok.
Qed.

(** C2 (amended).  For an invalid candidate that starts at [start], let [p]
    be the first position from [start] on whose adjacent pair is closer than
    10 meters.  If [p] lies after [start], the points from [start] up to and
    including position [p] are emitted as one moving segment; if [p] is
    [start] itself, nothing is emitted.  In both cases the outer loop
    resumes at position [p + 1]. *)
Theorem invalid_candidate_walk points start p :
  first_close_pair points start p →
  close_invalid points start
    = Ok (if start <? p then Some (slice points start (p + 1)) else None, p + 1).
Proof. apply close_invalid_first_pair. Qed.

Lemma tiling_gaps gap points areas :
  tiling points areas → tiling (gap ++ points) areas.
Proof. intros H. induction gap as [|g gap IH]; [done|]. by apply tiling_gap. Qed.

Lemma segment_spec fuel points i stay_areas moving_segments :
  0 ≤ i ≤ len points → len points - i < Z.of_nat fuel →
  (∃ new_areas new_segments,
     segment self fuel points i stay_areas moving_segments
       = Ok (stay_areas ++ new_areas, moving_segments ++ new_segments) ∧
     tiling (drop (Z.to_nat i) points) new_areas ∧
     Forall (λ a, is_stay_area self a = Ok true) new_areas ∧
     Forall (λ s, (2 ≤ length s)%nat) new_segments)
  ∨ (segment self fuel points i stay_areas moving_segments = Raise TypeError
     ∧ ¬ same_kind points).
Proof.
  revert i stay_areas moving_segments.
  induction fuel as [|fuel IH]; intros i stay_areas moving_segments Hi Hfuel; [lia|].
  cbn [segment]. destruct (Z.ltb_spec i (len points)) as [Hlt|Hge].
  2:{ left. exists [], []. rewrite !app_nil_r. split; [done|].
      rewrite drop_ge by (unfold len in Hge; lia).
      repeat split; constructor. }
  destruct (item_in_range points i) as (current & Hitem & Hcur); [lia|].
  rewrite Hitem, bind_Ok.
  rewrite <- (slice_singleton points i current) by (done || lia).
  destruct (scan_spec (S (length points)) points i (i + 1)) as (j & Hscan & Hj);
    [lia|lia|unfold len; lia|].
  rewrite Hscan, bind_Ok. cbv beta iota.
  destruct (is_stay_area_outcome (slice points i j)) as [[valid Hvalid]|[Hvalid Hkind]].
  2:{ right. rewrite Hvalid. split; [done|]. intros Hsame. apply Hkind.
      eapply same_kind_subseteq; [|done]. intros p. apply slice_elem. }
  rewrite Hvalid, bind_Ok. destruct valid.
  - destruct (IH j (stay_areas ++ [slice points i j]) moving_segments)
      as [(As & Ms & Hrun & Htil & Hval & Hseg)|[Hrun Hkind]]; [lia|lia| |by right; rewrite Hrun].
    left. exists (slice points i j :: As), Ms. rewrite Hrun, <- app_assoc.
    split; [done|]. split; [|split; [by constructor|done]].
    rewrite (drop_slice points i j) by lia. apply tiling_area; [|done].
    intros Hnil. apply (f_equal length) in Hnil. rewrite slice_length in Hnil by lia.
    simpl in Hnil. lia.
  - destruct (close_invalid_spec points i) as (emitted & next & Hclose & Hnext & Hem);
      [lia|].
    rewrite Hclose, bind_Ok. cbv beta iota.
    destruct (IH next stay_areas
                (match emitted with Some s => moving_segments ++ [s]
                                  | None => moving_segments end))
      as [(As & Ms & Hrun & Htil & Hval & Hseg)|[Hrun Hkind]]; [lia|lia| |by right; rewrite Hrun].
    rewrite Hrun. left.
    exists As, (match emitted with Some s => s :: Ms | None => Ms end).
    split; [|split; [|split; [done|]]].
    + destruct emitted; [by rewrite <- app_assoc|done].
    + rewrite (drop_slice points i next) by lia. by apply tiling_gaps.
    + destruct emitted; [constructor; auto|done].
Qed.

Lemma identify_stay_areas_improved_spec points :
  (∃ stay_areas moving_segments,
     identify_stay_areas_improved self points = Ok (stay_areas, moving_segments) ∧
     tiling points stay_areas ∧
     Forall (λ a, is_stay_area self a = Ok true) stay_areas ∧
     Forall (λ s, (2 ≤ length s)%nat) moving_segments)
  ∨ (identify_stay_areas_improved self points = Raise TypeError ∧ ¬ same_kind points).
Proof.
  unfold identify_stay_areas_improved. destruct points as [|p points].
  { left. exists [], []. repeat split; constructor. }
  destruct (segment_spec (S (length (p :: points))) (p :: points) 0 [] [])
    as [(As & Ms & Hrun & Htil & Hval & Hseg)|Herr]; [unfold len; lia..| |by right].
  left. exists As, Ms. done.
Qed.

Lemma identify_stay_areas_improved_Ok points stay_areas moving_segments :
  identify_stay_areas_improved self points = Ok (stay_areas, moving_segments) →
  tiling points stay_areas ∧
  Forall (λ a, is_stay_area self a = Ok true) stay_areas ∧
  Forall (λ s, (2 ≤ length s)%nat) moving_segments.
Proof.
  intros Hrun.
  destruct (identify_stay_areas_improved_spec points)
    as [(As & Ms & H & Hspec)|[H _]]; rewrite H in Hrun; [|done].
  by injection Hrun as <- <-.
Qed.

Lemma identify_stay_areas_improved_returns points :
  same_kind points →
  ∃ stay_areas moving_segments,
    identify_stay_areas_improved self points = Ok (stay_areas, moving_segments).
Proof.
  intros Hkind.
  destruct (identify_stay_areas_improved_spec points)
    as [(As & Ms & H & _)|[_ H]]; [by eauto|done].
Qed.

(** C10.  Every moving segment the segmenter emits has at least two
    points, and the segmenter returns on every track whose timestamps are
    of one kind; when the pair at the start of an invalid candidate is
    already closer than 10 meters, nothing is emitted for that start and
    the loop resumes one position further. *)
Theorem moving_segments_two_points points :
  (∀ stay_areas moving_segments,
     identify_stay_areas_improved self points = Ok (stay_areas, moving_segments) →
     Forall (λ s, (2 ≤ length s)%nat) moving_segments) ∧
  (same_kind points →
   ∃ stay_areas moving_segments,
     identify_stay_areas_improved self points = Ok (stay_areas, moving_segments)) ∧
  (∀ start, 0 ≤ start → close_pair points start →
     close_invalid points start = Ok (None, start + 1)).
Proof.
  split; [|split].
  - intros stay_areas moving_segments Hrun.
    by apply identify_stay_areas_improved_Ok in Hrun as (_ & _ & Hseg).
  - apply identify_stay_areas_improved_returns.
  - intros start Hstart Hclose.
    rewrite (close_invalid_first_pair points start start).
    + by rewrite Z.ltb_irrefl.
    + split; [lia|]. split; [done|]. intros m Hm. lia.
Qed.

(** ** Identities, membership and sorting *)

Lemma point_eqb_id (a b : trackpoint) : point_eqb a b = true → id a = id b.
Proof.
  unfold point_eqb. rewrite !andb_true_iff. intros [_ H].
  by apply bool_decide_eq_true in H.
Qed.

Lemma py_in_iff (p : trackpoint) l : py_in p l = true ↔ id p ∈ id <$> l.
Proof.
  unfold py_in. induction l as [|q l IH]; simpl.
  - rewrite elem_of_nil. split; [done|tauto].
  - rewrite orb_true_iff, IH, elem_of_cons, orb_true_iff, bool_decide_eq_true.
    split.
    + intros [[H|H]|H]; [left; done|left; symmetry; by apply point_eqb_id|by right].
    + intros [H|H]; [left; left; done|by right].
Qed.

Lemma py_in_false (p : trackpoint) l : py_in p l = false ↔ id p ∉ id <$> l.
Proof. rewrite <- py_in_iff. by destruct (py_in p l). Qed.

Lemma elem_of_ids (p : trackpoint) l : p ∈ l → id p ∈ id <$> l.
Proof. intros H. apply list_elem_of_fmap. eauto. Qed.

Lemma insert_by_perm key x l : insert_by key x l ≡ₚ x :: l.
Proof.
  induction l as [|y l IH]; simpl; [done|].
  destruct (key x <=? key y); [done|]. rewrite IH. apply Permutation_swap.
Qed.

Lemma sort_by_perm key l : sort_by key l ≡ₚ l.
Proof.
  unfold sort_by. induction l as [|x l IH]; simpl; [done|].
  rewrite insert_by_perm. by constructor.
Qed.

Lemma dedup_ids_fold l final (seen : gset nat) :
  (∀ x, x ∈ seen ↔ x ∈ id <$> final) → NoDup (id <$> final) →
  let r := foldl (λ '(final_simplified, seen_ids) p,
                    if bool_decide (id p ∈ seen_ids) then (final_simplified, seen_ids)
                    else (final_simplified ++ [p], {[id p]} ∪ seen_ids))
                 (final, seen) l in
  NoDup (id <$> r.1) ∧ (∀ x, x ∈ r.2 ↔ x ∈ id <$> r.1) ∧
  (∀ p, p ∈ r.1 → p ∈ final ∨ p ∈ l) ∧
  (∀ x, x ∈ id <$> final ++ l → x ∈ r.2).
Proof.
  revert final seen. induction l as [|p l IH]; intros final seen Hseen Hnd; simpl.
  - repeat split; try done; try apply Hseen. { by left. }
    intros x. rewrite app_nil_r. apply Hseen.
  - case_bool_decide as Hin.
    + destruct (IH final seen Hseen Hnd) as (H1 & H2 & H3 & H4).
      repeat split; try done; try apply H2.
      * intros q Hq. destruct (H3 q Hq); [by left|right; by right].
      * intros x. rewrite fmap_app, fmap_cons, elem_of_app, elem_of_cons.
        intros [Hx|[->|Hx]]; apply H4; rewrite fmap_app, elem_of_app; auto.
        left. by apply Hseen.
    + destruct (IH (final ++ [p]) ({[id p]} ∪ seen)) as (H1 & H2 & H3 & H4).
      * intros x. rewrite fmap_app, elem_of_app, elem_of_union, Hseen. simpl.
        rewrite list_elem_of_singleton, elem_of_singleton. tauto.
      * rewrite fmap_app. apply NoDup_app. split; [done|]. split.
        -- intros x Hx. simpl. rewrite list_elem_of_singleton. intros ->.
           apply Hin. by apply Hseen.
        -- simpl. apply NoDup_singleton.
      * repeat split; try done; try apply H2.
        -- intros q Hq. destruct (H3 q Hq) as [Hq'|Hq']; [|right; by right].
           apply elem_of_app in Hq' as [?|Hq']; [by left|].
           apply list_elem_of_singleton in Hq' as ->. right. by left.
        -- intros x Hx. apply H4. by rewrite <- app_assoc.
Qed.

Lemma dedup_ids_spec l :
  NoDup (id <$> (dedup_ids l).1) ∧
  (∀ x, x ∈ (dedup_ids l).2 ↔ x ∈ id <$> (dedup_ids l).1) ∧
  (∀ p, p ∈ (dedup_ids l).1 → p ∈ l) ∧
  (∀ x, x ∈ id <$> l → x ∈ (dedup_ids l).2).
Proof.
  destruct (dedup_ids_fold l [] ∅) as (H1 & H2 & H3 & H4).
  - intros x. simpl. rewrite elem_of_nil. set_solver.
  - constructor.
  - unfold dedup_ids. repeat split; try done; try apply H2.
    intros p Hp. destruct (H3 p Hp) as [H|H]; [by apply elem_of_nil in H|done].
Qed.

(** ** The stay simplifier keeps points of the area, without repetition *)

Lemma nearest_fold_elem l (d : float) (c : trackpoint) center_lat center_lon :
  (foldl (λ '(min_distance, center_point) point,
            let distance :=
              haversine_distance (lat point) (lon point) center_lat center_lon in
            if fltb distance min_distance then (distance, point)
            else (min_distance, center_point))
         (d, c) l).2 ∈ c :: l.
Proof.
  revert d c. cbv zeta. induction l as [|x l IH]; intros d c; cbn [foldl]; [by left|].
  destruct (fltb _ d).
  - right. apply IH.
  - specialize (IH d c). apply elem_of_cons in IH as [H|H].
    + rewrite H. by left.
    + right. by right.
Qed.

Lemma head_last_ids l first last :
  (2 ≤ length l)%nat → head l = Some first → list.last l = Some last →
  NoDup (id <$> l) → id first ≠ id last.
Proof.
  intros Hlen Hh Hl Hnd. destruct l as [|x [|y l]]; [simpl in Hlen; lia..|].
  injection Hh as ->. rewrite last_cons_cons in Hl.
  rewrite fmap_cons in Hnd. apply NoDup_cons in Hnd as [Hx _].
  intros Heq. apply Hx. rewrite Heq.
  apply elem_of_ids. rewrite last_lookup in Hl. by apply list_elem_of_lookup_2 in Hl.
Qed.

Lemma item_elem {A} (l : list A) i x : item l i = Ok x → x ∈ l.
Proof.
  unfold item. destruct (_ <? 0); [done|].
  destruct (l !! _) eqn:H; [|done]. intros [= <-]. by apply list_elem_of_lookup_2 in H.
Qed.

Lemma simplify_stay_area_sub area s :
  simplify_stay_area self area = Ok s →
  (∀ p, p ∈ s → p ∈ area) ∧ (NoDup (id <$> area) → NoDup (id <$> s)).
Proof.
  unfold simplify_stay_area.
  destruct (Z.leb_spec (len area) (max_stay_points self)) as [Hle|Hgt].
  { intros [= <-]. done. }
  destruct (max_stay_points self =? 1) eqn:H1.
  { intros H. apply bind_Ok_inv in H as (first & Hfirst & H).
    pose proof (nearest_fold_elem area float_inf first (mean lat area) (mean lon area)) as Hc.
    destruct (foldl _ _ _) as [d c]. simplify_eq. simpl in Hc. split.
    - intros p Hp. apply list_elem_of_singleton in Hp as ->.
      apply elem_of_cons in Hc as [->|Hc]; [by eapply item_elem|done].
    - intros _. simpl. apply NoDup_singleton. }
  destruct (Z.eqb_spec (max_stay_points self) 2) as [H2|H2].
  { intros H. apply bind_Ok_inv in H as (first & Hfirst & H).
    apply bind_Ok_inv in H as (last & Hlast & H). simplify_eq. split.
    - intros p Hp. apply elem_of_cons in Hp as [->|Hp]; [by eapply item_elem|].
      apply list_elem_of_singleton in Hp as ->. by eapply item_elem.
    - intros Hnd. simpl. apply NoDup_cons. split; [|apply NoDup_singleton].
      rewrite list_elem_of_singleton.
      rewrite item_head in Hfirst. rewrite item_last in Hlast.
      destruct (head area) eqn:Hh; [|done]. destruct (list.last area) eqn:Hl; [|done].
      simplify_eq. eapply head_last_ids; eauto. unfold len in Hgt. lia. }
  intros H. apply bind_Ok_inv in H as (first & Hfirst & H).
  apply bind_Ok_inv in H as (simplified & Hsimp & H).
  apply bind_Ok_inv in H as (last & Hlast & H). simplify_eq.
  destruct (dedup_ids_spec (simplified ++ [last])) as (Hnd & _ & Hsub & _).
  split; [|done].
  intros p Hp. apply Hsub in Hp. apply elem_of_app in Hp as [Hp|Hp].
  - destruct (2 <? max_stay_points self); [|simplify_eq].
    + destruct (0 <? _).
      * apply bind_Ok_inv in Hsimp as (middle & Hmid & Hsimp). simplify_eq.
        apply elem_of_cons in Hp as [->|Hp]; [by eapply item_elem|].
        apply list_elem_of_singleton in Hp as ->. by eapply item_elem.
      * simplify_eq. apply list_elem_of_singleton in Hp as ->. by eapply item_elem.
    + apply list_elem_of_singleton in Hp as ->. by eapply item_elem.
  - apply list_elem_of_singleton in Hp as ->. by eapply item_elem.
Qed.

(** ** The main loop *)

Lemma tiling_sublist points areas : tiling points areas → mjoin areas `sublist_of` points.
Proof.
  induction 1; simpl.
  - done.
  - by apply sublist_cons.
  - by apply sublist_app.
Qed.

Lemma tiling_nonempty points areas : tiling points areas → Forall (λ a, a ≠ []) areas.
Proof. induction 1; auto. Qed.

Lemma process_points_app all_points stay_areas stay_points_set st l1 l2 :
  process_points self all_points stay_areas stay_points_set st (l1 ++ l2)
  = process_points self all_points stay_areas stay_points_set st l1
      ≫= λ st, process_points self all_points stay_areas stay_points_set st l2.
Proof.
  revert st. induction l1 as [|p l1 IH]; intros st; [done|].
  cbn [app process_points].
  destruct (process_point _ _ _ _ _ _) as [st1| |]; [|done..].
  rewrite !bind_Ok. apply IH.
Qed.

Lemma pick_area_None stay_areas (p : trackpoint) (processed : gset nat) :
  (∀ b0 rest, (b0 :: rest) ∈ stay_areas → py_in p (b0 :: rest) = true →
              id b0 ∈ processed) →
  pick_area stay_areas p processed = None.
Proof.
  induction stay_areas as [|area stay_areas IH]; intros H; cbn [pick_area]; [done|].
  assert (pick_area stay_areas p processed = None) as Htail.
  { apply IH. intros b0 rest Hb. apply H. by right. }
  destruct area as [|b0 rest]; [done|].
  destruct (py_in p (b0 :: rest)) eqn:Hin; [|done].
  rewrite bool_decide_eq_false_2; [done|].
  intros Hn. apply Hn. apply (H b0 rest); [by left|done].
Qed.

Lemma pick_area_Some before a0 rest after (p : trackpoint) (processed : gset nat) :
  py_in p (a0 :: rest) = true → id a0 ∉ processed →
  (∀ b, b ∈ before → py_in p b = false) →
  pick_area (before ++ (a0 :: rest) :: after) p processed = Some (a0 :: rest).
Proof.
  intros Hin Hfresh. induction before as [|b before IH]; intros Hbefore;
    cbn [app pick_area].
  - rewrite Hin. by rewrite bool_decide_eq_true_2.
  - assert (pick_area (before ++ (a0 :: rest) :: after) p processed = Some (a0 :: rest))
      as Htail.
    { apply IH. intros b' Hb'. apply Hbefore. by right. }
    destruct b as [|b0 brest]; [done|].
    by rewrite (Hbefore (b0 :: brest)) by (by left).
Qed.

Lemma process_points_skip all_points stay_areas (stay_points_set : gset nat) st l :
  (∀ q, q ∈ l → id q ∈ stay_points_set ∧
                pick_area stay_areas q (processed_areas st) = None) →
  process_points self all_points stay_areas stay_points_set st l = Ok st.
Proof.
  induction l as [|q l IH]; intros H; [done|].
  cbn [process_points]. unfold process_point.
  destruct (H q) as [Hin Hpick]; [by left|].
  rewrite bool_decide_eq_true_2, Hpick, bind_Ok by done.
  apply IH. intros q' Hq'. apply H. by right.
Qed.

Lemma elem_of_stay_ids stay_areas x :
  x ∈ stay_ids stay_areas ↔ x ∈ id <$> mjoin stay_areas.
Proof. unfold stay_ids. by rewrite elem_of_list_to_set. Qed.

Lemma ids_concat_elem stay_areas area x :
  area ∈ stay_areas → x ∈ id <$> area → x ∈ id <$> mjoin stay_areas.
Proof.
  intros Ha Hx. apply list_elem_of_fmap in Hx as (q & -> & Hq).
  apply elem_of_ids. apply list_elem_of_join. eauto.
Qed.

Lemma ids_sublist (l1 l2 : list trackpoint) x : l1 `sublist_of` l2 → x ∈ id <$> l1 → x ∈ id <$> l2.
Proof.
  intros Hsub Hx. apply list_elem_of_fmap in Hx as (q & -> & Hq).
  apply elem_of_ids. by eapply sublist_submseteq, elem_of_submseteq in Hsub.
Qed.

Lemma process_points_tiling all_points rest todo :
  tiling rest todo → ∀ before past st st',
  NoDup (id <$> before ++ rest) →
  (∀ x, x ∈ id <$> mjoin past → x ∈ id <$> before) →
  (∀ x, x ∈ processed_areas st → x ∈ id <$> before) →
  (∀ x, x ∈ id <$> simplified_points st → x ∈ id <$> before) →
  NoDup (id <$> simplified_points st) →
  process_points self all_points (past ++ todo) (stay_ids (past ++ todo)) st rest
    = Ok st' →
  simplified_calls st' = simplified_calls st ++ todo ∧
  NoDup (id <$> simplified_points st') ∧
  (∀ x, x ∈ id <$> simplified_points st' → x ∈ id <$> before ++ rest).
Proof.
  induction 1 as [|p points areas Htil IH|area points areas Hne Htil IH];
    intros before past st st' Hnd Hpast Hproc Hsimp Hnds Hrun.
  - injection Hrun as <-. rewrite !app_nil_r. done.
  - (* a point outside every area *)
    rewrite fmap_app, fmap_cons in Hnd.
    apply NoDup_app in Hnd as (Hndb & Hdisj & Hndr).
    apply NoDup_cons in Hndr as [Hp Hndp].
    assert (id p ∉ id <$> before) as Hpb.
    { intros Hin. apply (Hdisj _ Hin). by left. }
    assert (id p ∉ stay_ids (past ++ areas)) as Hout.
    { rewrite elem_of_stay_ids, join_app, fmap_app, elem_of_app.
      intros [Hin|Hin]; [by apply Hpb, Hpast|].
      apply Hp. eapply ids_sublist; [|done]. by apply tiling_sublist. }
    cbn [process_points] in Hrun. unfold process_point in Hrun.
    rewrite bool_decide_eq_false_2 in Hrun by done.
    assert (∀ st1,
      simplified_calls st1 = simplified_calls st →
      processed_areas st1 = processed_areas st →
      (simplified_points st1 = simplified_points st ∨
       simplified_points st1 = simplified_points st ++ [p]) →
      process_points self all_points (past ++ areas) (stay_ids (past ++ areas)) st1 points
        = Ok st' →
      simplified_calls st' = simplified_calls st ++ areas
      ∧ NoDup (id <$> simplified_points st')
      ∧ (∀ x, x ∈ id <$> simplified_points st' → x ∈ id <$> before ++ p :: points))
      as Hstep.
    { intros st1 Hc Hpr Hs Hrun1.
      destruct (IH (before ++ [p]) past st1 st') as (H1 & H2 & H3); try done.
      - rewrite <- app_assoc. simpl. rewrite fmap_app, fmap_cons.
        apply NoDup_app. split; [done|]. split; [done|]. by apply NoDup_cons.
      - intros x Hx. rewrite fmap_app, elem_of_app. left. by apply Hpast.
      - intros x Hx. rewrite fmap_app, elem_of_app. left. apply Hproc. by rewrite <- Hpr.
      - intros x. rewrite fmap_app, elem_of_app.
        destruct Hs as [->| ->]; [intros; left; by apply Hsimp|].
        rewrite fmap_app, elem_of_app. intros [?|?]; [left; by apply Hsimp|by right].
      - destruct Hs as [->| ->]; [done|]. rewrite fmap_app. apply NoDup_app.
        split; [done|]. split; [|apply NoDup_singleton].
        intros x Hx. simpl. rewrite list_elem_of_singleton. intros ->.
        by apply Hpb, Hsimp.
      - rewrite H1, Hc. split; [done|]. split; [done|].
        intros x Hx. apply H3 in Hx. by rewrite <- app_assoc in Hx. }
    destruct (should_keep_moving_point _ _ _ _); rewrite bind_Ok in Hrun;
      (eapply Hstep; [..|exact Hrun]); simpl; auto.
  - (* a stay area *)
    destruct area as [|a0 area']; [done|].
    rewrite fmap_app in Hnd. rewrite fmap_app in Hnd.
    apply NoDup_app in Hnd as (Hndb & Hdisj & Hndr).
    apply NoDup_app in Hndr as (Hnda & Hdisja & Hndp).
    assert (∀ x, x ∈ id <$> mjoin areas → x ∈ id <$> points) as Hareas.
    { intros x. apply ids_sublist. by apply tiling_sublist. }
    assert (∀ x, x ∈ id <$> (a0 :: area') → x ∈ stay_ids (past ++ (a0 :: area') :: areas))
      as Hstay.
    { intros x Hx. apply elem_of_stay_ids. rewrite join_app, fmap_app, elem_of_app.
      right. change (mjoin ((a0 :: area') :: areas)) with ((a0 :: area') ++ mjoin areas).
      rewrite fmap_app, elem_of_app. by left. }
    cbn [app process_points] in Hrun.
    apply bind_Ok_inv in Hrun as (st1 & Hstep & Hrun).
    unfold process_point in Hstep.
    rewrite bool_decide_eq_true_2 in Hstep by (apply Hstay; by left).
    rewrite pick_area_Some in Hstep; cycle 1.
    { apply py_in_iff. by left. }
    { intros Hin. apply (Hdisj (id a0)); [by apply Hproc|]. rewrite elem_of_app.
      left. by left. }
    { intros b Hb. apply py_in_false. intros Hin.
      apply (Hdisj (id a0)).
      - apply Hpast. by eapply ids_concat_elem.
      - rewrite elem_of_app. left. by left. }
    apply bind_Ok_inv in Hstep as (sA & HsA & Hstep).
    destruct (simplify_stay_area_sub _ _ HsA) as [Hsub HndA].
    cbv beta in Hstep. rewrite item_head in Hstep.
    change (head (a0 :: area')) with (Some a0) in Hstep. cbv iota in Hstep.
    rewrite bind_Ok in Hstep. injection Hstep as <-.
    rewrite process_points_app, process_points_skip, bind_Ok in Hrun; cycle 1.
    { intros q Hq. split; [apply Hstay; right; by apply elem_of_ids|].
      apply pick_area_None. intros b0 brest Hb Hin. simpl.
      apply py_in_iff in Hin.
      apply elem_of_app in Hb as [Hb|Hb].
      - destruct (Hdisj (id q)).
        + apply Hpast. by eapply ids_concat_elem.
        + rewrite elem_of_app. left. right. by apply elem_of_ids.
      - apply elem_of_cons in Hb as [Hb|Hb].
        + injection Hb as -> ->. apply elem_of_union. left. by apply elem_of_singleton.
        + destruct (Hdisja (id q)).
          * right. by apply elem_of_ids.
          * apply Hareas. by eapply ids_concat_elem. }
    specialize (IH (before ++ a0 :: area') (past ++ [a0 :: area'])).
    rewrite <- !app_assoc in IH. cbn [app] in IH.
    apply IH in Hrun as (H1 & H2 & H3); cycle 1.
    + change (a0 :: area' ++ points) with ((a0 :: area') ++ points).
      rewrite !fmap_app. apply NoDup_app. split; [done|]. split; [done|].
      apply NoDup_app. done.
    + intros x. rewrite join_app, !fmap_app, !elem_of_app. simpl.
      rewrite app_nil_r. intros [?|?]; [left; by apply Hpast|by right].
    + intros x. simpl. rewrite elem_of_union, elem_of_singleton, fmap_app, elem_of_app.
      intros [->|?]; [right; by left|left; by apply Hproc].
    + intros x. simpl. rewrite !fmap_app, !elem_of_app.
      intros [?|Hx]; [left; by apply Hsimp|right].
      apply list_elem_of_fmap in Hx as (q & -> & Hq). by apply elem_of_ids, Hsub.
    + simpl. rewrite fmap_app. apply NoDup_app. split; [done|]. split; [|by apply HndA].
      intros x Hx Hx'. apply (Hdisj x); [by apply Hsimp|].
      rewrite elem_of_app. left.
      apply list_elem_of_fmap in Hx' as (q & -> & Hq). by apply elem_of_ids, Hsub.
    + simpl in H1. rewrite <- app_assoc in H1. done.
Qed.

(** ** The override-zone pre-pass keeps points of the track, without repetition *)

Lemma sorted_by_time_inv l s : sorted_by_time l = Ok s → s = sort_by time_or_min l.
Proof. unfold sorted_by_time. destruct (_ || _); [|done]. by intros [= <-]. Qed.

Lemma sorted_by_time_perm l s : sorted_by_time l = Ok s → s ≡ₚ l.
Proof. intros ->%sorted_by_time_inv. apply sort_by_perm. Qed.

Lemma sorted_by_time_or_min_inv l s :
  sorted_by_time_or_min l = Ok s → s = sort_by time_or_min l.
Proof. unfold sorted_by_time_or_min. destruct (_ || _); [|done]. by intros [= <-]. Qed.

Lemma sorted_by_time_or_min_perm l s : sorted_by_time_or_min l = Ok s → s ≡ₚ l.
Proof. intros ->%sorted_by_time_or_min_inv. apply sort_by_perm. Qed.

(** The closing step of the zone filter and of the pipeline: a list whose
    first point carries a timestamp is sorted. *)
Lemma closing_sort_perm l s :
  match l with
  | p :: _ => if has_time p then sorted_by_time_or_min l else Ok l
  | [] => Ok l
  end = Ok s → s ≡ₚ l.
Proof.
  destruct l as [|p l']; [by intros [= <-]|].
  destruct (has_time p); [apply sorted_by_time_or_min_perm|by intros [= <-]].
Qed.

Lemma NoDup_ids_sublist (l1 l2 : list trackpoint) :
  l1 `sublist_of` l2 → NoDup (id <$> l2) → NoDup (id <$> l1).
Proof. intros Hsub Hnd. apply (sublist_NoDup (id <$> l1) (id <$> l2)); [done|]. by apply fmap_sublist. Qed.

Lemma central_fold_elem cluster simplified center_lat center_lon (d : float) c :
  (foldl (λ '(min_distance, central_point) point,
            let distance :=
              haversine_distance (lat point) (lon point) center_lat center_lon in
            if fltb distance min_distance && negb (py_in point simplified)
            then (distance, Some point)
            else (min_distance, central_point))
         (d, c) cluster).2 = c
  ∨ ∃ x, (foldl (λ '(min_distance, central_point) point,
            let distance :=
              haversine_distance (lat point) (lon point) center_lat center_lon in
            if fltb distance min_distance && negb (py_in point simplified)
            then (distance, Some point)
            else (min_distance, central_point))
         (d, c) cluster).2 = Some x ∧ x ∈ cluster.
Proof.
  revert d c. cbv zeta. induction cluster as [|x cluster IH]; intros d c; cbn [foldl];
    [by left|].
  destruct (_ && _).
  - right. destruct (IH (haversine_distance (lat x) (lon x) center_lat center_lon) (Some x))
      as [H|(y & H & Hy)].
    + exists x. split; [done|by left].
    + exists y. split; [done|by right].
  - destruct (IH d c) as [H|(y & H & Hy)]; [by left|].
    right. exists y. split; [done|by right].
Qed.

Lemma simplify_bupt_cluster_sub cluster r :
  _simplify_bupt_cluster self cluster = Ok r →
  (∀ p, p ∈ r → p ∈ cluster) ∧ (NoDup (id <$> cluster) → NoDup (id <$> r)).
Proof.
  unfold _simplify_bupt_cluster. intros H.
  case_bool_decide as Hnil.
  { injection H as <-. split; [by intros p Hp; apply elem_of_nil in Hp|constructor]. }
  destruct (Z.leb_spec (len cluster) (bupt_simplified_points_count self)) as [Hle|Hgt].
  { injection H as <-. done. }
  apply bind_Ok_inv in H as (first & Hfirst & H).
  apply bind_Ok_inv in H as (last & Hlast & H).
  apply bind_Ok_inv in H as (simplified & Hsimp & H).
  apply item_elem in Hfirst, Hlast.
  assert (∀ p, p ∈ simplified → p ∈ cluster) as Hs1.
  { assert (∀ p, p ∈ (if 1 <=? bupt_simplified_points_count self then [first] else [])
                 → p ∈ cluster) as Hs0.
    { intros p. destruct (1 <=? _); [|by intros Hp; apply elem_of_nil in Hp].
      intros Hp. by apply list_elem_of_singleton in Hp as ->. }
    revert Hs0 Hsimp. generalize (if 1 <=? bupt_simplified_points_count self then [first] else []).
    intros s0 Hs0 Hsimp.
    destruct (2 <=? _); [|by simplify_eq].
    destruct (has_time first && has_time last).
    - apply bind_Ok_inv in Hsimp as (sorted & Hsorted & Hsimp).
      apply bind_Ok_inv in Hsimp as (earliest & Hearliest & Hsimp).
      apply bind_Ok_inv in Hsimp as (latest & Hlatest & Hsimp).
      apply sorted_by_time_perm in Hsorted.
      apply item_elem in Hearliest, Hlatest.
      rewrite Hsorted in Hearliest, Hlatest.
      injection Hsimp as <-.
      intros p. destruct (negb (py_in earliest s0)), (negb (py_in latest _));
        rewrite ?elem_of_app, ?list_elem_of_singleton; intuition (subst; auto).
    - injection Hsimp as <-. intros p. destruct (negb _);
        rewrite ?elem_of_app, ?list_elem_of_singleton; intuition (subst; auto). }
  clear Hsimp. cbv zeta in H.
  match type of H with context [dedup_ids ?s] => remember s as s2 eqn:Hs2eq end.
  assert (∀ p, p ∈ s2 → p ∈ cluster) as Hs2.
  { subst s2. destruct (3 <=? _); [|done].
    destruct (central_fold_elem cluster simplified (mean lat cluster) (mean lon cluster)
                float_inf None) as [Hc|(c & Hc & Hcin)];
      cbv zeta in Hc; destruct (foldl _ _ _) as [d o]; simpl in Hc; subst o; [done|].
    intros p. rewrite elem_of_app, list_elem_of_singleton. intros [?| ->]; auto. }
  clear Hs2eq.
  destruct (dedup_ids_spec s2) as (Hnd & Hseen & Hsub & Hall).
  destruct (dedup_ids s2) as [final seen]. simpl in Hnd, Hseen, Hsub, Hall.
  apply bind_Ok_inv in H as (final2 & Hf2eq & H).
  assert ((∀ p, p ∈ final2 → p ∈ cluster) ∧ (NoDup (id <$> cluster) → NoDup (id <$> final2)))
    as [Hf2 Hnd2].
  { destruct (len final <? _); [|by injection Hf2eq as <-; auto].
    case_bool_decide; [by injection Hf2eq as <-; auto|].
    apply bind_Ok_inv in Hf2eq as (remaining & Hrem & Hf2eq). injection Hf2eq as <-.
    apply sorted_by_time_or_min_perm in Hrem. split.
    - intros p. rewrite elem_of_app. intros [Hp|Hp]; [by auto|].
      apply slice_elem in Hp. rewrite Hrem in Hp. by apply list_elem_of_filter in Hp as [_ ?].
    - intros Hndc. rewrite fmap_app. apply NoDup_app. split; [done|]. split.
      + intros x Hx Hx'. apply list_elem_of_fmap in Hx' as (q & -> & Hq).
        apply slice_elem in Hq. rewrite Hrem in Hq. apply list_elem_of_filter in Hq as [Hq _].
        apply Hq. by apply Hseen.
      + eapply NoDup_ids_sublist; [apply slice_sublist|].
        rewrite Hrem.
        eapply NoDup_ids_sublist; [apply sublist_filter|done]. }
  apply bind_Ok_inv in H as (final3 & Hperm & H). injection H as <-.
  apply closing_sort_perm in Hperm.
  split.
  - intros p Hp. rewrite Hperm in Hp. auto.
  - intros Hndc. rewrite Hperm. auto.
Qed.

Lemma bupt_pass_sub points processed cluster out :
  bupt_pass self points processed cluster = Ok out →
  ∃ out', out = processed ++ out' ∧
    (∀ p, p ∈ out' → p ∈ cluster ++ points) ∧
    (NoDup (id <$> cluster ++ points) → NoDup (id <$> out')).
Proof.
  revert processed cluster. induction points as [|point points IH];
    intros processed cluster Hrun; cbn [bupt_pass] in Hrun.
  - case_bool_decide as Hnil.
    + injection Hrun as <-. exists []. rewrite app_nil_r. split; [done|].
      split; [by intros p Hp; apply elem_of_nil in Hp|constructor].
    + apply bind_Ok_inv in Hrun as (s & Hs & Hrun). injection Hrun as <-.
      destruct (simplify_bupt_cluster_sub _ _ Hs) as [Hsub Hnd].
      exists s. rewrite app_nil_r. done.
  - destruct (is_in_bupt_area self (lat point) (lon point)).
    { apply IH in Hrun as (out' & -> & Hsub & Hnd). exists out'.
      rewrite <- app_assoc in Hsub, Hnd. done. }
    case_bool_decide as Hnil.
    + subst cluster. apply IH in Hrun as (out' & -> & Hsub & Hnd).
      exists (point :: out'). rewrite <- app_assoc. split; [done|]. split.
      * intros p Hp. apply elem_of_cons in Hp as [->|Hp]; [by left|].
        right. by apply Hsub.
      * cbn [app fmap list_fmap]. intros Hndp. apply NoDup_cons in Hndp as [Hp Hndp].
        apply NoDup_cons. split; [|by apply Hnd].
        intros Hin. apply Hp. apply list_elem_of_fmap in Hin as (q & Hq & Hin).
        rewrite Hq. by apply elem_of_ids, Hsub.
    + apply bind_Ok_inv in Hrun as (s & Hs & Hrun).
      destruct (simplify_bupt_cluster_sub _ _ Hs) as [Hsubs Hnds].
      apply IH in Hrun as (out' & -> & Hsub & Hnd).
      exists (s ++ point :: out'). rewrite <- !app_assoc. split; [done|]. split.
      * intros p. rewrite !elem_of_app, !elem_of_cons.
        intros [?|[->|?]]; [left; by apply Hsubs|right; by left|right; right; by apply Hsub].
      * rewrite !fmap_app, !fmap_cons. intros Hndp.
        apply NoDup_app in Hndp as (Hndc & Hdisj & Hndp).
        apply NoDup_cons in Hndp as [Hp Hndp].
        apply NoDup_app. split; [by apply Hnds|]. split.
        -- intros x Hx Hx'. apply list_elem_of_fmap in Hx as (q & -> & Hq).
           apply (Hdisj (id q)); [by apply elem_of_ids, Hsubs|].
           apply elem_of_cons in Hx' as [->|Hx']; [by left|right].
           apply list_elem_of_fmap in Hx' as (q' & -> & Hq'). by apply elem_of_ids, Hsub.
        -- apply NoDup_cons. split; [|by apply Hnd].
           intros Hin. apply Hp. apply list_elem_of_fmap in Hin as (q & Hq & Hin).
           rewrite Hq. by apply elem_of_ids, Hsub.
Qed.

(** ** The pipeline *)

Lemma NoDup_ids_inj l (x y : trackpoint) :
  NoDup (id <$> l) → x ∈ l → y ∈ l → id x = id y → x = y.
Proof.
  induction l as [|z l IH]; intros Hnd Hx Hy Heq; [by apply elem_of_nil in Hx|].
  rewrite fmap_cons in Hnd. apply NoDup_cons in Hnd as [Hz Hnd].
  apply elem_of_cons in Hx as [->|Hx]; apply elem_of_cons in Hy as [->|Hy]; auto.
  - destruct Hz. rewrite Heq. by apply elem_of_ids.
  - destruct Hz. rewrite <- Heq. by apply elem_of_ids.
Qed.

Lemma NoDup_join_unique areas (a b : list trackpoint) (p : trackpoint) :
  NoDup (mjoin areas) → a ∈ areas → b ∈ areas → p ∈ a → p ∈ b → a = b.
Proof.
  induction areas as [|c areas IH]; intros Hnd Ha Hb Hpa Hpb;
    [by apply elem_of_nil in Ha|].
  change (mjoin (c :: areas)) with (c ++ mjoin areas) in Hnd.
  apply NoDup_app in Hnd as (_ & Hdisj & Hnd).
  apply elem_of_cons in Ha as [->|Ha]; apply elem_of_cons in Hb as [->|Hb]; auto.
  - destruct (Hdisj p Hpa). apply list_elem_of_join. eauto.
  - destruct (Hdisj p Hpb). apply list_elem_of_join. eauto.
Qed.

Lemma NoDup_join_areas areas :
  NoDup (mjoin areas) → Forall (λ a, a ≠ []) areas → NoDup areas.
Proof.
  induction areas as [|c areas IH]; intros Hnd Hne; [constructor|].
  change (mjoin (c :: areas)) with (c ++ mjoin areas) in Hnd.
  apply NoDup_app in Hnd as (_ & Hdisj & Hnd).
  apply Forall_cons in Hne as [Hc Hne].
  apply NoDup_cons. split; [|by apply IH].
  intros Hin. destruct c as [|x c]; [done|].
  destruct (Hdisj x); [by left|]. apply list_elem_of_join. exists (x :: c).
  split; [by left|done].
Qed.

(** The steps of one run of the pipeline. *)
Lemma simplify_run_inv points r :
  simplify_run self points = Ok r →
  bupt_pass self points [] [] = Ok (filtered r) ∧
  identify_stay_areas_improved self (filtered r) = Ok (areas r, segments r) ∧
  process_points self (filtered r) (areas r) (stay_ids (areas r))
    {| simplified_points := []; processed_areas := ∅; simplified_calls := [] |}
    (filtered r) = Ok (final_state r) ∧
  match simplified_points (final_state r) with
  | p :: _ => if has_time p then sorted_by_time_or_min (simplified_points (final_state r))
              else Ok (simplified_points (final_state r))
  | [] => Ok (simplified_points (final_state r))
  end = Ok (output r).
Proof.
  unfold simplify_run. intros H.
  apply bind_Ok_inv in H as (processed_points & Hpass & H).
  apply bind_Ok_inv in H as ([stay_areas moving_segments] & Hidentify & H).
  apply bind_Ok_inv in H as (st & Hloop & H).
  apply bind_Ok_inv in H as (out & Hsort & H). injection H as <-. done.
Qed.

(** What one run of the pipeline guarantees on a track of distinct points. *)
Lemma simplify_run_spec points r :
  NoDup (id <$> points) → simplify_run self points = Ok r →
  NoDup (id <$> filtered r) ∧
  (∀ x, x ∈ id <$> filtered r → x ∈ id <$> points) ∧
  tiling (filtered r) (areas r) ∧
  simplified_calls (final_state r) = areas r ∧
  NoDup (id <$> output r) ∧
  (∀ x, x ∈ id <$> output r → x ∈ id <$> filtered r).
Proof.
  intros Hnd Hrun.
  apply simplify_run_inv in Hrun as (Hpass & Hid & Hloop & Hperm).
  apply bupt_pass_sub in Hpass as (out' & Hout & Hsub & Hndf). simpl in Hout. subst out'.
  simpl in Hsub, Hndf. specialize (Hndf Hnd).
  apply identify_stay_areas_improved_Ok in Hid as (Htil & _).
  apply closing_sort_perm in Hperm.
  destruct (process_points_tiling (filtered r) (filtered r) (areas r) Htil [] []
              {| simplified_points := []; processed_areas := ∅; simplified_calls := [] |}
              (final_state r)) as (Hcalls & Hnds & Hids); try done.
  all: try (intros x Hx; by apply elem_of_nil in Hx).
  all: try (intros x Hx; by apply elem_of_empty in Hx).
  all: try (by constructor).
  split; [done|]. split.
  { intros x Hx. apply list_elem_of_fmap in Hx as (q & -> & Hq). by apply elem_of_ids, Hsub. }
  split; [done|]. split; [done|]. split.
  - by rewrite Hperm.
  - intros x Hx. rewrite Hperm in Hx. by apply Hids in Hx.
Qed.

(** C5.  On a track of distinct points, the stay areas cover the
    zone-filtered sequence as disjoint runs; every point of that sequence
    either belongs to exactly one stay area (and is then handled with it) or
    to none (and is then examined as a moving point); the areas handed to
    the stay simplifier are the stay areas, each once; and no point occurs
    twice in the output. *)
Theorem each_point_one_route points r :
  NoDup (id <$> points) → simplify_run self points = Ok r →
  tiling (filtered r) (areas r) ∧
  (∀ p, p ∈ filtered r →
     (id p ∈ stay_ids (areas r) ∧
      (∃ a, a ∈ areas r ∧ p ∈ a ∧ (∀ b, b ∈ areas r → p ∈ b → b = a)))
     ∨ ((id p ∉ stay_ids (areas r)) ∧ (∀ b, b ∈ areas r → p ∉ b))) ∧
  simplified_calls (final_state r) = areas r ∧ NoDup (areas r) ∧
  NoDup (id <$> output r).
Proof.
  intros Hnd Hrun.
  destruct (simplify_run_spec points r Hnd Hrun) as (Hndf & _ & Htil & Hcalls & Hndo & _).
  assert (NoDup (mjoin (areas r))) as Hndj.
  { eapply sublist_NoDup; [|by apply tiling_sublist]. by eapply NoDup_fmap_1. }
  split; [done|]. split; [|split; [done|split; [|done]]].
  - intros p Hp. destruct (decide (id p ∈ stay_ids (areas r))) as [Hin|Hout].
    + left. split; [done|].
      apply elem_of_stay_ids, list_elem_of_fmap in Hin as (q & Heq & Hq).
      assert (p = q) as <-.
      { apply (NoDup_ids_inj (filtered r)); try done.
        eapply elem_of_submseteq; [done|]. by apply sublist_submseteq, tiling_sublist. }
      apply list_elem_of_join in Hq as (a & Hpa & Ha).
      exists a. split; [done|]. split; [done|].
      intros b Hb Hpb. by apply (NoDup_join_unique (areas r) b a p).
    + right. split; [done|]. intros b Hb Hpb. apply Hout.
      apply elem_of_stay_ids. eapply ids_concat_elem; [done|]. by apply elem_of_ids.
  - apply NoDup_join_areas; [done|]. by eapply tiling_nonempty.
Qed.

Lemma simplify_gpx_improved_spec points out :
  NoDup (id <$> points) → simplify_gpx_improved self points = Ok out →
  NoDup (id <$> out) ∧ (∀ x, x ∈ id <$> out → x ∈ id <$> points) ∧
  (length out ≤ length points)%nat.
Proof.
  intros Hnd Hrun. unfold simplify_gpx_improved in Hrun.
  case_bool_decide as Hnil.
  { injection Hrun as <-. split; [constructor|]. split; [|simpl; lia].
    intros x Hx. by apply elem_of_nil in Hx. }
  apply bind_Ok_inv in Hrun as (r & Hr & Hrun). injection Hrun as <-.
  destruct (simplify_run_spec points r Hnd Hr) as (_ & Hf & _ & _ & Hndo & Ho).
  assert (∀ x, x ∈ id <$> output r → x ∈ id <$> points) as Hsub by auto.
  split; [done|]. split; [done|].
  rewrite <- (length_fmap id (output r)), <- (length_fmap id points).
  apply submseteq_length. by apply NoDup_submseteq.
Qed.

(** ** When the pipeline returns

    The loops of the model never run out of fuel, and the only exception a
    pass can raise is the [TypeError] of [sorted] in the override-zone
    pre-pass, which needs a run that mixes points with and without
    timestamps. *)

Lemma item_nonempty {A} (x : A) (l : list A) :
  item (x :: l) 0 = Ok x ∧ ∃ y, item (x :: l) (-1) = Ok y.
Proof.
  split; [done|]. rewrite item_last.
  destruct (last_is_Some (x :: l)) as [_ [y ->]]; eauto.
Qed.

Lemma simplify_stay_area_returns a0 area :
  ∃ s, simplify_stay_area self (a0 :: area) = Ok s.
Proof.
  unfold simplify_stay_area.
  destruct (item_nonempty a0 area) as [H0 [y Hy]]. rewrite H0, Hy, !bind_Ok.
  destruct (_ <=? _); [eauto|]. destruct (_ =? 1).
  { destruct (foldl _ _ _). eauto. }
  destruct (_ =? 2); [eauto|].
  destruct (2 <? _); [|rewrite bind_Ok; eauto].
  destruct (0 <? _); [|rewrite bind_Ok; eauto].
  destruct (item_in_range (a0 :: area) (len (a0 :: area) / 2)) as (m & Hm & _).
  { pose proof (len_nonneg (a0 :: area)). split; [by apply Z.div_pos|].
    apply Z.div_lt; [|lia]. unfold len. simpl. lia. }
  rewrite Hm, !bind_Ok. eauto.
Qed.

Lemma pick_area_nonempty stay_areas (p : trackpoint) (processed : gset nat) area :
  pick_area stay_areas p processed = Some area → area ∈ stay_areas ∧ area ≠ [].
Proof.
  induction stay_areas as [|b stay_areas IH]; cbn [pick_area]; [done|].
  destruct b as [|b0 rest].
  - intros H. apply IH in H as [? ?]. split; [by right|done].
  - destruct (_ && _).
    + intros [= <-]. split; [by left|done].
    + intros H. apply IH in H as [? ?]. split; [by right|done].
Qed.

Lemma process_points_returns all_points stay_areas (stay_points_set : gset nat) st l :
  ∃ st', process_points self all_points stay_areas stay_points_set st l = Ok st' ∧
    ∀ p, p ∈ simplified_points st' →
         p ∈ simplified_points st ∨ p ∈ l ∨ p ∈ mjoin stay_areas.
Proof.
  revert st. induction l as [|q l IH]; intros st; cbn [process_points].
  { exists st. split; [done|by left]. }
  assert (∃ st1, process_point self all_points stay_areas stay_points_set st q = Ok st1 ∧
            ∀ p, p ∈ simplified_points st1 →
                 p ∈ simplified_points st ∨ p = q ∨ p ∈ mjoin stay_areas)
    as (st1 & -> & Hst1).
  { unfold process_point. case_bool_decide.
    - destruct (pick_area _ _ _) as [area|] eqn:Hpick; [|by eauto].
      apply pick_area_nonempty in Hpick as [Hin Hne].
      destruct area as [|a0 area]; [done|].
      destruct (simplify_stay_area_returns a0 area) as [s Hs].
      rewrite Hs, bind_Ok, (proj1 (item_nonempty a0 area)), bind_Ok.
      eexists. split; [done|]. simpl. intros p Hp.
      apply elem_of_app in Hp as [?|Hp]; [by left|]. right. right.
      apply list_elem_of_join. exists (a0 :: area). split; [|done].
      by apply (proj1 (simplify_stay_area_sub _ _ Hs)).
    - destruct (should_keep_moving_point _ _ _ _); [|by eauto].
      eexists. split; [done|]. simpl. intros p Hp.
      apply elem_of_app in Hp as [?|Hp]; [by left|]. right. left.
      by apply list_elem_of_singleton in Hp. }
  rewrite bind_Ok. destruct (IH st1) as (st' & -> & Hst').
  exists st'. split; [done|]. intros p Hp.
  destruct (Hst' p Hp) as [Hp1|[?|?]]; [|right; left; by right|by auto].
  destruct (Hst1 p Hp1) as [?|[->|?]]; [by left|right; left; by left|by auto].
Qed.

(** *** Outcomes: a pass returns or raises [TypeError]

    The only step of a pass that can fail is a comparison or a subtraction
    of timestamps: in the sorts of the zone filter, in the duration test of
    the stay segmenter, and in the closing sort.  None of them fails on a
    uniformly stamped track. *)

Lemma outcome_bind {A B} (r : result A) (k : A → result B) (P : Prop) :
  (∃ a, r = Ok a) ∨ (r = Raise TypeError ∧ P) →
  (∀ a, r = Ok a → (∃ b, k a = Ok b) ∨ (k a = Raise TypeError ∧ P)) →
  (∃ b, r ≫= k = Ok b) ∨ (r ≫= k = Raise TypeError ∧ P).
Proof.
  intros [[a ->]|[-> HP]] Hk; [|by right]. rewrite bind_Ok. by apply Hk.
Qed.

Lemma has_time_Some (p : trackpoint) : has_time p = true ↔ ∃ t, time p = Some t.
Proof. unfold has_time. rewrite bool_decide_eq_true. done. Qed.

Lemma has_time_None (p : trackpoint) : has_time p = false ↔ time p = None.
Proof.
  unfold has_time. rewrite bool_decide_eq_false.
  destruct (time p); split; intros H; try done. destruct H. by eexists.
Qed.

Lemma uniformly_stamped_subseteq l points :
  (∀ p, p ∈ l → p ∈ points) → uniformly_stamped points → uniformly_stamped l.
Proof.
  intros Hsub [Hno|[Hyes Hkind]]; [left|right].
  - intros p Hp. by apply Hno, Hsub.
  - split; [intros p Hp; by apply Hyes, Hsub|by eapply same_kind_subseteq].
Qed.

Lemma uniformly_stamped_same_kind l : uniformly_stamped l → same_kind l.
Proof.
  intros [Hno|[_ Hkind]]; [|done]. intros p q t0 t1 Hp _ Ht0 _.
  apply Hno, has_time_None in Hp. congruence.
Qed.

Lemma uniformly_stamped_one_kind l : uniformly_stamped l → one_kind l = true.
Proof.
  intros Huni. destruct l as [|p l]; [done|]. simpl.
  apply forallb_forall. intros q Hq%list_elem_of_In. apply bool_decide_eq_true.
  assert (p ∈ p :: l) as Hp by (by left).
  assert (q ∈ p :: l) as Hq' by (by right).
  unfold key_aware. destruct Huni as [Hno|[Hyes Hkind]].
  - apply Hno, has_time_None in Hp, Hq'. by rewrite Hp, Hq'.
  - destruct (proj1 (has_time_Some p) (Hyes p Hp)) as [t0 Ht0].
    destruct (proj1 (has_time_Some q) (Hyes q Hq')) as [t1 Ht1].
    rewrite Ht0, Ht1. simpl. by apply (Hkind q p t1 t0).
Qed.

(** A test for uniformly stamped tracks. *)
Lemma uniformly_stamped_check l :
  forallb (λ p, negb (has_time p)) l || (forallb has_time l && one_kind l) = true →
  uniformly_stamped l.
Proof.
  intros [Hno|[Hyes Hkind]%andb_true_iff]%orb_true_iff; [left|right].
  - intros p Hp%list_elem_of_In. rewrite forallb_forall in Hno.
    apply Hno in Hp. by destruct (has_time p).
  - rewrite forallb_forall in Hyes. split.
    { intros p Hp%list_elem_of_In. by apply Hyes. }
    destruct l as [|p0 l]; [intros p q t0 t1 Hp; by apply elem_of_nil in Hp|].
    simpl in Hkind. rewrite forallb_forall in Hkind.
    assert (∀ p t, p ∈ p0 :: l → time p = Some t → aware t = key_aware p0) as Hhead.
    { intros p t Hp Ht. apply elem_of_cons in Hp as [->|Hp].
      - unfold key_aware. by rewrite Ht.
      - apply list_elem_of_In, Hkind, bool_decide_eq_true in Hp.
        rewrite <- Hp. unfold key_aware. by rewrite Ht. }
    intros p q t0 t1 Hp Hq Ht0 Ht1.
    by rewrite (Hhead p t0 Hp Ht0), (Hhead q t1 Hq Ht1).
Qed.

Lemma sorted_by_time_or_min_outcome l :
  sorted_by_time_or_min l = Ok (sort_by time_or_min l)
  ∨ (sorted_by_time_or_min l = Raise TypeError ∧ ¬ uniformly_stamped l).
Proof.
  unfold sorted_by_time_or_min. destruct (len l <=? 1); [by left|].
  destruct (one_kind l) eqn:Hkind; [by left|]. right. split; [done|].
  intros Huni%uniformly_stamped_one_kind. congruence.
Qed.

Lemma sorted_by_time_outcome l :
  sorted_by_time l = Ok (sort_by time_or_min l)
  ∨ (sorted_by_time l = Raise TypeError
     ∧ ¬ ((∀ p, p ∈ l → has_time p = true) ∧ same_kind l)).
Proof.
  unfold sorted_by_time. destruct (len l <=? 1); [by left|].
  destruct (forallb has_time l) eqn:Htimes; simpl.
  - destruct (one_kind l) eqn:Hkind; [by left|]. right. split; [done|].
    intros [Hyes Hsame].
    rewrite uniformly_stamped_one_kind in Hkind; [done|by right].
  - right. split; [done|]. intros [Hyes _].
    assert (forallb has_time l = true); [|congruence].
    apply forallb_forall. intros p Hp%list_elem_of_In. by apply Hyes.
Qed.

Lemma item_head_Ok {A} (l : list A) : l ≠ [] → ∃ x, item l 0 = Ok x ∧ x ∈ l.
Proof. destruct l as [|x l]; [done|]. intros _. exists x. split; [done|by left]. Qed.

Lemma item_last_Ok {A} (l : list A) : l ≠ [] → ∃ x, item l (-1) = Ok x ∧ x ∈ l.
Proof.
  destruct l as [|x l]; [done|]. intros _.
  destruct (item_nonempty x l) as [_ [y Hy]]. exists y. split; [done|by eapply item_elem].
Qed.

Lemma sort_by_nonempty key l : l ≠ [] → sort_by key l ≠ [].
Proof.
  intros Hne Hnil. pose proof (sort_by_perm key l) as Hperm. rewrite Hnil in Hperm.
  by apply Permutation_nil in Hperm.
Qed.

Lemma append_elem (x : trackpoint) l (p : trackpoint) :
  p ∈ (if negb (py_in x l) then l ++ [x] else l) → p ∈ l ∨ p = x.
Proof.
  destruct (negb _); [|by left].
  rewrite elem_of_app, list_elem_of_singleton. tauto.
Qed.

Lemma simplify_bupt_cluster_outcome cluster :
  (∃ r, _simplify_bupt_cluster self cluster = Ok r)
  ∨ (_simplify_bupt_cluster self cluster = Raise TypeError ∧ ¬ uniformly_stamped cluster).
Proof.
  unfold _simplify_bupt_cluster.
  case_bool_decide as Hnil; [by eauto|].
  destruct (_ <=? _); [by eauto|].
  destruct (item_head_Ok cluster Hnil) as (first & -> & Hfirst).
  destruct (item_last_Ok cluster Hnil) as (last & -> & Hlast).
  rewrite !bind_Ok.
  (* the endpoints *)
  match goal with
  | |- (∃ r, ?e ≫= _ = Ok r) ∨ _ =>
      assert ((∃ s, e = Ok s ∧ ∀ p, p ∈ s → p ∈ cluster)
              ∨ (e = Raise TypeError ∧ ¬ uniformly_stamped cluster))
        as [(simplified & -> & Hs1)|[-> Hbad]]; [|rewrite bind_Ok|by right]
  end.
  { assert (∀ p, p ∈ (if 1 <=? bupt_simplified_points_count self then [first] else [])
                 → p ∈ cluster) as Hs0.
    { intros p. destruct (1 <=? _); [|by intros Hp; apply elem_of_nil in Hp].
      intros Hp. by apply list_elem_of_singleton in Hp as ->. }
    revert Hs0. generalize (if 1 <=? bupt_simplified_points_count self then [first] else []).
    intros s0 Hs0.
    destruct (2 <=? _); [|by eauto].
    destruct (has_time first && has_time last) eqn:Htimes.
    - destruct (sorted_by_time_outcome cluster) as [->|[-> Hbad]].
      + rewrite bind_Ok.
        destruct (item_head_Ok (sort_by time_or_min cluster)) as (earliest & -> & He);
          [by apply sort_by_nonempty|].
        destruct (item_last_Ok (sort_by time_or_min cluster)) as (latest & -> & Hl);
          [by apply sort_by_nonempty|].
        rewrite sort_by_perm in He, Hl. rewrite !bind_Ok. left. eexists. split; [done|].
        intros p Hp. apply append_elem in Hp as [Hp| ->]; [|done].
        apply append_elem in Hp as [Hp| ->]; [by apply Hs0|done].
      + right. split; [done|]. intros [Hno|Hyes]; [|done].
        rewrite (Hno first) in Htimes by done. done.
    - left. eexists. split; [done|]. intros p Hp.
      apply append_elem in Hp as [Hp| ->]; [by apply Hs0|done]. }
  cbv zeta.
  (* the point nearest the centre, and the removal of duplicates *)
  match goal with
  | |- context [dedup_ids ?s] =>
      assert (∀ p, p ∈ s → p ∈ cluster) as Hs2; [|generalize dependent s; intros s2 Hs2]
  end.
  { destruct (3 <=? _); [|done].
    destruct (central_fold_elem cluster simplified (mean lat cluster) (mean lon cluster)
                float_inf None) as [Hc|(c & Hc & Hcin)];
      cbv zeta in Hc; destruct (foldl _ _ _) as [d o]; simpl in Hc; subst o; [done|].
    intros p. rewrite elem_of_app, list_elem_of_singleton. intros [?| ->]; auto. }
  destruct (dedup_ids_spec s2) as (_ & _ & Hsub & _).
  destruct (dedup_ids s2) as [final seen]. simpl in Hsub.
  (* padding *)
  match goal with
  | |- (∃ r, ?e ≫= _ = Ok r) ∨ _ =>
      assert ((∃ s, e = Ok s ∧ ∀ p, p ∈ s → p ∈ cluster)
              ∨ (e = Raise TypeError ∧ ¬ uniformly_stamped cluster))
        as [(padded & -> & Hpad)|[-> Hbad]]; [|rewrite bind_Ok|by right]
  end.
  { destruct (len final <? _); [|by left; eauto].
    case_bool_decide; [by left; eauto|].
    destruct (sorted_by_time_or_min_outcome (filter (λ p, id p ∉ seen) cluster))
      as [->|[-> Hbad]].
    - rewrite bind_Ok. left. eexists. split; [done|]. intros p.
      rewrite elem_of_app. intros [Hp|Hp]; [by auto|].
      apply slice_elem in Hp. rewrite sort_by_perm in Hp.
      by apply list_elem_of_filter in Hp as [_ ?].
    - right. split; [done|]. intros Huni. apply Hbad.
      eapply uniformly_stamped_subseteq; [|done].
      intros p Hp. by apply list_elem_of_filter in Hp as [_ ?]. }
  (* the closing sort *)
  destruct padded as [|p0 rest]; [by eauto|].
  destruct (has_time p0); [|by eauto].
  destruct (sorted_by_time_or_min_outcome (p0 :: rest)) as [->|[-> Hbad]]; [by eauto|].
  right. split; [done|]. intros Huni. apply Hbad.
  by eapply uniformly_stamped_subseteq.
Qed.

Lemma bupt_pass_outcome points processed cluster :
  (∃ out, bupt_pass self points processed cluster = Ok out)
  ∨ (bupt_pass self points processed cluster = Raise TypeError
     ∧ ¬ uniformly_stamped (cluster ++ points)).
Proof.
  revert processed cluster. induction points as [|point points IH];
    intros processed cluster; cbn [bupt_pass].
  - rewrite app_nil_r. case_bool_decide as Hnil; [by eauto|].
    destruct (simplify_bupt_cluster_outcome cluster) as [[r ->]|[-> Hbad]];
      [rewrite bind_Ok; eauto|by right].
  - destruct (is_in_bupt_area _ _ _).
    { specialize (IH processed (cluster ++ [point])). by rewrite <- app_assoc in IH. }
    case_bool_decide as Hnil.
    + subst cluster. destruct (IH (processed ++ [point]) []) as [?|[-> Hbad]]; [by left|].
      right. split; [done|]. intros Huni. apply Hbad.
      eapply uniformly_stamped_subseteq; [|done]. intros p Hp. by right.
    + destruct (simplify_bupt_cluster_outcome cluster) as [[r ->]|[-> Hbad]].
      * rewrite bind_Ok.
        destruct (IH (processed ++ r ++ [point]) []) as [?|[-> Hbad]]; [by left|].
        right. split; [done|]. intros Huni. apply Hbad.
        eapply uniformly_stamped_subseteq; [|done]. intros p Hp.
        apply elem_of_app. right. by right.
      * right. split; [done|]. intros Huni. apply Hbad.
        eapply uniformly_stamped_subseteq; [|done]. intros p Hp.
        apply elem_of_app. by left.
Qed.

(** Every point a pass returns is a point of the track. *)
Lemma simplify_run_elem points r (p : trackpoint) :
  simplify_run self points = Ok r → p ∈ output r → p ∈ filtered r ∧ p ∈ points.
Proof.
  intros Hrun Hp.
  apply simplify_run_inv in Hrun as (Hpass & Hid & Hloop & Hperm).
  apply bupt_pass_sub in Hpass as (out' & Hout & Hsub & _). simpl in Hout, Hsub.
  subst out'.
  apply identify_stay_areas_improved_Ok in Hid as (Htil & _).
  apply closing_sort_perm in Hperm. rewrite Hperm in Hp.
  destruct (process_points_returns (filtered r) (areas r) (stay_ids (areas r))
              {| simplified_points := []; processed_areas := ∅; simplified_calls := [] |}
              (filtered r)) as (st & Hst & Hin).
  rewrite Hloop in Hst. injection Hst as <-.
  assert (p ∈ filtered r) as Hf.
  { destruct (Hin p Hp) as [H|[?|H]]; [by apply elem_of_nil in H|done|].
    eapply elem_of_submseteq; [done|]. by apply sublist_submseteq, tiling_sublist. }
  split; [done|by apply Hsub].
Qed.

Lemma simplify_gpx_improved_inv points out :
  simplify_gpx_improved self points = Ok out →
  (points = [] ∧ out = []) ∨
  (points ≠ [] ∧ ∃ r, simplify_run self points = Ok r ∧ out = output r).
Proof.
  unfold simplify_gpx_improved. case_bool_decide as Hnil.
  - intros [= <-]. by left.
  - intros H. apply bind_Ok_inv in H as (r & Hr & H). injection H as <-.
    right. eauto.
Qed.

Lemma simplify_gpx_improved_elem points out (p : trackpoint) :
  simplify_gpx_improved self points = Ok out → p ∈ out → p ∈ points.
Proof.
  intros Hout. destruct (simplify_gpx_improved_inv _ _ Hout) as [[_ ->]|(_ & r & Hr & ->)].
  { intros H. by apply elem_of_nil in H. }
  intros Hp. by eapply simplify_run_elem.
Qed.

Lemma simplify_run_outcome points :
  (∃ r, simplify_run self points = Ok r)
  ∨ (simplify_run self points = Raise TypeError ∧ ¬ uniformly_stamped points).
Proof.
  unfold simplify_run.
  destruct (bupt_pass_outcome points [] []) as [[f Hf]|[Hf Hbad]];
    [|right; by rewrite Hf].
  rewrite Hf, bind_Ok.
  apply bupt_pass_sub in Hf as (out' & Hout & Hsub & _). simpl in Hout, Hsub. subst out'.
  destruct (identify_stay_areas_improved_spec f)
    as [(stay_areas & moving_segments & -> & Htil & _)|[-> Hbad]].
  2:{ right. split; [done|]. intros Huni. apply Hbad.
      apply uniformly_stamped_same_kind. by eapply uniformly_stamped_subseteq. }
  rewrite bind_Ok. cbv beta iota.
  destruct (process_points_returns f stay_areas (stay_ids stay_areas)
              {| simplified_points := []; processed_areas := ∅; simplified_calls := [] |}
              f) as (st & -> & Hst).
  rewrite bind_Ok.
  assert (∀ p, p ∈ simplified_points st → p ∈ points) as Hin.
  { intros p Hp. apply Hsub.
    destruct (Hst p Hp) as [H|[?|H]]; [by apply elem_of_nil in H|done|].
    eapply elem_of_submseteq; [done|]. by apply sublist_submseteq, tiling_sublist. }
  destruct (simplified_points st) as [|p0 rest]; [by left; eauto|].
  destruct (has_time p0); [|by left; eauto].
  destruct (sorted_by_time_or_min_outcome (p0 :: rest)) as [->|[-> Hbad]];
    [by left; eauto|].
  right. split; [done|]. intros Huni. apply Hbad.
  by eapply uniformly_stamped_subseteq.
Qed.

(** A pass either returns or raises [TypeError]; the fuel of the model is
    never exhausted.  It returns on every uniformly stamped track. *)
Lemma simplify_gpx_improved_outcome points :
  (∃ out, simplify_gpx_improved self points = Ok out)
  ∨ (simplify_gpx_improved self points = Raise TypeError ∧ ¬ uniformly_stamped points).
Proof.
  unfold simplify_gpx_improved. case_bool_decide as Hnil; [by eauto|].
  destruct (simplify_run_outcome points) as [[r ->]|[-> Hbad]]; [by eauto|by right].
Qed.

Lemma simplify_bupt_cluster_returns cluster :
  uniformly_stamped cluster → ∃ r, _simplify_bupt_cluster self cluster = Ok r.
Proof.
  intros Huni. by destruct (simplify_bupt_cluster_outcome cluster) as [?|[_ ?]].
Qed.

Lemma bupt_pass_returns points processed cluster :
  uniformly_stamped (cluster ++ points) →
  ∃ out, bupt_pass self points processed cluster = Ok out.
Proof.
  intros Huni. by destruct (bupt_pass_outcome points processed cluster) as [?|[_ ?]].
Qed.

Lemma simplify_gpx_improved_returns points :
  uniformly_stamped points → ∃ out, simplify_gpx_improved self points = Ok out.
Proof.
  intros Huni. by destruct (simplify_gpx_improved_outcome points) as [?|[_ ?]].
Qed.

(** ** The output of a pass is never longer than its input

    This holds for every list of points, also one that names the same point
    twice: each stay area is handed to the stay simplifier at most once, and
    every other point adds at most itself. *)

Lemma ids_length_le (l1 l2 : list trackpoint) :
  NoDup (id <$> l1) → (∀ p, p ∈ l1 → p ∈ l2) → (length l1 ≤ length l2)%nat.
Proof.
  intros Hnd Hsub.
  rewrite <- (length_fmap id l1), <- (length_fmap id l2).
  apply submseteq_length, NoDup_submseteq; [done|].
  intros x Hx. apply list_elem_of_fmap in Hx as (q & -> & Hq). by apply elem_of_ids, Hsub.
Qed.

Lemma simplify_stay_area_length area s :
  simplify_stay_area self area = Ok s → (length s ≤ length area)%nat.
Proof.
  intros Hs. pose proof Hs as Hs'. revert Hs'. unfold simplify_stay_area.
  destruct (Z.leb_spec (len area) (max_stay_points self)) as [Hle|Hgt].
  { by intros [= <-]. }
  destruct (Z.eqb_spec (max_stay_points self) 1) as [H1|H1].
  { intros H. apply bind_Ok_inv in H as (first & _ & H).
    destruct (foldl _ _ _). injection H as <-. unfold len in Hgt. simpl. lia. }
  destruct (Z.eqb_spec (max_stay_points self) 2) as [H2|H2].
  { intros H. apply bind_Ok_inv in H as (first & _ & H).
    apply bind_Ok_inv in H as (last & _ & H). injection H as <-.
    unfold len in Hgt. simpl. lia. }
  intros H. apply bind_Ok_inv in H as (first & _ & H).
  apply bind_Ok_inv in H as (simplified & _ & H).
  apply bind_Ok_inv in H as (last & _ & H). injection H as <-.
  apply ids_length_le.
  - apply dedup_ids_spec.
  - apply (proj1 (simplify_stay_area_sub area _ Hs)).
Qed.

Lemma slice_length_le {A} (l : list A) a b : (length (slice l a b) ≤ Z.to_nat (b - a))%nat.
Proof. unfold slice. rewrite length_take. lia. Qed.

Lemma simplify_bupt_cluster_length cluster r :
  _simplify_bupt_cluster self cluster = Ok r → (length r ≤ length cluster)%nat.
Proof.
  intros Hr. pose proof Hr as Hr'. revert Hr'. unfold _simplify_bupt_cluster.
  case_bool_decide as Hnil. { intros [= <-]. simpl. lia. }
  destruct (Z.leb_spec (len cluster) (bupt_simplified_points_count self)) as [Hle|Hgt].
  { by intros [= <-]. }
  intros H.
  apply bind_Ok_inv in H as (first & _ & H).
  apply bind_Ok_inv in H as (last & _ & H).
  apply bind_Ok_inv in H as (simplified & _ & H).
  cbv zeta in H.
  match type of H with context [dedup_ids ?s] => generalize dependent s end.
  intros s2 H.
  destruct (dedup_ids_spec s2) as (Hnd & Hseen & Hsub & Hall).
  destruct (dedup_ids s2) as [final seen]. simpl in Hnd, Hseen, Hsub, Hall.
  apply bind_Ok_inv in H as (final2 & Hf2eq & H).
  apply bind_Ok_inv in H as (final3 & Hperm & H). injection H as ->.
  apply closing_sort_perm in Hperm. rewrite Hperm.
  destruct (Z.ltb_spec (len final) (bupt_simplified_points_count self)) as [Hshort|Hlong].
  - case_bool_decide as Hrem.
    + injection Hf2eq as <-. unfold len in *. lia.
    + apply bind_Ok_inv in Hf2eq as (remaining & _ & Hf2eq). injection Hf2eq as <-.
      rewrite length_app.
      pose proof (slice_length_le remaining 0
        (bupt_simplified_points_count self - len final)).
      unfold len in *. lia.
  - injection Hf2eq as <-. apply ids_length_le; [done|].
    destruct (simplify_bupt_cluster_sub cluster r Hr) as [Hsubr _].
    intros p Hp. apply Hsubr. by rewrite Hperm.
Qed.

Lemma bupt_pass_length points processed cluster out :
  bupt_pass self points processed cluster = Ok out →
  (length out ≤ length processed + length cluster + length points)%nat.
Proof.
  revert processed cluster. induction points as [|point points IH];
    intros processed cluster Hrun; cbn [bupt_pass] in Hrun.
  - case_bool_decide as Hnil.
    + injection Hrun as <-. lia.
    + apply bind_Ok_inv in Hrun as (s & Hs & Hrun). injection Hrun as <-.
      apply simplify_bupt_cluster_length in Hs. rewrite length_app. simpl. lia.
  - destruct (is_in_bupt_area self (lat point) (lon point)).
    { apply IH in Hrun. rewrite length_app in Hrun. simpl in *. lia. }
    case_bool_decide as Hnil.
    + apply IH in Hrun. rewrite length_app in Hrun. simpl in *. lia.
    + apply bind_Ok_inv in Hrun as (s & Hs & Hrun).
      apply simplify_bupt_cluster_length in Hs.
      apply IH in Hrun. rewrite !length_app in Hrun. simpl in *. lia.
Qed.

Lemma pending_cons (processed : gset nat) a areas :
  pending processed (a :: areas)
  = ((if is_pending processed a then length a else 0) + pending processed areas)%nat.
Proof.
  unfold pending. rewrite filter_cons.
  destruct (is_pending processed a); [by rewrite decide_True|by rewrite decide_False].
Qed.

Lemma is_pending_mono (processed processed' : gset nat) a :
  processed ⊆ processed' → is_pending processed' a = true → is_pending processed a = true.
Proof.
  intros Hsub. destruct a as [|a0 a]; [done|]. simpl.
  rewrite !bool_decide_eq_true. set_solver.
Qed.

Lemma pending_mono areas (processed processed' : gset nat) :
  processed ⊆ processed' → (pending processed' areas ≤ pending processed areas)%nat.
Proof.
  intros Hsub. induction areas as [|a areas IH]; [done|].
  rewrite !pending_cons.
  destruct (is_pending processed' a) eqn:Hp'; [|lia].
  rewrite (is_pending_mono processed processed' a Hsub Hp'). lia.
Qed.

Lemma pending_pick areas (p : trackpoint) (processed : gset nat) a0 rest :
  pick_area areas p processed = Some (a0 :: rest) →
  (pending ({[id a0]} ∪ processed) areas + length (a0 :: rest)
   ≤ pending processed areas)%nat.
Proof.
  induction areas as [|b areas IH]; cbn [pick_area]; [done|].
  assert (processed ⊆ {[id a0]} ∪ processed) as Hsub by set_solver.
  pose proof (pending_mono areas _ _ Hsub) as Hmono.
  rewrite !pending_cons.
  assert (pick_area areas p processed = Some (a0 :: rest) →
          (if is_pending ({[id a0]} ∪ processed) b then length b else 0)
          + pending ({[id a0]} ∪ processed) areas + length (a0 :: rest)
          ≤ (if is_pending processed b then length b else 0) + pending processed areas)%nat
    as Hskip.
  { intros H. apply IH in H.
    destruct (is_pending ({[id a0]} ∪ processed) b) eqn:Hp'; [|lia].
    rewrite (is_pending_mono processed _ b Hsub Hp'). lia. }
  destruct b as [|b0 brest]; [done|].
  destruct (py_in p (b0 :: brest)); [|done].
  case_bool_decide as Hfresh; [|done].
  intros [= -> ->]. cbn [is_pending andb].
  rewrite (bool_decide_eq_true_2 (id a0 ∉ processed)) by done.
  rewrite (bool_decide_eq_false_2 (id a0 ∉ {[id a0]} ∪ processed)) by set_solver. lia.
Qed.

Lemma pending_le_join areas (processed : gset nat) :
  (pending processed areas ≤ length (mjoin areas))%nat.
Proof.
  induction areas as [|a areas IH]; [done|].
  change (mjoin (a :: areas)) with (a ++ mjoin areas).
  rewrite length_app, pending_cons. destruct (is_pending processed a); lia.
Qed.

Lemma moving_count_stay (stay_points_set : gset nat) area :
  (∀ x, x ∈ id <$> area → x ∈ stay_points_set) → moving_count stay_points_set area = 0%nat.
Proof.
  unfold moving_count. induction area as [|p area IH]; intros Hstay; [done|].
  rewrite filter_cons, decide_False.
  - apply IH. intros x Hx. apply Hstay. rewrite fmap_cons. by right.
  - intros Hout. apply Hout, Hstay. rewrite fmap_cons. by left.
Qed.

Lemma moving_count_app (stay_points_set : gset nat) (l1 l2 : list trackpoint) :
  moving_count stay_points_set (l1 ++ l2)
  = (moving_count stay_points_set l1 + moving_count stay_points_set l2)%nat.
Proof. unfold moving_count. by rewrite filter_app, length_app. Qed.

Lemma moving_count_tiling points areas (stay_points_set : gset nat) :
  tiling points areas →
  (∀ x, x ∈ id <$> mjoin areas → x ∈ stay_points_set) →
  (moving_count stay_points_set points + length (mjoin areas) ≤ length points)%nat.
Proof.
  induction 1 as [|p points areas Htil IH|area points areas Hne Htil IH]; intros Hstay.
  - done.
  - specialize (IH Hstay). change (p :: points) with ([p] ++ points).
    rewrite moving_count_app. unfold moving_count at 1. rewrite filter_cons.
    case_decide; simpl in *; lia.
  - change (mjoin (area :: areas)) with (area ++ mjoin areas) in *.
    rewrite moving_count_app, !length_app, moving_count_stay.
    + assert (moving_count stay_points_set points + length (mjoin areas)
              ≤ length points)%nat; [|lia].
      apply IH. intros x Hx. apply Hstay. rewrite fmap_app, elem_of_app. by right.
    + intros x Hx. apply Hstay. rewrite fmap_app, elem_of_app. by left.
Qed.

Lemma process_points_length all_points stay_areas (stay_points_set : gset nat) st st' l :
  process_points self all_points stay_areas stay_points_set st l = Ok st' →
  (length (simplified_points st') + pending (processed_areas st') stay_areas
   ≤ length (simplified_points st) + moving_count stay_points_set l
     + pending (processed_areas st) stay_areas)%nat.
Proof.
  revert st. induction l as [|q l IH]; intros st Hrun; cbn [process_points] in Hrun.
  { injection Hrun as <-. lia. }
  apply bind_Ok_inv in Hrun as (st1 & Hstep & Hrun). apply IH in Hrun.
  change (q :: l) with ([q] ++ l). rewrite moving_count_app.
  assert (length (simplified_points st1) + pending (processed_areas st1) stay_areas
          ≤ length (simplified_points st) + moving_count stay_points_set [q]
            + pending (processed_areas st) stay_areas)%nat; [|lia].
  clear Hrun IH. unfold process_point in Hstep. unfold moving_count.
  rewrite filter_cons. case_bool_decide as Hin.
  - rewrite decide_False by (intros Hout; by apply Hout).
    destruct (pick_area _ _ _) as [area|] eqn:Hpick.
    + apply bind_Ok_inv in Hstep as (s & Hs & Hstep).
      pose proof (pick_area_nonempty _ _ _ _ Hpick) as [_ Hne].
      destruct area as [|a0 area]; [done|].
      rewrite (proj1 (item_nonempty a0 area)), bind_Ok in Hstep. injection Hstep as <-.
      apply simplify_stay_area_length in Hs. apply pending_pick in Hpick.
      simpl in *. rewrite length_app. lia.
    + injection Hstep as <-. simpl. lia.
  - rewrite decide_True by done.
    destruct (should_keep_moving_point _ _ _ _); injection Hstep as <-; simpl;
      rewrite ?length_app; simpl; lia.
Qed.

Lemma simplify_gpx_improved_length points out :
  simplify_gpx_improved self points = Ok out → (length out ≤ length points)%nat.
Proof.
  intros Hout.
  destruct (simplify_gpx_improved_inv _ _ Hout) as [[_ ->]|(_ & r & Hr & ->)].
  { simpl. lia. }
  apply simplify_run_inv in Hr as (Hpass & Hid & Hloop & Hperm).
  apply bupt_pass_length in Hpass. simpl in Hpass.
  apply identify_stay_areas_improved_Ok in Hid as (Htil & _).
  apply process_points_length in Hloop. simpl in Hloop.
  apply closing_sort_perm in Hperm. rewrite Hperm.
  pose proof (pending_le_join (areas r) ∅).
  pose proof (moving_count_tiling (filtered r) (areas r) (stay_ids (areas r)) Htil)
    as Hcount.
  assert (moving_count (stay_ids (areas r)) (filtered r) + length (mjoin (areas r))
          ≤ length (filtered r))%nat.
  { apply Hcount. intros x Hx. by apply elem_of_stay_ids. }
  lia.
Qed.

(** On a uniformly stamped track both passes return. *)
Lemma rerun_returns points :
  uniformly_stamped points →
  ∃ first_pass second_pass,
    simplify_gpx_improved self points = Ok first_pass ∧
    simplify_gpx_improved self first_pass = Ok second_pass ∧
    (length second_pass ≤ length first_pass)%nat.
Proof.
  intros Huni.
  destruct (simplify_gpx_improved_returns points Huni) as [y Hy].
  destruct (simplify_gpx_improved_returns y) as [z Hz].
  { eapply uniformly_stamped_subseteq; [|done].
    intros p. by apply simplify_gpx_improved_elem. }
  exists y, z. split; [done|]. split; [done|]. by eapply simplify_gpx_improved_length.
Qed.

(** Whenever a first pass returns and a second pass over its output
    returns, the second output has at most as many points as the first. *)
Lemma rerun_never_grows points first_pass second_pass :
  simplify_gpx_improved self points = Ok first_pass →
  simplify_gpx_improved self first_pass = Ok second_pass →
  (length second_pass ≤ length first_pass)%nat.
Proof. intros _ Hsecond. by eapply simplify_gpx_improved_length. Qed.

End Properties.

(** * Further properties of the code *)

Section Extra.
Context {PF : PyFloat}.
Variable self : GPXSimplifier.
Implicit Types (points area l final cluster cand : list trackpoint).
Implicit Types (stay_areas areas past todo : list (list trackpoint)).

(** ** Sorting *)

Lemma insert_by_sorted key x l :
  StronglySorted (λ a b, key a ≤ key b) l →
  StronglySorted (λ a b, key a ≤ key b) (insert_by key x l).
Proof.
  induction 1 as [|y l Hl IH Hy]; simpl.
  - repeat constructor.
  - destruct (Z.leb_spec (key x) (key y)) as [Hle|Hgt].
    + constructor; [by constructor|]. constructor; [done|].
      eapply Forall_impl; [exact Hy|]. simpl. intros z Hz. lia.
    + constructor; [done|].
      rewrite (insert_by_perm key x l). constructor; [lia|done].
Qed.

Lemma sort_by_sorted key l : StronglySorted (λ a b, key a ≤ key b) (sort_by key l).
Proof.
  unfold sort_by. induction l as [|x l IH]; simpl; [constructor|].
  by apply insert_by_sorted.
Qed.

Lemma sorted_head_least key l (x y : trackpoint) :
  StronglySorted (λ a b, key a ≤ key b) l → head l = Some x → y ∈ l → key x ≤ key y.
Proof.
  intros Hs Hh Hy. destruct l as [|z l]; [done|]. injection Hh as ->.
  apply StronglySorted_inv in Hs as [_ Hall].
  apply elem_of_cons in Hy as [->|Hy]; [lia|].
  by eapply Forall_forall in Hall.
Qed.

Lemma sorted_last_greatest key l (x y : trackpoint) :
  StronglySorted (λ a b, key a ≤ key b) l → list.last l = Some x → y ∈ l → key y ≤ key x.
Proof.
  induction 1 as [|z l Hl IH Hz]; intros Hlast Hy; [done|].
  destruct l as [|z' l].
  - injection Hlast as ->. apply list_elem_of_singleton in Hy as ->. lia.
  - rewrite last_cons_cons in Hlast.
    apply elem_of_cons in Hy as [->|Hy]; [|by apply IH].
    eapply Forall_forall in Hz; [exact Hz|].
    rewrite last_lookup in Hlast. by apply list_elem_of_lookup_2 in Hlast.
Qed.

(** ** The stages of the zone filter *)

Lemma simplify_bupt_cluster_stages cluster r :
  cluster ≠ [] → bupt_simplified_points_count self < len cluster →
  _simplify_bupt_cluster self cluster = Ok r →
  ∃ first last simplified selected final seen padded,
    head cluster = Some first ∧ list.last cluster = Some last ∧
    (* the first point, then the chronological or positional endpoints *)
    ((bupt_simplified_points_count self < 2 ∧
      simplified = (if 1 <=? bupt_simplified_points_count self then [first] else []))
     ∨ (2 ≤ bupt_simplified_points_count self ∧ has_time first && has_time last = true ∧
        ∃ sorted_cluster earliest latest,
          sorted_by_time cluster = Ok sorted_cluster ∧
          head sorted_cluster = Some earliest ∧ list.last sorted_cluster = Some latest ∧
          simplified = append_new latest (append_new earliest [first]))
     ∨ (2 ≤ bupt_simplified_points_count self ∧ has_time first && has_time last = false ∧
        simplified = append_new last [first])) ∧
    (* the point nearest the centre *)
    ((bupt_simplified_points_count self < 3 ∧ selected = simplified)
     ∨ (3 ≤ bupt_simplified_points_count self ∧
        (selected = simplified
         ∨ ∃ c, c ∈ cluster ∧ selected = simplified ++ [c]))) ∧
    dedup_ids selected = (final, seen) ∧
    (* padding *)
    padded =
      (if len final <? bupt_simplified_points_count self then
         if bool_decide (filter (λ p, id p ∉ seen) cluster = []) then final
         else final ++ slice (sort_by time_or_min (filter (λ p, id p ∉ seen) cluster)) 0
                         (bupt_simplified_points_count self - len final)
       else final) ∧
    (* the closing sort *)
    r = match padded with
        | p :: _ => if has_time p then sort_by time_or_min padded else padded
        | [] => padded
        end.
Proof.
  intros Hne Hgt. unfold _simplify_bupt_cluster.
  rewrite bool_decide_eq_false_2 by done.
  destruct (Z.leb_spec (len cluster) (bupt_simplified_points_count self)) as [?|_]; [lia|].
  rewrite item_head, item_last.
  destruct cluster as [|c0 cluster']; [done|]. set (cluster := c0 :: cluster') in *.
  destruct (last_is_Some cluster) as [_ [last Hlast]]; [done|].
  change (head cluster) with (Some c0). rewrite Hlast, !bind_Ok.
  intros H. apply bind_Ok_inv in H as (simplified & Hsimp & H).
  cbv zeta in H.
  match type of H with context [dedup_ids ?s] => set (selected := s) in * end.
  destruct (dedup_ids selected) as [final seen] eqn:Hdedup.
  apply bind_Ok_inv in H as (padded & Hpad & H).
  apply bind_Ok_inv in H as (sorted & Hclose & H). injection H as <-.
  exists c0, last, simplified, selected, final, seen, padded.
  split; [done|]. split; [done|]. split; [|split; [|split; [done|split]]].
  3:{ destruct (len final <? _); [|by injection Hpad].
      case_bool_decide; [by injection Hpad|].
      apply bind_Ok_inv in Hpad as (remaining & Hrem%sorted_by_time_or_min_inv & Hpad).
      subst remaining. by injection Hpad. }
  3:{ destruct padded as [|p0 rest]; [by injection Hclose|].
      destruct (has_time p0); [by apply sorted_by_time_or_min_inv in Hclose|].
      by injection Hclose. }
  - destruct (Z.leb_spec 2 (bupt_simplified_points_count self)) as [H2|H2].
    + destruct (Z.leb_spec 1 (bupt_simplified_points_count self)) as [_|?]; [|lia].
      destruct (has_time c0 && has_time last) eqn:Htimes.
      * right. left. split; [done|]. split; [done|].
        apply bind_Ok_inv in Hsimp as (sorted_cluster & Hsorted & Hsimp).
        apply bind_Ok_inv in Hsimp as (earliest & Hearliest & Hsimp).
        apply bind_Ok_inv in Hsimp as (latest & Hlatest & Hsimp).
        rewrite item_head in Hearliest. rewrite item_last in Hlatest.
        destruct (head sorted_cluster) eqn:Hh; [|done].
        destruct (list.last sorted_cluster) eqn:Hl; [|done].
        injection Hearliest as ->. injection Hlatest as ->. injection Hsimp as <-.
        exists sorted_cluster, earliest, latest. done.
      * right. right. split; [done|]. split; [done|]. by injection Hsimp as <-.
    + left. split; [lia|]. by injection Hsimp as <-.
  - subst selected. destruct (Z.leb_spec 3 (bupt_simplified_points_count self)) as [H3|H3];
      [|left; split; [lia|done]].
    right. split; [done|].
    destruct (central_fold_elem cluster simplified (mean lat cluster) (mean lon cluster)
                float_inf None) as [Hc|(c & Hc & Hcin)];
      cbv zeta in Hc; destruct (foldl _ _ _) as [d o]; simpl in Hc; subst o; eauto.
Qed.

Lemma append_new_length (x : trackpoint) l :
  (length l ≤ length (append_new x l) ≤ length l + 1)%nat.
Proof. unfold append_new. destruct (negb _); rewrite ?length_app; simpl; lia. Qed.

Lemma append_new_elem (x y : trackpoint) l :
  y ∈ append_new x l ↔ y ∈ l ∨ (py_in x l = false ∧ y = x).
Proof.
  unfold append_new. destruct (py_in x l); simpl.
  - split; [by left|]. by intros [?|[? _]].
  - rewrite elem_of_app, list_elem_of_singleton. split.
    + intros [?| ->]; [by left|by right].
    + intros [?|[_ ->]]; [by left|by right].
Qed.

Lemma append_new_ids (x : trackpoint) l : id x ∈ id <$> append_new x l.
Proof.
  unfold append_new. destruct (py_in x l) eqn:Hin; simpl.
  - by apply py_in_iff.
  - rewrite fmap_app, elem_of_app. right. by left.
Qed.

Lemma dedup_ids_length l : (length (dedup_ids l).1 ≤ length l)%nat.
Proof.
  destruct (dedup_ids_spec l) as (Hnd & _ & Hsub & _). by apply ids_length_le.
Qed.

Lemma seen_split_length (seen : gset nat) l final :
  NoDup (id <$> l) → (∀ x, x ∈ seen ↔ x ∈ id <$> final) →
  (length l ≤ length (filter (λ p, id p ∉ seen) l) + length final)%nat.
Proof.
  intros Hnd Hseen.
  assert (length (filter (λ p, id p ∈ seen) l) ≤ length final)%nat as Hin.
  { rewrite <- (length_fmap id (filter _ l)), <- (length_fmap id final).
    apply submseteq_length, NoDup_submseteq.
    - eapply NoDup_ids_sublist; [apply sublist_filter|done].
    - intros x Hx. apply list_elem_of_fmap in Hx as (q & -> & Hq).
      apply list_elem_of_filter in Hq as [Hq _]. by apply Hseen. }
  assert (length l = length (filter (λ p, id p ∉ seen) l)
                     + length (filter (λ p, id p ∈ seen) l))%nat as ->; [|lia].
  clear. induction l as [|p l IH]; [done|].
  rewrite !filter_cons. destruct (decide (id p ∈ seen)).
  - rewrite decide_False by (intros Hn; by apply Hn). simpl. lia.
  - rewrite decide_True by done. simpl. lia.
Qed.

(** X1.  Size of what the zone filter returns.  A run of distinct points
    that is longer than the target count is reduced to at least the target
    count and at most one point more. *)
Theorem zone_filter_size cluster r :
  NoDup (id <$> cluster) →
  0 ≤ bupt_simplified_points_count self < len cluster →
  _simplify_bupt_cluster self cluster = Ok r →
  bupt_simplified_points_count self ≤ len r ≤ bupt_simplified_points_count self + 1.
Proof.
  intros Hnd [Hcount Hgt] Hr.
  assert (cluster ≠ []) as Hne.
  { intros ->. unfold len in Hgt. simpl in Hgt. lia. }
  destruct (simplify_bupt_cluster_stages cluster r Hne Hgt Hr)
    as (first & last & simplified & selected & final & seen & padded
        & Hfirst & Hlast & Hsimp & Hsel & Hdedup & Hpad & ->).
  assert (len (match padded with
               | [] => padded
               | p :: _ => if has_time p then sort_by time_or_min padded else padded
               end) = len padded) as ->.
  { unfold len. destruct padded as [|p0 rest]; [done|].
    destruct (has_time p0); [by rewrite sort_by_perm|done]. }
  pose proof (dedup_ids_length selected) as Hfinal.
  destruct (dedup_ids_spec selected) as (_ & Hseen & _ & _).
  rewrite Hdedup in Hfinal, Hseen. simpl in Hfinal, Hseen.
  assert (len selected ≤ bupt_simplified_points_count self + 1) as Hselected.
  { unfold len.
    assert ((length simplified ≤ 3)%nat ∧
            (bupt_simplified_points_count self < 2 →
             len simplified ≤ bupt_simplified_points_count self))
      as [Hs3 Hs1].
    { destruct Hsimp as [[? ->]|[(? & _ & sc & e & l & _ & _ & _ & ->)|(? & _ & ->)]].
      - unfold len. destruct (Z.leb_spec 1 (bupt_simplified_points_count self)); simpl; lia.
      - pose proof (append_new_length e [first]).
        pose proof (append_new_length l (append_new e [first])). simpl in *. lia.
      - pose proof (append_new_length last [first]). simpl in *. lia. }
    unfold len in Hs1.
    destruct Hsel as [[? ->]|[? [->|(c & _ & ->)]]]; rewrite ?length_app; simpl; lia. }
  subst padded.
  destruct (Z.ltb_spec (len final) (bupt_simplified_points_count self)) as [Hshort|Hlong];
    [|unfold len in *; lia].
  pose proof (seen_split_length seen cluster final Hnd Hseen) as Hsplit.
  case_bool_decide as Hrem.
  { rewrite Hrem in Hsplit. unfold len in *. simpl in Hsplit. lia. }
  unfold len in *. rewrite length_app, slice_length.
  - lia.
  - lia.
  - unfold len. rewrite sort_by_perm. lia.
Qed.

(** X2.  When the target count is at least 2 and smaller than the run, and
    the first and the last point of the run carry timestamps, a point
    without a timestamp anywhere in the run makes the zone filter raise
    [TypeError]: sorting the run by timestamp fails. *)
Theorem zone_filter_type_error cluster first last (p : trackpoint) :
  2 ≤ bupt_simplified_points_count self < len cluster →
  head cluster = Some first → list.last cluster = Some last →
  has_time first = true → has_time last = true →
  p ∈ cluster → has_time p = false →
  _simplify_bupt_cluster self cluster = Raise TypeError.
Proof.
  intros [H2 Hgt] Hfirst Hlast Hf Hl Hp Hno. unfold _simplify_bupt_cluster.
  rewrite bool_decide_eq_false_2 by (intros ->; by apply elem_of_nil in Hp).
  destruct (Z.leb_spec (len cluster) (bupt_simplified_points_count self)) as [?|_]; [lia|].
  rewrite item_head, item_last, Hfirst, Hlast, !bind_Ok.
  destruct (Z.leb_spec 2 (bupt_simplified_points_count self)) as [_|?]; [|lia].
  rewrite Hf, Hl. simpl. unfold sorted_by_time.
  destruct (Z.leb_spec (len cluster) 1) as [?|_]; [lia|].
  assert (forallb has_time cluster = false) as ->; [|done].
  apply not_true_iff_false. intros Hall.
  rewrite forallb_forall in Hall. rewrite (Hall p) in Hno; [done|]. by apply list_elem_of_In.
Qed.

(** X3.  On a run of distinct points that all carry timestamps of one kind
    (all offset-naive or all offset-aware), longer than a target count of
    at least 2, the zone filter returns its points in chronological order,
    and among them a point no later than every point of the run and a point
    no earlier than every point of the run. *)
Theorem zone_filter_chronological cluster :
  NoDup (id <$> cluster) →
  2 ≤ bupt_simplified_points_count self < len cluster →
  (∀ p, p ∈ cluster → has_time p = true) →
  same_kind cluster →
  ∃ r earliest latest,
    _simplify_bupt_cluster self cluster = Ok r ∧ chronological r ∧
    earliest ∈ r ∧ latest ∈ r ∧
    ∀ p, p ∈ cluster → time_or_min earliest ≤ time_or_min p ≤ time_or_min latest.
Proof.
  intros Hnd [H2 Hgt] Htimed Hkind.
  assert (cluster ≠ []) as Hne.
  { intros ->. unfold len in Hgt. simpl in Hgt. lia. }
  destruct (simplify_bupt_cluster_returns self cluster) as [r Hr]; [by right|].
  exists r.
  destruct (simplify_bupt_cluster_stages cluster r Hne Hgt Hr)
    as (first & last & simplified & selected & final & seen & padded
        & Hfirst & Hlast & Hsimp & Hsel & Hdedup & Hpad & Hrdef).
  destruct (simplify_bupt_cluster_sub self cluster r Hr) as [Hsub _].
  destruct Hsimp as [[? _]|[(_ & _ & sc & e & l & Hsorted & He & Hl & ->)|(_ & Htimes & _)]];
    [lia| |].
  2:{ rewrite (Htimed first), (Htimed last) in Htimes; [done|..].
      - rewrite last_lookup in Hlast. by apply list_elem_of_lookup_2 in Hlast.
      - destruct cluster; [done|]. injection Hfirst as ->. by left. }
  exists e, l.
  apply sorted_by_time_inv in Hsorted as ->.
  pose proof (sort_by_perm time_or_min cluster) as Hperm.
  pose proof (sort_by_sorted time_or_min cluster) as Hsortedc.
  assert (e ∈ cluster) as Hec.
  { rewrite <- Hperm. destruct (sort_by _ _); [done|]. injection He as ->. by left. }
  assert (l ∈ cluster) as Hlc.
  { rewrite <- Hperm. rewrite last_lookup in Hl. by apply list_elem_of_lookup_2 in Hl. }
  (* every selected identity survives to the result *)
  assert (∀ q, q ∈ cluster → id q ∈ id <$> selected → q ∈ r) as Hkeep.
  { intros q Hq Hid.
    destruct (dedup_ids_spec selected) as (_ & Hseen & Hfsub & Hall).
    rewrite Hdedup in Hseen, Hfsub, Hall. simpl in Hseen, Hfsub, Hall.
    apply Hall, Hseen, list_elem_of_fmap in Hid as (q' & Heq & Hq').
    assert (q' ∈ padded) as Hpadded.
    { subst padded. destruct (_ <? _); [|done]. case_bool_decide; [done|].
      apply elem_of_app. by left. }
    assert (q' ∈ r) as Hr'.
    { subst r. destruct padded as [|p0 rest]; [done|].
      destruct (has_time p0); [by rewrite sort_by_perm|done]. }
    assert (q = q') as ->; [|done].
    apply (NoDup_ids_inj cluster); auto. }
  assert (∀ q, q ∈ cluster → id q ∈ id <$> append_new l (append_new e [first]) → q ∈ r)
    as Hkeep'.
  { intros q Hq Hid. apply Hkeep; [done|].
    destruct Hsel as [[_ ->]|[_ [->|(c & _ & ->)]]]; try done.
    rewrite fmap_app, elem_of_app. by left. }
  split; [done|]. split; [|split; [|split]].
  - rewrite Hrdef. clear Hpad. destruct padded as [|p0 rest]; [constructor|].
    assert (has_time p0 = true) as ->; [|apply sort_by_sorted].
    apply Htimed, Hsub. rewrite Hrdef.
    destruct (has_time p0); [rewrite sort_by_perm|]; by left.
  - apply Hkeep'; [done|].
    pose proof (append_new_ids e [first]) as Hid.
    unfold append_new at 1. destruct (negb _); [|done].
    rewrite fmap_app, elem_of_app. by left.
  - apply Hkeep'; [done|]. apply append_new_ids.
  - intros p Hp. rewrite <- Hperm in Hp. split.
    + by eapply sorted_head_least.
    + by eapply sorted_last_greatest.
Qed.

(** ** The override-zone pre-pass *)

Lemma filter_outside_inside l :
  (∀ p, p ∈ l → is_in_bupt_area self (lat p) (lon p) = true) →
  filter (λ p, is_in_bupt_area self (lat p) (lon p) = false) l = [].
Proof.
  induction l as [|q l IH]; intros Hin; [done|].
  rewrite filter_cons, decide_False.
  - apply IH. intros p Hp. apply Hin. by right.
  - rewrite (Hin q) by (by left). done.
Qed.

Lemma bupt_pass_outside points processed cluster out :
  (∀ p, p ∈ cluster → is_in_bupt_area self (lat p) (lon p) = true) →
  bupt_pass self points processed cluster = Ok out →
  filter (λ p, is_in_bupt_area self (lat p) (lon p) = false) out
  = filter (λ p, is_in_bupt_area self (lat p) (lon p) = false) processed
    ++ filter (λ p, is_in_bupt_area self (lat p) (lon p) = false) points.
Proof.
  revert processed cluster. induction points as [|point points IH];
    intros processed cluster Hin Hrun; cbn [bupt_pass] in Hrun.
  - case_bool_decide as Hnil.
    + injection Hrun as <-. by rewrite app_nil_r.
    + apply bind_Ok_inv in Hrun as (s & Hs & Hrun). injection Hrun as <-.
      destruct (simplify_bupt_cluster_sub self _ _ Hs) as [Hsub _].
      rewrite filter_app, (filter_outside_inside s); [done|]. auto.
  - rewrite filter_cons.
    destruct (is_in_bupt_area self (lat point) (lon point)) eqn:Hpoint.
    { rewrite decide_False by done. apply IH in Hrun; [done|].
      intros p Hp. apply elem_of_app in Hp as [Hp|Hp]; [by auto|].
      by apply list_elem_of_singleton in Hp as ->. }
    rewrite decide_True by done.
    case_bool_decide as Hnil.
    + apply IH in Hrun; [|done]. rewrite Hrun, filter_app, filter_cons, decide_True by done.
      by rewrite <- app_assoc.
    + apply bind_Ok_inv in Hrun as (s & Hs & Hrun).
      destruct (simplify_bupt_cluster_sub self _ _ Hs) as [Hsub _].
      apply IH in Hrun; [|by intros p Hp; apply elem_of_nil in Hp].
      rewrite Hrun, !filter_app, (filter_outside_inside s) by auto.
      rewrite filter_cons, decide_True by done. simpl. by rewrite <- app_assoc.
Qed.

(** X4.  Points outside the override zone pass through the pre-pass
    untouched and in order: dropping the points inside the zone from the
    output and from the input leaves the same list. *)
Theorem zone_pass_keeps_outside points out :
  bupt_pass self points [] [] = Ok out →
  filter (λ p, is_in_bupt_area self (lat p) (lon p) = false) out
  = filter (λ p, is_in_bupt_area self (lat p) (lon p) = false) points.
Proof.
  intros Hrun. apply bupt_pass_outside in Hrun; [done|].
  intros p Hp. by apply elem_of_nil in Hp.
Qed.

Lemma bupt_pass_all_outside points processed :
  (∀ p, p ∈ points → is_in_bupt_area self (lat p) (lon p) = false) →
  bupt_pass self points processed [] = Ok (processed ++ points).
Proof.
  revert processed. induction points as [|point points IH]; intros processed Hout;
    cbn [bupt_pass].
  - by rewrite app_nil_r.
  - rewrite (Hout point) by (by left). rewrite bool_decide_eq_true_2 by done.
    rewrite IH, <- app_assoc; [done|]. intros p Hp. apply Hout. by right.
Qed.

(** X5.  The pre-pass returns a selection of the points of the track: every
    point it returns is a point of the track, it returns no more points than
    the track has, and it returns no point twice when the points of the
    track are distinct. *)
Theorem zone_pass_selection points out :
  bupt_pass self points [] [] = Ok out →
  (∀ p, p ∈ out → p ∈ points) ∧ (length out ≤ length points)%nat ∧
  (NoDup (id <$> points) → NoDup (id <$> out)).
Proof.
  intros Hrun. pose proof (bupt_pass_length self _ _ _ _ Hrun) as Hlen.
  apply bupt_pass_sub in Hrun as (out' & -> & Hsub & Hnd). simpl in *.
  repeat split; auto.
Qed.

(** ** The segmenter *)

Lemma close_invalid_shape points i :
  0 ≤ i < len points →
  ∃ next, i < next ≤ len points ∧
    close_invalid points i
    = Ok (if i + 1 <? next then Some (slice points i next) else None, next).
Proof.
  intros Hi. unfold close_invalid.
  destruct (walk_spec (S (length points)) points i) as (i' & Hw & Hi');
    [done|unfold len; lia|].
  rewrite Hw, bind_Ok. exists (i' + 1). split; [lia|].
  destruct (Z.ltb_spec i i'), (Z.ltb_spec (i + 1) (i' + 1)); try lia; done.
Qed.

Lemma cover_gaps gap points areas segments :
  cover points areas segments → cover (gap ++ points) areas segments.
Proof. intros H. induction gap as [|g gap IH]; [done|]. by apply cover_gap. Qed.

Lemma segment_cover fuel points i stay_areas moving_segments :
  0 ≤ i ≤ len points → len points - i < Z.of_nat fuel →
  (∃ new_areas new_segments,
     segment self fuel points i stay_areas moving_segments
       = Ok (stay_areas ++ new_areas, moving_segments ++ new_segments) ∧
     cover (drop (Z.to_nat i) points) new_areas new_segments ∧
     Forall (λ a, is_stay_area self a = Ok true) new_areas)
  ∨ segment self fuel points i stay_areas moving_segments = Raise TypeError.
Proof.
  revert i stay_areas moving_segments.
  induction fuel as [|fuel IH]; intros i stay_areas moving_segments Hi Hfuel; [lia|].
  cbn [segment]. destruct (Z.ltb_spec i (len points)) as [Hlt|Hge].
  2:{ left. exists [], []. rewrite !app_nil_r. split; [done|].
      rewrite drop_ge by (unfold len in Hge; lia). split; constructor. }
  destruct (item_in_range points i) as (current & Hitem & Hcur); [lia|].
  rewrite Hitem, bind_Ok.
  rewrite <- (slice_singleton points i current) by (done || lia).
  destruct (scan_spec self (S (length points)) points i (i + 1)) as (j & Hscan & Hj);
    [lia|lia|unfold len; lia|].
  rewrite Hscan, bind_Ok. cbv beta iota.
  destruct (is_stay_area_outcome self (slice points i j)) as [[valid Hvalid]|[Hvalid _]];
    [|right; by rewrite Hvalid].
  rewrite Hvalid, bind_Ok. destruct valid.
  - destruct (IH j (stay_areas ++ [slice points i j]) moving_segments)
      as [(As & Ms & Hrun & Hcov & Hval)|Hrun]; [lia|lia| |by right].
    left. exists (slice points i j :: As), Ms. rewrite Hrun, <- app_assoc.
    split; [done|]. split; [|by constructor].
    rewrite (drop_slice points i j) by lia. apply cover_area; [|done].
    intros Hnil. apply (f_equal length) in Hnil. rewrite slice_length in Hnil by lia.
    simpl in Hnil. lia.
  - destruct (close_invalid_shape points i) as (next & Hnext & Hclose); [lia|].
    rewrite Hclose, bind_Ok. cbv beta iota.
    destruct (Z.ltb_spec (i + 1) next) as [Hlong|Hshort].
    + destruct (IH next stay_areas (moving_segments ++ [slice points i next]))
        as [(As & Ms & Hrun & Hcov & Hval)|Hrun]; [lia|lia| |by right].
      left. exists As, (slice points i next :: Ms). rewrite Hrun, <- app_assoc.
      split; [done|]. split; [|done].
      rewrite (drop_slice points i next) by lia. apply cover_segment; [|done].
      intros Hnil. apply (f_equal length) in Hnil. rewrite slice_length in Hnil by lia.
      simpl in Hnil. lia.
    + destruct (IH next stay_areas moving_segments)
        as [(As & Ms & Hrun & Hcov & Hval)|Hrun]; [lia|lia| |by right].
      left. exists As, Ms. rewrite Hrun. split; [done|]. split; [|done].
      rewrite (drop_slice points i next) by lia. by apply cover_gaps.
Qed.

Lemma identify_cover points stay_areas moving_segments :
  identify_stay_areas_improved self points = Ok (stay_areas, moving_segments) →
  cover points stay_areas moving_segments ∧
  Forall (λ a, is_stay_area self a = Ok true) stay_areas.
Proof.
  unfold identify_stay_areas_improved. destruct points as [|p points].
  { intros [= <- <-]. split; constructor. }
  intros Hrun.
  destruct (segment_cover (S (length (p :: points))) (p :: points) 0 [] [])
    as [(As & Ms & Hrun' & Hcov & Hval)|Hrun']; [unfold len; lia..| |];
    rewrite Hrun' in Hrun; [|done].
  injection Hrun as <- <-. split; [exact Hcov|exact Hval].
Qed.


Lemma cover_elem points areas segments :
  cover points areas segments →
  (∀ p, p ∈ mjoin areas → p ∈ points) ∧ (∀ p, p ∈ mjoin segments → p ∈ points).
Proof.
  induction 1 as [|q points areas segments _ [IHa IHs]
                  |area points areas segments _ _ [IHa IHs]
                  |seg points areas segments _ _ [IHa IHs]].
  - done.
  - split; intros p Hp; right; auto.
  - split; intros p Hp; rewrite elem_of_app.
    + change (mjoin (area :: areas)) with (area ++ mjoin areas) in Hp.
      apply elem_of_app in Hp as [?|?]; auto.
    + auto.
  - split; intros p Hp; rewrite elem_of_app.
    + auto.
    + change (mjoin (seg :: segments)) with (seg ++ mjoin segments) in Hp.
      apply elem_of_app in Hp as [?|?]; auto.
Qed.

Lemma cover_disjoint points areas segments (p : trackpoint) :
  cover points areas segments → NoDup points →
  p ∈ mjoin areas → p ∈ mjoin segments → False.
Proof.
  induction 1 as [|q points areas segments Hcov IH
                  |area points areas segments _ Hcov IH
                  |seg points areas segments _ Hcov IH]; intros Hnd Ha Hs.
  - by apply elem_of_nil in Ha.
  - apply NoDup_cons in Hnd as [_ Hnd]. by apply IH.
  - apply NoDup_app in Hnd as (_ & Hdisj & Hnd).
    change (mjoin (area :: areas)) with (area ++ mjoin areas) in Ha.
    apply elem_of_app in Ha as [Ha|Ha]; [|by apply IH].
    apply (Hdisj p Ha). by apply (proj2 (cover_elem _ _ _ Hcov)).
  - apply NoDup_app in Hnd as (_ & Hdisj & Hnd).
    change (mjoin (seg :: segments)) with (seg ++ mjoin segments) in Hs.
    apply elem_of_app in Hs as [Hs|Hs]; [|by apply IH].
    apply (Hdisj p Hs). by apply (proj1 (cover_elem _ _ _ Hcov)).
Qed.

(** X7.  On a track of distinct points, no point is both in a stay area and
    in a moving segment. *)
Theorem areas_and_segments_disjoint points stay_areas moving_segments a s (p : trackpoint) :
  NoDup (id <$> points) →
  identify_stay_areas_improved self points = Ok (stay_areas, moving_segments) →
  a ∈ stay_areas → s ∈ moving_segments → p ∈ a → p ∉ s.
Proof.
  intros Hnd Hrun Ha Hs Hpa Hps.
  apply identify_cover in Hrun as [Hcov _].
  apply (cover_disjoint points stay_areas moving_segments p Hcov).
  - by eapply NoDup_fmap_1.
  - apply list_elem_of_join. eauto.
  - apply list_elem_of_join. eauto.
Qed.

Lemma walk_to_end fuel points i :
  0 ≤ i → (∀ m, i ≤ m < len points - 1 → ¬ close_pair points m) →
  len points - i ≤ Z.of_nat fuel → (1 ≤ fuel)%nat →
  walk fuel points i = Ok (Z.max i (len points - 1)).
Proof.
  revert i. induction fuel as [|fuel IH]; intros i Hi Hfar Hfuel Hpos; [lia|].
  cbn [walk]. destruct (Z.ltb_spec i (len points - 1)) as [Hlt|Hge].
  2:{ f_equal. lia. }
  destruct (item_in_range points i) as (a & Hia & Ha); [lia|].
  destruct (item_in_range points (i + 1)) as (b & Hib & Hb); [lia|].
  rewrite Hia, bind_Ok, Hib, bind_Ok. cbv zeta. unfold inject_Z.
  destruct (fltb _ _) eqn:Htest.
  - destruct (Hfar i); [lia|]. by apply (close_pair_test points i a b).
  - rewrite IH; [f_equal; lia|lia| |lia|lia]. intros m Hm. apply Hfar. lia.
Qed.

(** X8.  When the candidate that starts the track is rejected and no two
    adjacent points of the track are closer than 10 meters, the whole track
    becomes one moving segment and no stay area is reported, whatever
    follows the first candidate. *)
Theorem sparse_track_one_segment points cand j :
  2 ≤ len points →
  scan self (S (length points)) points (take 1 points) 1 = Ok (cand, j) →
  is_stay_area self cand = Ok false →
  (∀ m, 0 ≤ m < len points - 1 → ¬ close_pair points m) →
  identify_stay_areas_improved self points = Ok ([], [points]).
Proof.
  intros Hlen Hscan Hinvalid Hfar.
  destruct points as [|p0 points]; [unfold len in Hlen; simpl in Hlen; lia|].
  set (track := p0 :: points) in *.
  unfold identify_stay_areas_improved. fold track.
  change (segment self (S (length track)) track 0 [] [] = Ok ([], [track])).
  cbn [segment]. destruct (Z.ltb_spec 0 (len track)) as [_|?]; [|lia].
  change (item track 0) with (Ok p0). rewrite bind_Ok.
  change (take 1 track) with [p0] in Hscan. change (0 + 1) with 1.
  rewrite Hscan, bind_Ok. cbv beta iota. rewrite Hinvalid, bind_Ok.
  unfold close_invalid.
  rewrite (walk_to_end _ track 0) by (done || (unfold len; lia) || lia).
  rewrite bind_Ok, Z.max_r by lia.
  destruct (Z.ltb_spec 0 (len track - 1)) as [_|?]; [|lia].
  rewrite bind_Ok. cbv beta iota.
  assert (slice track 0 (len track - 1 + 1) = track) as ->.
  { unfold slice, len. simpl drop.
    replace (Z.to_nat (Z.of_nat (length track) - 1 + 1) - Z.to_nat 0)%nat
      with (length track) by lia.
    apply firstn_all. }
  destruct (length track) as [|n] eqn:Hn; [done|].
  cbn [segment]. unfold len. rewrite Hn.
  destruct (Z.ltb_spec (Z.of_nat (S n) - 1 + 1) (Z.of_nat (S n))) as [?|_]; [lia|].
  done.
Qed.

(** ** Stay simplifier *)

Lemma dedup_ids_fold_distinct l final (seen : gset nat) :
  (∀ x, x ∈ seen ↔ x ∈ id <$> final) → NoDup (id <$> final ++ l) →
  (foldl (λ '(final_simplified, seen_ids) p,
            if bool_decide (id p ∈ seen_ids) then (final_simplified, seen_ids)
            else (final_simplified ++ [p], {[id p]} ∪ seen_ids))
         (final, seen) l).1 = final ++ l.
Proof.
  revert final seen. induction l as [|p l IH]; intros final seen Hseen Hnd; simpl.
  - by rewrite app_nil_r.
  - rewrite fmap_app, fmap_cons in Hnd.
    pose proof Hnd as Hnd'. apply NoDup_app in Hnd' as (_ & Hdis & _).
    rewrite bool_decide_eq_false_2.
    2:{ rewrite Hseen. intros Hin. apply (Hdis _ Hin). by left. }
    rewrite IH.
    + by rewrite <- app_assoc.
    + intros x. rewrite fmap_app, elem_of_union, elem_of_singleton, elem_of_app, Hseen.
      simpl. rewrite list_elem_of_singleton. tauto.
    + rewrite <- app_assoc. simpl. by rewrite fmap_app, fmap_cons.
Qed.

Lemma dedup_ids_distinct l : NoDup (id <$> l) → (dedup_ids l).1 = l.
Proof.
  intros Hnd. unfold dedup_ids.
  rewrite (dedup_ids_fold_distinct l [] ∅); [done| |done].
  intros x. simpl. rewrite elem_of_nil. set_solver.
Qed.

Lemma dedup_ids_twice (a : trackpoint) : (dedup_ids [a; a]).1 = [a].
Proof.
  unfold dedup_ids. simpl.
  rewrite bool_decide_eq_false_2 by set_solver.
  rewrite bool_decide_eq_true_2 by set_solver. done.
Qed.

Lemma lookup_pair_sublist {A} (l : list A) i j x y :
  (i < j)%nat → l !! i = Some x → l !! j = Some y → [x; y] `sublist_of` l.
Proof.
  intros Hij Hx Hy. rewrite <- (take_drop_middle l i x Hx).
  apply sublist_inserts_l, sublist_skip, singleton_sublist_l.
  apply (list_elem_of_lookup_2 _ (j - S i)%nat).
  rewrite lookup_drop. by replace (S i + (j - S i))%nat with j by lia.
Qed.

Lemma lookup_triple_sublist {A} (l : list A) i j k x y z :
  (i < j < k)%nat → l !! i = Some x → l !! j = Some y → l !! k = Some z →
  [x; y; z] `sublist_of` l.
Proof.
  intros Hij Hx Hy Hz. rewrite <- (take_drop_middle l i x Hx).
  apply sublist_inserts_l, sublist_skip.
  apply (lookup_pair_sublist _ (j - S i) (k - S i)); [lia| |]; rewrite lookup_drop.
  - by replace (S i + (j - S i))%nat with j by lia.
  - by replace (S i + (k - S i))%nat with k by lia.
Qed.

Lemma item_last_lookup {A} (l : list A) x :
  item l (-1) = Ok x → l !! (length l - 1)%nat = Some x.
Proof.
  rewrite item_last. destruct (last l) eqn:H; [|done]. intros [= <-].
  rewrite last_lookup in H. by replace (length l - 1)%nat with (pred (length l)) by lia.
Qed.

Lemma lookup_distinct_ids l i j (x y : trackpoint) :
  NoDup (id <$> l) → l !! i = Some x → l !! j = Some y → i ≠ j → id x ≠ id y.
Proof.
  intros Hnd Hx Hy Hij Heq. apply Hij.
  apply (NoDup_lookup (id <$> l) i j (id x)); [done|..]; rewrite list_lookup_fmap.
  - by rewrite Hx.
  - by rewrite Hy, Heq.
Qed.

Lemma simplify_stay_area_cases area s :
  simplify_stay_area self area = Ok s →
  (len area ≤ max_stay_points self ∧ s = area) ∨
  (max_stay_points self < len area ∧
   ((max_stay_points self = 1 ∧ ∃ c, c ∈ area ∧ s = [c]) ∨
    ∃ first last, head area = Some first ∧ list.last area = Some last ∧
      ((max_stay_points self = 2 ∧ s = [first; last]) ∨
       (max_stay_points self ≤ 0 ∧ s = (dedup_ids [first; last]).1) ∨
       (3 ≤ max_stay_points self ∧
        ∃ middle, area !! Z.to_nat (len area / 2) = Some middle ∧
          s = (dedup_ids [first; middle; last]).1)))).
Proof.
  unfold simplify_stay_area.
  destruct (Z.leb_spec (len area) (max_stay_points self)) as [Hle|Hgt].
  { intros [= <-]. by left. }
  intros Hs. right. split; [done|]. revert Hs.
  destruct (Z.eqb_spec (max_stay_points self) 1) as [H1|H1].
  { intros H. apply bind_Ok_inv in H as (first & Hfirst & H).
    pose proof (nearest_fold_elem area float_inf first (mean lat area) (mean lon area)) as Hc.
    destruct (foldl _ _ _) as [d c]. injection H as <-. simpl in Hc. left. split; [done|].
    exists c. split; [|done].
    apply elem_of_cons in Hc as [->|Hc]; [by eapply item_elem|done]. }
  intros Hs. right. revert Hs.
  destruct (Z.eqb_spec (max_stay_points self) 2) as [H2|H2].
  { intros H. apply bind_Ok_inv in H as (first & Hfirst & H).
    apply bind_Ok_inv in H as (last & Hlast & H). injection H as <-.
    rewrite item_head in Hfirst. rewrite item_last in Hlast.
    destruct (head area) as [f|]; [|done]. destruct (list.last area) as [x|]; [|done].
    simplify_eq. exists first, last. auto. }
  intros H. apply bind_Ok_inv in H as (first & Hfirst & H).
  apply bind_Ok_inv in H as (simplified & Hsimplified & H).
  apply bind_Ok_inv in H as (last & Hlast & H). injection H as <-.
  rewrite item_head in Hfirst. rewrite item_last in Hlast.
  destruct (head area) as [f|]; [|done]. destruct (list.last area) as [x|]; [|done].
  simplify_eq. exists first, last. do 2 (split; [done|]). right.
  destruct (Z.ltb_spec 2 (max_stay_points self)) as [Hlt|Hge].
  - right. split; [lia|].
    destruct (Z.ltb_spec 0 (Z.min (max_stay_points self - 2) 1)) as [_|?]; [|lia].
    apply bind_Ok_inv in Hsimplified as (middle & Hmiddle & H). injection H as <-.
    exists middle. split; [|done].
    apply item_Ok_lookup in Hmiddle; [done|]. apply Z.div_pos; [apply len_nonneg|lia].
  - left. injection Hsimplified as <-. split; [lia|done].
Qed.

(** X9.  When [max_stay_points] is at least 1, the stay simplifier returns
    at most [max_stay_points] points, and at most three points for an area
    that is longer than [max_stay_points]. *)
Theorem stay_simplifier_budget area s :
  1 ≤ max_stay_points self →
  simplify_stay_area self area = Ok s →
  len s ≤ max_stay_points self ∧ (max_stay_points self < len area → len s ≤ 3).
Proof.
  intros Hmax Hs.
  destruct (simplify_stay_area_cases _ _ Hs)
    as [[Hle ->]|[Hgt [[H1 (c & _ & ->)]|(first & last & _ & _ & H)]]].
  - split; [done|lia].
  - unfold len. simpl. lia.
  - destruct H as [[H2 ->]|[[H0 _]|[H3 (middle & _ & ->)]]]; [unfold len; simpl; lia|lia|].
    pose proof (dedup_ids_length [first; middle; last]) as Hlen. simpl in Hlen.
    unfold len. lia.
Qed.

(** X10.  Unless [max_stay_points] is 1, the stay simplifier keeps the
    first and the last point of the area (as objects). *)
Theorem stay_simplifier_keeps_endpoints area s first last :
  max_stay_points self ≠ 1 →
  simplify_stay_area self area = Ok s →
  head area = Some first → list.last area = Some last →
  id first ∈ id <$> s ∧ id last ∈ id <$> s.
Proof.
  intros Hmax Hs Hfirst Hlast.
  assert (∀ l, id first ∈ id <$> l → id last ∈ id <$> l →
            id first ∈ id <$> (dedup_ids l).1 ∧ id last ∈ id <$> (dedup_ids l).1) as Hdedup.
  { intros l Hf Hl. destruct (dedup_ids_spec l) as (_ & Hseen & _ & Hall).
    split; apply Hseen, Hall; done. }
  destruct (simplify_stay_area_cases _ _ Hs)
    as [[Hle ->]|[Hgt [[H1 _]|(f & x & Hf & Hx & H)]]]; [|done|].
  - split; apply elem_of_ids.
    + by apply head_Some_elem_of.
    + rewrite last_lookup in Hlast. by apply list_elem_of_lookup_2 in Hlast.
  - simplify_eq.
    destruct H as [[H2 ->]|[[H0 ->]|[H3 (middle & _ & ->)]]].
    + simpl. split; [by left|right; by left].
    + apply Hdedup; simpl; [by left|right; by left].
    + apply Hdedup; simpl; [by left|right; right; by left].
Qed.

Lemma simplify_stay_area_sublist area s :
  NoDup (id <$> area) → simplify_stay_area self area = Ok s → s `sublist_of` area.
Proof.
  intros Hnd Hs.
  destruct (simplify_stay_area_cases _ _ Hs)
    as [[Hle ->]|[Hgt [[H1 (c & Hc & ->)]|(first & last & Hf & Hx & H)]]]; [done| |].
  { by apply singleton_sublist_l. }
  assert (area !! 0%nat = Some first) as Hf0 by (by destruct area).
  assert (area !! (length area - 1)%nat = Some last) as Hxn.
  { rewrite last_lookup in Hx. by replace (length area - 1)%nat with (pred (length area)) by lia. }
  assert (1 ≤ len area) as Hpos.
  { destruct area; [done|]. unfold len. simpl. lia. }
  destruct H as [[H2 ->]|[[H0 ->]|[H3 (middle & Hm & ->)]]].
  - apply (lookup_pair_sublist _ 0 (length area - 1)); [unfold len in Hgt; lia|done..].
  - destruct (decide (len area = 1)) as [Hone|Hmore].
    + destruct area as [|a [|b area]]; [done| |unfold len in Hone; simpl in Hone; lia].
      simpl in Hf0, Hxn. simplify_eq. by rewrite dedup_ids_twice.
    + assert (0 < length area - 1)%nat as Hlt by (unfold len in *; lia).
      rewrite dedup_ids_distinct.
      * by apply (lookup_pair_sublist _ 0 (length area - 1)).
      * simpl. repeat constructor; [|set_solver].
        rewrite list_elem_of_singleton.
        apply (lookup_distinct_ids area 0 (length area - 1)); [done..|lia].
  - assert (2 ≤ len area / 2) as Hlo by (apply Z.div_le_lower_bound; lia).
    assert (len area / 2 < len area - 1) as Hhi.
    { assert (len area / 2 * 2 ≤ len area); [|lia].
      rewrite Z.mul_comm. apply Z.mul_div_le. lia. }
    unfold len in *.
    assert (0 < Z.to_nat (Z.of_nat (length area) / 2) < length area - 1)%nat as Hmid by lia.
    rewrite dedup_ids_distinct.
    + by apply (lookup_triple_sublist _ 0 (Z.to_nat (Z.of_nat (length area) / 2))
                  (length area - 1)).
    + simpl. repeat constructor; [| |set_solver].
      * rewrite not_elem_of_cons, list_elem_of_singleton. split.
        -- apply (lookup_distinct_ids area 0 (Z.to_nat (Z.of_nat (length area) / 2)));
             [done..|lia].
        -- apply (lookup_distinct_ids area 0 (length area - 1)); [done..|lia].
      * rewrite list_elem_of_singleton.
        apply (lookup_distinct_ids area (Z.to_nat (Z.of_nat (length area) / 2))
                 (length area - 1)); [done..|lia].
Qed.

Lemma simplify_stay_area_nonempty area s :
  area ≠ [] → simplify_stay_area self area = Ok s → s ≠ [].
Proof.
  intros Hne Hs.
  destruct (simplify_stay_area_cases _ _ Hs)
    as [[Hle ->]|[Hgt [[H1 (c & _ & ->)]|(first & last & _ & _ & H)]]]; [done..|].
  assert (∀ x l, (dedup_ids (x :: l)).1 ≠ []) as Hdedup.
  { intros x l Hnil. destruct (dedup_ids_spec (x :: l)) as (_ & Hseen & _ & Hall).
    specialize (Hall (id x)). rewrite Hseen, Hnil in Hall.
    eapply elem_of_nil, Hall. simpl. by left. }
  destruct H as [[H2 ->]|[[H0 ->]|[H3 (middle & _ & ->)]]]; [done|apply Hdedup..].
Qed.

(** X11.  On an area of distinct points the stay simplifier returns an
    order-preserving selection of the area. *)
Theorem stay_simplifier_order area s :
  NoDup (id <$> area) →
  simplify_stay_area self area = Ok s →
  s `sublist_of` area.
Proof. apply simplify_stay_area_sublist. Qed.



(** ** Moving-point filter *)

Lemma index_of_first (point : trackpoint) l i q :
  l !! i = Some q → id q = id point →
  (∀ j r, l !! j = Some r → (j < i)%nat → id r ≠ id point) →
  index_of point l = Z.of_nat i.
Proof.
  intros Hq Hid Hfirst. unfold index_of.
  destruct (list_find _ l) as [[j r]|] eqn:Hfind.
  - apply list_find_Some in Hfind as (Hr & Hrid & Hmin).
    destruct (Nat.lt_trichotomy i j) as [Hlt|[->|Hgt]]; [|done|].
    + by destruct (Hmin i q Hq Hlt).
    + by destruct (Hfirst j r Hr Hgt).
  - apply list_find_None in Hfind.
    apply list_elem_of_lookup_2 in Hq.
    by destruct (proj1 (Forall_forall _ _) Hfind q Hq).
Qed.

Lemma index_of_distinct (point : trackpoint) l i :
  NoDup (id <$> l) → l !! i = Some point → index_of point l = Z.of_nat i.
Proof.
  intros Hnd Hi. apply (index_of_first point l i point Hi eq_refl).
  intros j r Hr Hlt Heq.
  assert (j = i); [|lia].
  apply (NoDup_lookup (id <$> l) j i (id point)); [done|..]; rewrite list_lookup_fmap.
  - rewrite Hr. simpl. by f_equal.
  - by rewrite Hi.
Qed.

(** X13.  The position lookup of the moving-point filter: for a point at
    position [i] of a list of distinct points the lookup gives [i]; for a
    point that is not in the list it gives -1; the result is always between
    -1 and the last position of the list. *)
Theorem index_of_position (point : trackpoint) l :
  (∀ i, NoDup (id <$> l) → l !! i = Some point → index_of point l = Z.of_nat i) ∧
  (id point ∉ id <$> l → index_of point l = -1) ∧
  -1 ≤ index_of point l < len l.
Proof.
  split; [|split].
  - intros i. apply index_of_distinct.
  - intros Hout. unfold index_of.
    destruct (list_find _ l) as [[j r]|] eqn:Hfind; [|done].
    apply list_find_Some in Hfind as (Hr & Hrid & _). destruct Hout.
    rewrite <- Hrid. apply elem_of_ids. by apply list_elem_of_lookup_2 in Hr.
  - unfold index_of. destruct (list_find _ l) as [[j r]|] eqn:Hfind.
    + apply list_find_Some in Hfind as (Hr & _). apply lookup_lt_Some in Hr.
      unfold len. lia.
    + pose proof (len_nonneg l). lia.
Qed.

(** X14.  A moving point among the first five or the last five points of a
    track of distinct points is always kept, whatever has been kept before
    it. *)
Theorem track_ends_always_kept (point : trackpoint) all_points simplified_points i :
  NoDup (id <$> all_points) →
  all_points !! i = Some point →
  (i < 5 ∨ length all_points - 5 ≤ i)%nat →
  should_keep_moving_point self point all_points simplified_points = true.
Proof.
  intros Hnd Hi Hend. unfold should_keep_moving_point.
  destruct (list.last simplified_points) as [last_point|]; [|done].
  cbv zeta. destruct (fleb _ _); [done|].
  rewrite (index_of_distinct point all_points i) by done.
  apply lookup_lt_Some in Hi. unfold is_turning_point, len.
  destruct (Z.ltb_spec (Z.of_nat i) 0) as [?|_]; [lia|].
  destruct (Z.leb_spec (Z.of_nat (length all_points)) (Z.of_nat i)) as [?|_]; [lia|].
  cbn [orb].
  destruct (Z.ltb_spec (Z.of_nat i) 5) as [?|?]; [done|].
  destruct (Z.leb_spec (Z.of_nat (length all_points) - 5) (Z.of_nat i)) as [?|?]; [done|lia].
Qed.


(** ** The pipeline *)



Lemma simplify_bupt_cluster_nonempty cluster r :
  1 ≤ bupt_simplified_points_count self → cluster ≠ [] →
  _simplify_bupt_cluster self cluster = Ok r → r ≠ [].
Proof.
  intros Hcount Hne Hr.
  destruct (Z.le_gt_cases (len cluster) (bupt_simplified_points_count self)) as [Hle|Hgt].
  { unfold _simplify_bupt_cluster in Hr. rewrite bool_decide_eq_false_2 in Hr by done.
    apply Z.leb_le in Hle. rewrite Hle in Hr. by injection Hr as <-. }
  destruct (simplify_bupt_cluster_stages cluster r) as
    (first & last & simplified & selected & final & seen & padded
     & _ & _ & Hsimp & Hsel & Hdedup & Hpad & ->); [done|lia|done|].
  assert (0 < length simplified)%nat as Hsimplified.
  { destruct Hsimp as [[_ ->]|[(_ & _ & sorted & earliest & latest & _ & _ & _ & ->)
                               |(_ & _ & ->)]].
    - destruct (Z.leb_spec 1 (bupt_simplified_points_count self)); [simpl; lia|lia].
    - pose proof (append_new_length latest (append_new earliest [first])).
      pose proof (append_new_length earliest [first]). simpl in *. lia.
    - pose proof (append_new_length last [first]). simpl in *. lia. }
  assert (∃ x, x ∈ selected) as [x Hx].
  { destruct simplified as [|x simplified']; [simpl in Hsimplified; lia|].
    exists x. destruct Hsel as [[_ ->]|[_ [->|(c & _ & ->)]]]; [by left..|].
    apply elem_of_app. left. by left. }
  assert (final ≠ []) as Hfinal.
  { destruct (dedup_ids_spec selected) as (_ & Hseen & _ & Hall).
    rewrite Hdedup in Hseen, Hall. simpl in Hseen, Hall. intros ->.
    eapply elem_of_nil, Hseen, Hall. by apply elem_of_ids. }
  assert (padded ≠ []) as Hpadded.
  { subst padded. destruct (_ <? _); [|done]. case_bool_decide; [done|].
    destruct final; [done|]. done. }
  destruct padded as [|p padded']; [done|].
  destruct (has_time p); [by apply sort_by_nonempty|done].
Qed.

Lemma bupt_pass_nonempty points processed cluster out :
  1 ≤ bupt_simplified_points_count self →
  bupt_pass self points processed cluster = Ok out →
  points ≠ [] ∨ processed ≠ [] ∨ cluster ≠ [] → out ≠ [].
Proof.
  intros Hcount. revert processed cluster.
  induction points as [|point points IH]; intros processed cluster; cbn [bupt_pass].
  - case_bool_decide as Hnil.
    + intros [= <-] [?|[?|?]]; done.
    + intros H _. apply bind_Ok_inv in H as (s & Hs & H). injection H as <-.
      apply simplify_bupt_cluster_nonempty in Hs; [|done..].
      destruct processed; [done|]. done.
  - destruct (is_in_bupt_area _ _ _).
    + intros H _. apply (IH _ _ H). right. right. by destruct cluster.
    + case_bool_decide as Hnil.
      * intros H _. apply (IH _ _ H). right. left. by destruct processed.
      * intros H _. apply bind_Ok_inv in H as (s & Hs & H).
        apply (IH _ _ H). right. left. by destruct processed, s.
Qed.

Lemma process_point_grows all_points stay_areas (stay_points_set : gset nat) st st' p :
  process_point self all_points stay_areas stay_points_set st p = Ok st' →
  ∃ extra, simplified_points st' = simplified_points st ++ extra.
Proof.
  unfold process_point. case_bool_decide as Hin.
  - destruct (pick_area _ _ _) as [area|].
    + intros H. apply bind_Ok_inv in H as (s & _ & H).
      apply bind_Ok_inv in H as (a0 & _ & H). injection H as <-. simpl. eauto.
    + intros [= <-]. exists []. by rewrite app_nil_r.
  - destruct (should_keep_moving_point _ _ _ _).
    + intros [= <-]. simpl. eauto.
    + intros [= <-]. exists []. by rewrite app_nil_r.
Qed.

Lemma process_points_grows all_points stay_areas (stay_points_set : gset nat) st st' l :
  process_points self all_points stay_areas stay_points_set st l = Ok st' →
  ∃ extra, simplified_points st' = simplified_points st ++ extra.
Proof.
  revert st. induction l as [|p l IH]; intros st; cbn [process_points].
  - intros [= <-]. exists []. by rewrite app_nil_r.
  - intros H. apply bind_Ok_inv in H as (st1 & Hstep & H).
    apply process_point_grows in Hstep as [e1 He1]. apply IH in H as [e2 He2].
    exists (e1 ++ e2). by rewrite He2, He1, app_assoc.
Qed.

Lemma pick_area_fresh stay_areas (p : trackpoint) :
  id p ∈ stay_ids stay_areas → ∃ area, pick_area stay_areas p ∅ = Some area.
Proof.
  rewrite elem_of_stay_ids.
  induction stay_areas as [|area stay_areas IH]; cbn [pick_area].
  { intros H. by apply elem_of_nil in H. }
  change (mjoin (area :: stay_areas)) with (area ++ mjoin stay_areas).
  rewrite fmap_app, elem_of_app.
  destruct area as [|a0 area'].
  { intros [H|H]; [by apply elem_of_nil in H|by apply IH]. }
  destruct (py_in p (a0 :: area')) eqn:Hin.
  - rewrite bool_decide_eq_true_2 by set_solver. simpl. eauto.
  - simpl. apply py_in_false in Hin. intros [?|?]; [done|by apply IH].
Qed.

Lemma process_point_first all_points stay_areas st' (p : trackpoint) :
  process_point self all_points stay_areas (stay_ids stay_areas)
    {| simplified_points := []; processed_areas := ∅; simplified_calls := [] |} p = Ok st' →
  simplified_points st' ≠ [].
Proof.
  unfold process_point. case_bool_decide as Hin.
  - destruct (pick_area_fresh _ _ Hin) as [area Hpick]. simpl. rewrite Hpick.
    apply pick_area_nonempty in Hpick as [_ Hne].
    intros H. apply bind_Ok_inv in H as (s & Hs & H).
    apply bind_Ok_inv in H as (a0 & _ & H). injection H as <-. simpl.
    by eapply simplify_stay_area_nonempty.
  - simpl. by intros [= <-].
Qed.

(** X17.  With a target count of at least 1 for the override zone, a pass
    that returns on a non-empty track returns at least one point. *)
Theorem pipeline_nonempty points out :
  1 ≤ bupt_simplified_points_count self →
  points ≠ [] →
  simplify_gpx_improved self points = Ok out →
  out ≠ [].
Proof.
  intros Hcount Hne Hout.
  destruct (simplify_gpx_improved_inv _ _ _ Hout) as [[? _]|(_ & r & Hr & ->)]; [done|].
  apply simplify_run_inv in Hr as (Hpass & _ & Hloop & Hperm%closing_sort_perm).
  apply bupt_pass_nonempty in Hpass; [|done|by left].
  destruct (filtered r) as [|p rest]; [done|].
  cbn [process_points] in Hloop. apply bind_Ok_inv in Hloop as (st1 & Hstep & Hloop).
  apply process_point_first in Hstep.
  apply process_points_grows in Hloop as [extra Hextra]. rewrite Hextra in Hperm.
  destruct (simplified_points st1) as [|q sp]; [done|].
  intros Hnil. rewrite Hnil in Hperm. by apply Permutation_nil_cons in Hperm.
Qed.

Lemma process_points_order all_points rest todo :
  tiling rest todo → ∀ before past st st',
  NoDup (id <$> before ++ rest) →
  (∀ x, x ∈ id <$> mjoin past → x ∈ id <$> before) →
  (∀ x, x ∈ processed_areas st → x ∈ id <$> before) →
  process_points self all_points (past ++ todo) (stay_ids (past ++ todo)) st rest
    = Ok st' →
  ∃ extra, simplified_points st' = simplified_points st ++ extra ∧
           extra `sublist_of` rest.
Proof.
  induction 1 as [|p points areas Htil IH|area points areas Hne Htil IH];
    intros before past st st' Hnd Hpast Hproc Hrun.
  - injection Hrun as <-. exists []. by rewrite app_nil_r.
  - (* a point outside every area *)
    rewrite fmap_app, fmap_cons in Hnd.
    pose proof Hnd as Hnd'.
    apply NoDup_app in Hnd' as (Hndb & Hdisj & Hndr).
    apply NoDup_cons in Hndr as [Hp Hndp].
    assert (id p ∉ id <$> before) as Hpb.
    { intros Hin. apply (Hdisj _ Hin). by left. }
    assert (id p ∉ stay_ids (past ++ areas)) as Hout.
    { rewrite elem_of_stay_ids, join_app, fmap_app, elem_of_app.
      intros [Hin|Hin]; [by apply Hpb, Hpast|].
      apply Hp. eapply ids_sublist; [|done]. by apply tiling_sublist. }
    cbn [process_points] in Hrun. unfold process_point in Hrun.
    rewrite bool_decide_eq_false_2 in Hrun by done.
    assert (∀ st1 kept,
      processed_areas st1 = processed_areas st →
      simplified_points st1 = simplified_points st ++ kept →
      kept `sublist_of` [p] →
      process_points self all_points (past ++ areas) (stay_ids (past ++ areas)) st1 points
        = Ok st' →
      ∃ extra, simplified_points st' = simplified_points st ++ extra ∧
               extra `sublist_of` p :: points) as Hstep.
    { intros st1 kept Hpr Hs Hkept Hrun1.
      destruct (IH (before ++ [p]) past st1 st') as (extra & Hextra & Hsub); try done.
      - rewrite <- app_assoc. simpl. by rewrite fmap_app, fmap_cons.
      - intros x Hx. rewrite fmap_app, elem_of_app. left. by apply Hpast.
      - intros x Hx. rewrite fmap_app, elem_of_app. left. apply Hproc. by rewrite <- Hpr.
      - exists (kept ++ extra). split; [by rewrite Hextra, Hs, app_assoc|].
        change (p :: points) with ([p] ++ points). by apply sublist_app. }
    destruct (should_keep_moving_point _ _ _ _); rewrite bind_Ok in Hrun.
    + eapply (Hstep _ [p]); [..|exact Hrun]; done.
    + eapply (Hstep _ []); [..|exact Hrun]; [done|by rewrite app_nil_r|apply sublist_nil_l].
  - (* a stay area *)
    destruct area as [|a0 area']; [done|].
    rewrite fmap_app in Hnd. rewrite fmap_app in Hnd.
    pose proof Hnd as Hnd'.
    apply NoDup_app in Hnd' as (Hndb & Hdisj & Hndr).
    apply NoDup_app in Hndr as (Hnda & Hdisja & Hndp).
    assert (∀ x, x ∈ id <$> mjoin areas → x ∈ id <$> points) as Hareas.
    { intros x. apply ids_sublist. by apply tiling_sublist. }
    assert (∀ x, x ∈ id <$> (a0 :: area') → x ∈ stay_ids (past ++ (a0 :: area') :: areas))
      as Hstay.
    { intros x Hx. apply elem_of_stay_ids. rewrite join_app, fmap_app, elem_of_app.
      right. change (mjoin ((a0 :: area') :: areas)) with ((a0 :: area') ++ mjoin areas).
      rewrite fmap_app, elem_of_app. by left. }
    cbn [app process_points] in Hrun.
    apply bind_Ok_inv in Hrun as (st1 & Hstep & Hrun).
    unfold process_point in Hstep.
    rewrite bool_decide_eq_true_2 in Hstep by (apply Hstay; by left).
    rewrite pick_area_Some in Hstep; cycle 1.
    { apply py_in_iff. by left. }
    { intros Hin. apply (Hdisj (id a0)); [by apply Hproc|]. rewrite elem_of_app.
      left. by left. }
    { intros b Hb. apply py_in_false. intros Hin.
      apply (Hdisj (id a0)).
      - apply Hpast. by eapply ids_concat_elem.
      - rewrite elem_of_app. left. by left. }
    apply bind_Ok_inv in Hstep as (sA & HsA & Hstep).
    pose proof (simplify_stay_area_sublist _ _ Hnda HsA) as HsubA.
    cbv beta in Hstep. rewrite item_head in Hstep.
    change (head (a0 :: area')) with (Some a0) in Hstep. cbv iota in Hstep.
    rewrite bind_Ok in Hstep. injection Hstep as <-.
    rewrite process_points_app, process_points_skip, bind_Ok in Hrun; cycle 1.
    { intros q Hq. split; [apply Hstay; right; by apply elem_of_ids|].
      apply pick_area_None. intros b0 brest Hb Hin. simpl.
      apply py_in_iff in Hin.
      apply elem_of_app in Hb as [Hb|Hb].
      - destruct (Hdisj (id q)).
        + apply Hpast. by eapply ids_concat_elem.
        + rewrite elem_of_app. left. right. by apply elem_of_ids.
      - apply elem_of_cons in Hb as [Hb|Hb].
        + injection Hb as -> ->. apply elem_of_union. left. by apply elem_of_singleton.
        + destruct (Hdisja (id q)).
          * right. by apply elem_of_ids.
          * apply Hareas. by eapply ids_concat_elem. }
    specialize (IH (before ++ a0 :: area') (past ++ [a0 :: area'])).
    rewrite <- !app_assoc in IH. cbn [app] in IH.
    apply IH in Hrun as (extra & Hextra & Hsub); cycle 1.
    + change (a0 :: area' ++ points) with ((a0 :: area') ++ points).
      rewrite !fmap_app. apply NoDup_app. split; [done|]. split; [done|].
      apply NoDup_app. done.
    + intros x. rewrite join_app, !fmap_app, !elem_of_app. simpl.
      rewrite app_nil_r. intros [?|?]; [left; by apply Hpast|by right].
    + intros x. simpl. rewrite elem_of_union, elem_of_singleton, fmap_app, elem_of_app.
      intros [->|?]; [right; by left|left; by apply Hproc].
    + simpl in Hextra. exists (sA ++ extra). split; [by rewrite Hextra, app_assoc|].
      change (a0 :: area' ++ points) with ((a0 :: area') ++ points).
      by apply sublist_app.
Qed.

Lemma simplify_run_order points r :
  NoDup (id <$> points) →
  (∀ p, p ∈ points → has_time p = false) →
  simplify_run self points = Ok r →
  output r `sublist_of` filtered r.
Proof.
  intros Hnd Huntimed Hr.
  destruct (simplify_run_spec self points r Hnd Hr) as (Hndf & _ & Htil & _).
  pose proof Hr as Hinv. apply simplify_run_inv in Hinv as (Hpass & _ & Hloop & Houtput).
  destruct (process_points_order (filtered r) (filtered r) (areas r) Htil [] []
              {| simplified_points := []; processed_areas := ∅; simplified_calls := [] |}
              (final_state r)) as (extra & Hextra & Hsub).
  - done.
  - intros x Hx. by apply elem_of_nil in Hx.
  - intros x Hx. simpl in Hx. by apply elem_of_empty in Hx.
  - exact Hloop.
  - simpl in Hextra. rewrite Hextra in Houtput.
    destruct extra as [|p extra']; [by injection Houtput as <-|].
    rewrite Huntimed in Houtput; [by injection Houtput as <-|].
    apply bupt_pass_sub in Hpass as (out' & Heq & Hsubp & _). simpl in Heq, Hsubp.
    subst out'. apply Hsubp. eapply elem_of_submseteq; [|by apply sublist_submseteq].
    by left.
Qed.

(** X18.  On a track of distinct points without timestamps that stays
    outside the override zone, the points a pass returns are an
    order-preserving selection of the track. *)
Theorem unstamped_track_order points out :
  NoDup (id <$> points) →
  (∀ p, p ∈ points → has_time p = false) →
  (∀ p, p ∈ points → is_in_bupt_area self (lat p) (lon p) = false) →
  simplify_gpx_improved self points = Ok out →
  out `sublist_of` points.
Proof.
  intros Hnd Huntimed Houtside Hout.
  destruct (simplify_gpx_improved_inv _ _ _ Hout) as [[_ ->]|(_ & r & Hr & ->)].
  { apply sublist_nil_l. }
  pose proof (simplify_run_order _ _ Hnd Huntimed Hr) as Hsub.
  apply simplify_run_inv in Hr as (Hpass & _).
  rewrite bupt_pass_all_outside in Hpass by done. injection Hpass as Heq.
  by rewrite <- Heq in Hsub.
Qed.


(** A track has no close pair when the test fails on every adjacent pair. *)
Lemma far_apart_pairs points :
  forallb (λ ab : trackpoint * trackpoint,
             negb (fltb (haversine_distance (lat ab.1) (lon ab.1) (lat ab.2) (lon ab.2))
                        (flit 10)))
          (zip points (drop 1 points)) = true →
  ∀ m, 0 ≤ m < len points - 1 → ¬ close_pair points m.
Proof.
  intros Hall m Hm (a & b & Ha & Hb & Hclose).
  rewrite forallb_forall in Hall. specialize (Hall (a, b)). simpl in Hall.
  rewrite Hclose in Hall. assert (false = true); [|done]. apply Hall.
  apply list_elem_of_In, (list_elem_of_lookup_2 _ (Z.to_nat m)).
  apply lookup_zip_with_Some. exists a, b. split; [done|]. split; [done|].
  rewrite lookup_drop. by replace (1 + Z.to_nat m)%nat with (Z.to_nat (m + 1)) by lia.
Qed.


End Extra.

(** * The properties on the sample tracks *)



(** The check does not return on [track_mixed]: subtracting an
    offset-naive timestamp from an offset-aware one raises [TypeError], and
    so do the segmenter and the pipeline. *)
Example stay_check_mixed_kinds :
  is_stay_area default_simplifier track_mixed = Raise TypeError ∧
  identify_stay_areas_improved default_simplifier track_mixed = Raise TypeError ∧
  simplify_gpx_improved default_simplifier track_mixed = Raise TypeError.
Proof. repeat split; vm_compute; reflexivity. Qed.

Lemma simplify_stay_area_two_witness :
  max_stay_points default_simplifier = 2 ∧ (2 ≤ length (take 3 track_stay))%nat ∧
  ∃ first last, head (take 3 track_stay) = Some first ∧
    list.last (take 3 track_stay) = Some last ∧
    simplify_stay_area default_simplifier (take 3 track_stay) = Ok [first; last].
Proof.
  split; [reflexivity|]. split; [simpl; lia|].
  apply (simplify_stay_area_two default_simplifier (take 3 track_stay));
    [reflexivity|simpl; lia].
Defined.

Lemma is_turning_point_spec_witness :
  0 ≤ 5 ∧ track_line !! Z.to_nat 5 = Some (pt 5%Q None 5) ∧
  (is_turning_point (pt 5%Q None 5) track_line 5 5 = true ↔ turning_point track_line 5 5).
Proof.
  split; [lia|]. split; [reflexivity|].
  apply (is_turning_point_spec track_line (pt 5%Q None 5) 5); [lia|reflexivity].
Defined.

Lemma excursion_lookahead_witness :
  0 ≤ 1 ∧ track_excursion !! Z.to_nat 1 = Some (pt 1%Q None 1) ∧
  within_radius default_simplifier
    (mean lat (take 1 track_excursion)) (mean lon (take 1 track_excursion))
    (pt 1%Q None 1) = false ∧
  ((∃ k returning,
      1 < k < 1 + 10 ∧ track_excursion !! Z.to_nat k = Some returning ∧
      within_radius default_simplifier
        (mean lat (take 1 track_excursion)) (mean lon (take 1 track_excursion))
        returning = true ∧
      (∀ m q, 1 ≤ m < k → track_excursion !! Z.to_nat m = Some q →
              within_radius default_simplifier
                (mean lat (take 1 track_excursion)) (mean lon (take 1 track_excursion))
                q = false) ∧
      scan default_simplifier 4 track_excursion (take 1 track_excursion) 1
      = scan default_simplifier 3 track_excursion
          (take 1 track_excursion ++ slice track_excursion 1 k ++ [returning]) (k + 1))
   ∨ ((∀ m q, 1 ≤ m < 1 + 10 → track_excursion !! Z.to_nat m = Some q →
              within_radius default_simplifier
                (mean lat (take 1 track_excursion)) (mean lon (take 1 track_excursion))
                q = false) ∧
      scan default_simplifier 4 track_excursion (take 1 track_excursion) 1
      = Ok (take 1 track_excursion, 1))).
Proof.
  split; [lia|]. split; [reflexivity|]. split; [vm_compute; reflexivity|].
  apply (excursion_lookahead default_simplifier 3 track_excursion
           (take 1 track_excursion) 1 (pt 1%Q None 1));
    [lia|reflexivity|vm_compute; reflexivity].
Defined.

(** On [track_excursion] the lookahead finds the returning sample at
    position 2.  The sample one degree away has by then moved the mean of
    the candidate, so the last sample no longer joins it. *)
Example excursion_returns :
  scan default_simplifier 4 track_excursion (take 1 track_excursion) 1
  = Ok (take 3 track_excursion, 3).
Proof. vm_compute. reflexivity. Qed.

(** The first adjacent pair of [track_trip] closer than 10 meters is the
    pair at positions 2 and 3. *)
Lemma track_trip_first_close_pair : first_close_pair track_trip 0 2.
Proof.
  split; [lia|]. split.
  - exists (pt 2%Q None 2), (pt 2%Q None 3).
    split; [reflexivity|]. split; [reflexivity|]. vm_compute. reflexivity.
  - intros m Hm (a & b & Ha & Hb & Hclose).
    assert (m = 0 ∨ m = 1) as [-> | ->] by lia.
    + vm_compute in Ha, Hb. injection Ha as <-. injection Hb as <-.
      vm_compute in Hclose. discriminate.
    + vm_compute in Ha, Hb. injection Ha as <-. injection Hb as <-.
      vm_compute in Hclose. discriminate.
Defined.

Lemma invalid_candidate_walk_witness :
  first_close_pair track_trip 0 2 ∧
  close_invalid track_trip 0 = Ok (Some (take 3 track_trip), 3).
Proof.
  split; [exact track_trip_first_close_pair|].
  exact (invalid_candidate_walk track_trip 0 2 track_trip_first_close_pair).
Defined.

(** C2, as stated, fails on [track_pause]: the candidate made of its two
    samples is invalid, its very first adjacent pair is closer than 10
    meters, and no moving segment is emitted; the first sample ends up in
    neither list. *)
Lemma invalid_candidate_without_segment :
  scan default_simplifier 3 track_pause (take 1 track_pause) 1 = Ok (track_pause, 2) ∧
  is_stay_area default_simplifier track_pause = Ok false ∧
  first_close_pair track_pause 0 0 ∧
  ¬ (∃ segment next, close_invalid track_pause 0 = Ok (Some segment, next)) ∧
  identify_stay_areas_improved default_simplifier track_pause = Ok ([], []).
Proof.
  split; [vm_compute; reflexivity|]. split; [vm_compute; reflexivity|].
  split; [|split; [|vm_compute; reflexivity]].
  - split; [lia|]. split; [|intros m Hm; lia].
    exists (pt 0%Q None 0), (pt 0%Q None 1).
    split; [reflexivity|]. split; [reflexivity|]. vm_compute. reflexivity.
  - intros (segment & next & H). vm_compute in H. discriminate.
Qed.

Lemma moving_segments_two_points_witness :
  0 ≤ 0 ∧ close_pair track_pause 0 ∧ close_invalid track_pause 0 = Ok (None, 0 + 1).
Proof.
  assert (close_pair track_pause 0) as Hclose.
  { exists (pt 0%Q None 0), (pt 0%Q None 1).
    split; [reflexivity|]. split; [reflexivity|]. vm_compute. reflexivity. }
  split; [lia|]. split; [exact Hclose|].
  apply (proj2 (proj2 (moving_segments_two_points default_simplifier track_pause)) 0);
    [lia|exact Hclose].
Defined.

(** On [track_trip] one moving segment is emitted, with three samples. *)
Example track_trip_segments :
  identify_stay_areas_improved default_simplifier track_trip
  = Ok ([], [take 3 track_trip]).
Proof. vm_compute. reflexivity. Qed.

Lemma track_stay_distinct : NoDup (id <$> track_stay).
Proof. apply (bool_decide_unpack _). vm_compute. exact I. Defined.

Lemma track_stay_stamped : uniformly_stamped track_stay.
Proof. apply uniformly_stamped_check. vm_compute. reflexivity. Defined.

Lemma track_stay_pass : bupt_pass default_simplifier track_stay [] [] = Ok track_stay.
Proof. vm_compute. reflexivity. Defined.

Lemma track_stay_areas :
  identify_stay_areas_improved default_simplifier track_stay
  = Ok ([take 3 track_stay], [drop 3 track_stay]).
Proof. vm_compute. reflexivity. Defined.

Lemma each_point_one_route_witness :
  NoDup (id <$> track_stay) ∧
  ∃ r, simplify_run default_simplifier track_stay = Ok r ∧
    areas r = [take 3 track_stay] ∧
    simplified_calls (final_state r) = areas r ∧ NoDup (areas r) ∧
    NoDup (id <$> output r).
Proof.
  split; [exact track_stay_distinct|].
  destruct (simplify_run_outcome default_simplifier track_stay) as [[r Hr]|[_ Hbad]];
    [|destruct (Hbad track_stay_stamped)].
  exists r. split; [exact Hr|].
  assert (areas r = [take 3 track_stay]) as Hareas.
  { destruct (simplify_run_inv default_simplifier track_stay r Hr) as (Hpass & Hid & _).
    rewrite track_stay_pass in Hpass. injection Hpass as Hfiltered.
    rewrite <- Hfiltered, track_stay_areas in Hid. by injection Hid as <- _. }
  split; [exact Hareas|].
  apply (each_point_one_route default_simplifier track_stay r track_stay_distinct Hr).
Defined.

(** C1 fails on [track_zone]: the three samples lie inside the override
    zone and form one run, the target count is 2, the first and the last
    sample carry timestamps, and the zone filter returns all three samples
    (the earliest, the first, the latest). *)
Theorem zone_filter_exceeds_target :
  bupt_simplified_points_count default_simplifier = 2 ∧
  forallb (λ p, is_in_bupt_area default_simplifier (lat p) (lon p)) track_zone = true ∧
  forallb has_time track_zone = true ∧
  _simplify_bupt_cluster default_simplifier track_zone
  = Ok [pt 39.96%Q (Some 5000000) 1; pt 39.96%Q (Some 10000000) 0;
        pt 39.96%Q (Some 20000000) 2] ∧
  bupt_pass default_simplifier track_zone [] []
  = Ok [pt 39.96%Q (Some 5000000) 1; pt 39.96%Q (Some 10000000) 0;
        pt 39.96%Q (Some 20000000) 2].
Proof. repeat split; vm_compute; reflexivity. Qed.

Lemma track_stay_first_pass :
  simplify_gpx_improved default_simplifier track_stay
  = Ok [pt 0%Q (Some 0) 0; pt 0%Q (Some 700000000) 2;
        pt 1%Q (Some 800000000) 3; pt 2%Q (Some 900000000) 4].
Proof. vm_compute. reflexivity. Defined.

Lemma track_stay_second_pass :
  simplify_gpx_improved default_simplifier
    [pt 0%Q (Some 0) 0; pt 0%Q (Some 700000000) 2;
     pt 1%Q (Some 800000000) 3; pt 2%Q (Some 900000000) 4]
  = Ok [pt 0%Q (Some 0) 0; pt 0%Q (Some 700000000) 2;
        pt 1%Q (Some 800000000) 3; pt 2%Q (Some 900000000) 4].
Proof. vm_compute. reflexivity. Defined.

Lemma rerun_never_grows_witness :
  simplify_gpx_improved default_simplifier track_stay
  = Ok [pt 0%Q (Some 0) 0; pt 0%Q (Some 700000000) 2;
        pt 1%Q (Some 800000000) 3; pt 2%Q (Some 900000000) 4] ∧
  simplify_gpx_improved default_simplifier
    [pt 0%Q (Some 0) 0; pt 0%Q (Some 700000000) 2;
     pt 1%Q (Some 800000000) 3; pt 2%Q (Some 900000000) 4]
  = Ok [pt 0%Q (Some 0) 0; pt 0%Q (Some 700000000) 2;
        pt 1%Q (Some 800000000) 3; pt 2%Q (Some 900000000) 4] ∧
  (4 ≤ 4)%nat.
Proof.
  split; [exact track_stay_first_pass|]. split; [exact track_stay_second_pass|].
  exact (rerun_never_grows default_simplifier track_stay _ _
           track_stay_first_pass track_stay_second_pass).
Defined.

(** C8 fails on [track_partial]: a second pass over the output of the
    first does not yield a point count.  The first pass returns ten of the
    eleven samples; it drops the sample that separates the two visits of
    the override zone.  In the second pass the four samples inside the zone
    therefore form one run, whose endpoints carry timestamps while one
    inner sample does not, and sorting that run by timestamp raises
    [TypeError]. *)
Theorem rerun_may_raise :
  fmap (M:=list) id <$> simplify_gpx_improved default_simplifier track_partial
  = Ok [0; 1; 2; 3; 4; 6; 7; 8; 9; 10]%nat ∧
  (simplify_gpx_improved default_simplifier track_partial
     ≫= simplify_gpx_improved default_simplifier) = Raise TypeError.
Proof. split; vm_compute; reflexivity. Qed.

(** * Instances of the further properties *)

Ltac members H :=
  repeat (apply elem_of_cons in H as [->|H]; [vm_compute; reflexivity|]);
  by apply elem_of_nil in H.

Lemma track_zone_distinct : NoDup (id <$> track_zone).
Proof. apply (bool_decide_unpack _). vm_compute. exact I. Defined.

Lemma track_camp_distinct : NoDup (id <$> track_camp).
Proof. apply (bool_decide_unpack _). vm_compute. exact I. Defined.

Lemma track_zone_timed (p : trackpoint) : p ∈ track_zone → has_time p = true.
Proof. intros H. members H. Defined.


Lemma track_camp_untimed (p : trackpoint) : p ∈ track_camp → has_time p = false.
Proof. intros H. members H. Defined.

Lemma track_camp_outside (p : trackpoint) :
  p ∈ track_camp → is_in_bupt_area default_simplifier (lat p) (lon p) = false.
Proof. intros H. members H. Defined.

Lemma zone_filter_size_witness :
  NoDup (id <$> track_zone) ∧
  0 ≤ bupt_simplified_points_count default_simplifier < len track_zone ∧
  _simplify_bupt_cluster default_simplifier track_zone
  = Ok [pt 39.96%Q (Some 5000000) 1; pt 39.96%Q (Some 10000000) 0;
        pt 39.96%Q (Some 20000000) 2] ∧
  bupt_simplified_points_count default_simplifier
  ≤ len [pt 39.96%Q (Some 5000000) 1; pt 39.96%Q (Some 10000000) 0;
         pt 39.96%Q (Some 20000000) 2]
  ≤ bupt_simplified_points_count default_simplifier + 1.
Proof.
  split; [exact track_zone_distinct|]. split; [vm_compute; intuition discriminate|].
  split; [vm_compute; reflexivity|].
  apply (zone_filter_size default_simplifier track_zone);
    [exact track_zone_distinct|vm_compute; intuition discriminate|vm_compute; reflexivity].
Defined.

Lemma zone_filter_type_error_witness :
  2 ≤ bupt_simplified_points_count default_simplifier < len track_zone_gap ∧
  pt 39.96%Q None 1 ∈ track_zone_gap ∧
  _simplify_bupt_cluster default_simplifier track_zone_gap = Raise TypeError.
Proof.
  split; [vm_compute; intuition discriminate|].
  split; [right; left|].
  apply (zone_filter_type_error default_simplifier track_zone_gap
           (pt 39.96%Q (Some 10000000) 0) (pt 39.96%Q (Some 20000000) 2)
           (pt 39.96%Q None 1));
    [vm_compute; intuition discriminate|reflexivity..|right; left|reflexivity].
Defined.

Lemma track_zone_stamped : uniformly_stamped track_zone.
Proof. apply uniformly_stamped_check. vm_compute. reflexivity. Defined.

Lemma zone_filter_chronological_witness :
  NoDup (id <$> track_zone) ∧
  2 ≤ bupt_simplified_points_count default_simplifier < len track_zone ∧
  same_kind track_zone ∧
  ∃ r earliest latest,
    _simplify_bupt_cluster default_simplifier track_zone = Ok r ∧ chronological r ∧
    earliest ∈ r ∧ latest ∈ r ∧
    ∀ p, p ∈ track_zone → time_or_min earliest ≤ time_or_min p ≤ time_or_min latest.
Proof.
  split; [exact track_zone_distinct|]. split; [vm_compute; intuition discriminate|].
  split; [exact (uniformly_stamped_same_kind track_zone track_zone_stamped)|].
  apply (zone_filter_chronological default_simplifier track_zone);
    [exact track_zone_distinct|vm_compute; intuition discriminate|exact track_zone_timed
    |exact (uniformly_stamped_same_kind track_zone track_zone_stamped)].
Defined.

Lemma track_visit_pass :
  bupt_pass default_simplifier track_visit [] []
  = Ok [pt 39.95%Q (Some 0) 0; pt 39.96%Q (Some 1000000) 1;
        pt 39.963%Q (Some 4000000) 4; pt 39.97%Q (Some 5000000) 5].
Proof. vm_compute. reflexivity. Defined.

Lemma zone_pass_keeps_outside_witness :
  bupt_pass default_simplifier track_visit [] []
  = Ok [pt 39.95%Q (Some 0) 0; pt 39.96%Q (Some 1000000) 1;
        pt 39.963%Q (Some 4000000) 4; pt 39.97%Q (Some 5000000) 5] ∧
  filter (λ p, is_in_bupt_area default_simplifier (lat p) (lon p) = false)
    [pt 39.95%Q (Some 0) 0; pt 39.96%Q (Some 1000000) 1;
     pt 39.963%Q (Some 4000000) 4; pt 39.97%Q (Some 5000000) 5]
  = filter (λ p, is_in_bupt_area default_simplifier (lat p) (lon p) = false) track_visit.
Proof.
  split; [exact track_visit_pass|].
  exact (zone_pass_keeps_outside default_simplifier track_visit _ track_visit_pass).
Defined.

Lemma zone_pass_selection_witness :
  bupt_pass default_simplifier track_visit [] []
  = Ok [pt 39.95%Q (Some 0) 0; pt 39.96%Q (Some 1000000) 1;
        pt 39.963%Q (Some 4000000) 4; pt 39.97%Q (Some 5000000) 5] ∧
  (4 ≤ length track_visit)%nat.
Proof.
  split; [exact track_visit_pass|].
  exact (proj1 (proj2 (zone_pass_selection default_simplifier track_visit _
                         track_visit_pass))).
Defined.

Lemma areas_and_segments_disjoint_witness :
  NoDup (id <$> track_stay) ∧
  identify_stay_areas_improved default_simplifier track_stay
  = Ok ([take 3 track_stay], [drop 3 track_stay]) ∧
  pt 0%Q (Some 0) 0 ∈ take 3 track_stay ∧
  pt 0%Q (Some 0) 0 ∉ drop 3 track_stay.
Proof.
  split; [exact track_stay_distinct|]. split; [exact track_stay_areas|].
  split; [by left|].
  apply (areas_and_segments_disjoint default_simplifier track_stay
           [take 3 track_stay] [drop 3 track_stay] (take 3 track_stay) (drop 3 track_stay));
    [exact track_stay_distinct|exact track_stay_areas|by left..].
Defined.

Lemma track_line_far (m : Z) : 0 ≤ m < len track_line - 1 → ¬ close_pair track_line m.
Proof. apply far_apart_pairs. vm_compute. reflexivity. Defined.

Lemma sparse_track_one_segment_witness :
  2 ≤ len track_line ∧
  scan default_simplifier (S (length track_line)) track_line (take 1 track_line) 1
  = Ok (take 1 track_line, 1) ∧
  is_stay_area default_simplifier (take 1 track_line) = Ok false ∧
  identify_stay_areas_improved default_simplifier track_line = Ok ([], [track_line]).
Proof.
  split; [vm_compute; discriminate|]. split; [vm_compute; reflexivity|].
  split; [vm_compute; reflexivity|].
  apply (sparse_track_one_segment default_simplifier track_line (take 1 track_line) 1);
    [vm_compute; discriminate|vm_compute; reflexivity|vm_compute; reflexivity
    |exact track_line_far].
Defined.

Lemma track_camp_stay :
  simplify_stay_area three_point_simplifier (take 10 track_camp)
  = Ok [pt 0%Q None 0; pt 0%Q None 5; pt 0%Q None 9].
Proof. vm_compute. reflexivity. Defined.

Lemma stay_simplifier_budget_witness :
  1 ≤ max_stay_points three_point_simplifier ∧
  simplify_stay_area three_point_simplifier (take 10 track_camp)
  = Ok [pt 0%Q None 0; pt 0%Q None 5; pt 0%Q None 9] ∧
  len [pt 0%Q None 0; pt 0%Q None 5; pt 0%Q None 9]
  ≤ max_stay_points three_point_simplifier ∧
  len [pt 0%Q None 0; pt 0%Q None 5; pt 0%Q None 9] ≤ 3.
Proof.
  split; [vm_compute; discriminate|]. split; [exact track_camp_stay|].
  destruct (stay_simplifier_budget three_point_simplifier (take 10 track_camp)
              [pt 0%Q None 0; pt 0%Q None 5; pt 0%Q None 9]) as [Hmax Hthree];
    [vm_compute; discriminate|exact track_camp_stay|].
  split; [exact Hmax|]. apply Hthree. vm_compute. reflexivity.
Defined.

Lemma stay_simplifier_keeps_endpoints_witness :
  max_stay_points three_point_simplifier ≠ 1 ∧
  simplify_stay_area three_point_simplifier (take 10 track_camp)
  = Ok [pt 0%Q None 0; pt 0%Q None 5; pt 0%Q None 9] ∧
  0%nat ∈ id <$> [pt 0%Q None 0; pt 0%Q None 5; pt 0%Q None 9] ∧
  9%nat ∈ id <$> [pt 0%Q None 0; pt 0%Q None 5; pt 0%Q None 9].
Proof.
  split; [vm_compute; discriminate|]. split; [exact track_camp_stay|].
  apply (stay_simplifier_keeps_endpoints three_point_simplifier (take 10 track_camp) _
           (pt 0%Q None 0) (pt 0%Q None 9));
    [vm_compute; discriminate|exact track_camp_stay|reflexivity..].
Defined.

Lemma stay_simplifier_order_witness :
  NoDup (id <$> take 10 track_camp) ∧
  simplify_stay_area three_point_simplifier (take 10 track_camp)
  = Ok [pt 0%Q None 0; pt 0%Q None 5; pt 0%Q None 9] ∧
  [pt 0%Q None 0; pt 0%Q None 5; pt 0%Q None 9] `sublist_of` take 10 track_camp.
Proof.
  assert (NoDup (id <$> take 10 track_camp)) as Hnd.
  { apply (bool_decide_unpack _). vm_compute. exact I. }
  split; [exact Hnd|]. split; [exact track_camp_stay|].
  exact (stay_simplifier_order three_point_simplifier (take 10 track_camp) _
           Hnd track_camp_stay).
Defined.

Lemma track_ends_always_kept_witness :
  NoDup (id <$> track_camp) ∧
  track_camp !! 10%nat = Some (pt 1%Q None 10) ∧
  (10 < 5 ∨ length track_camp - 5 ≤ 10)%nat ∧
  should_keep_moving_point default_simplifier (pt 1%Q None 10) track_camp
    [pt 0%Q None 0; pt 0%Q None 9] = true.
Proof.
  split; [exact track_camp_distinct|]. split; [reflexivity|].
  split; [right; simpl; lia|].
  apply (track_ends_always_kept default_simplifier (pt 1%Q None 10) track_camp
           [pt 0%Q None 0; pt 0%Q None 9] 10);
    [exact track_camp_distinct|reflexivity|right; simpl; lia].
Defined.


Lemma pipeline_nonempty_witness :
  1 ≤ bupt_simplified_points_count default_simplifier ∧
  track_stay ≠ [] ∧
  simplify_gpx_improved default_simplifier track_stay
  = Ok [pt 0%Q (Some 0) 0; pt 0%Q (Some 700000000) 2;
        pt 1%Q (Some 800000000) 3; pt 2%Q (Some 900000000) 4] ∧
  [pt 0%Q (Some 0) 0; pt 0%Q (Some 700000000) 2;
   pt 1%Q (Some 800000000) 3; pt 2%Q (Some 900000000) 4] ≠ [].
Proof.
  split; [vm_compute; discriminate|]. split; [discriminate|].
  split; [exact track_stay_first_pass|].
  apply (pipeline_nonempty default_simplifier track_stay);
    [vm_compute; discriminate|discriminate|exact track_stay_first_pass].
Defined.

Lemma track_camp_pass :
  simplify_gpx_improved default_simplifier track_camp
  = Ok [pt 0%Q None 0; pt 0%Q None 9; pt 1%Q None 10; pt 2%Q None 11].
Proof. vm_compute. reflexivity. Defined.

Lemma unstamped_track_order_witness :
  NoDup (id <$> track_camp) ∧
  simplify_gpx_improved default_simplifier track_camp
  = Ok [pt 0%Q None 0; pt 0%Q None 9; pt 1%Q None 10; pt 2%Q None 11] ∧
  [pt 0%Q None 0; pt 0%Q None 9; pt 1%Q None 10; pt 2%Q None 11] `sublist_of` track_camp.
Proof.
  split; [exact track_camp_distinct|]. split; [exact track_camp_pass|].
  exact (unstamped_track_order default_simplifier track_camp _ track_camp_distinct
           track_camp_untimed track_camp_outside track_camp_pass).
Defined.
